(** * SAI MP3 player: playlist state, play order and persistence

    A shallow embedding of the playlist bookkeeping of the three player
    variants that carry a play order:

    - [Full]  : sai_mp3_player_full.py
    - [Auto]  : sai_mp3_player_slick_autoplay_timer_voice_select_no_underscore.py
    - [Slick] : sai_mp3_player_slick.py

    Python integers are [Z], Python lists are [list] with the indexing
    rules of the language written out (negative subscripts, IndexError),
    strings are [string] read as sequences of code points below 256.
    Widgets, the VLC engine and the speech worker are outside the model:
    a handler returns a [signal] that records which engine call it ended
    with. *)

From Stdlib Require Import ZArith Lia Ascii String Sorted.
From stdpp Require Import base list strings pretty gmap.

Local Open Scope Z_scope.

(** ** Results of fallible code *)

Inductive exn : Type :=
| IndexError
| ValueError
| TypeError
| AttributeError
| NotModelled.

Inductive result (A : Type) : Type :=
| Ok (a : A)
| Raise (e : exn).

Arguments Ok {A} a.
Arguments Raise {A} e.

Definition and_then {A B} (r : result A) (k : A -> result B) : result B :=
  match r with
  | Ok a => k a
  | Raise e => Raise e
  end.

Notation "x <~ r ;; k" := (and_then r (fun x => k))
  (at level 100, r at next level, right associativity).

(** ** The Python list and string operations the player uses *)

Module Py.

(** [len(l)] *)
Definition len {A} (l : list A) : Z := Z.of_nat (length l).

(** [l[i]]: a subscript below zero counts from the end, anything
    outside [-len(l), len(l)) raises IndexError. *)
Definition getitem {A} (l : list A) (i : Z) : result A :=
  let j := if i <? 0 then i + len l else i in
  if j <? 0 then Raise IndexError
  else match l !! Z.to_nat j with
       | Some a => Ok a
       | None => Raise IndexError
       end.

(** [x in l] on a list of integers *)
Definition contains (x : Z) (l : list Z) : bool :=
  existsb (Z.eqb x) l.

(** [l.index(x)]: offset of the first occurrence, ValueError when
    there is none. *)
Fixpoint index (x : Z) (l : list Z) : result Z :=
  match l with
  | [] => Raise ValueError
  | y :: l' =>
      if y =? x then Ok 0
      else match index x l' with
           | Ok i => Ok (i + 1)
           | Raise e => Raise e
           end
  end.

(** [l.pop()]: the last element and the rest, nothing on an empty
    list. *)
Definition pop {A} (l : list A) : option (A * list A) :=
  match reverse l with
  | [] => None
  | a :: r => Some (a, reverse r)
  end.

(** [enumerate(l)] with the counter starting at [i] *)
Fixpoint enumerate_from {A} (i : Z) (l : list A) : list (Z * A) :=
  match l with
  | [] => []
  | a :: l' => (i, a) :: enumerate_from (i + 1) l'
  end.

Definition enumerate {A} (l : list A) : list (Z * A) := enumerate_from 0 l.

(** *** [random.shuffle]

    The generator of the [random] module is a stream of raw draws;
    [randbelow n] consumes one and reduces it below [n].  An exhausted
    stream keeps answering 0. *)
Definition randbelow (n : nat) (g : list nat) : nat * list nat :=
  match g with
  | [] => (0%nat, [])
  | d :: g' => ((d mod n)%nat, g')
  end.

(** [x[i], x[j] = x[j], x[i]] *)
Definition swap {A} (i j : nat) (x : list A) : list A :=
  match x !! i, x !! j with
  | Some a, Some b => <[j := a]> (<[i := b]> x)
  | _, _ => x
  end.

(** [for i in reversed(range(1, len(x))): j = randbelow(i + 1); swap] *)
Fixpoint shuffle_from {A} (i : nat) (x : list A) (g : list nat)
  : list A * list nat :=
  match i with
  | O => (x, g)
  | S i' =>
      let '(j, g') := randbelow (S i) g in
      shuffle_from i' (swap i j x) g'
  end.

Definition shuffle {A} (x : list A) (g : list nat) : list A * list nat :=
  shuffle_from (length x - 1) x g.

(** *** Strings *)

Definition code (c : ascii) : N := N_of_ascii c.

(** [str.isspace] on one code point below 256 *)
Definition isspace (c : ascii) : bool :=
  let n := code c in
  ((9 <=? n) && (n <=? 13) || (28 <=? n) && (n <=? 32)
   || (n =? 133) || (n =? 160))%N.

(** [str.lower] on one code point below 256 *)
Definition lower_char (c : ascii) : ascii :=
  let n := code c in
  if ((65 <=? n) && (n <=? 90)
      || (192 <=? n) && (n <=? 222) && negb (n =? 215))%N
  then ascii_of_N (n + 32)
  else c.

Fixpoint lower (s : string) : string :=
  match s with
  | EmptyString => EmptyString
  | String c s' => String (lower_char c) (lower s')
  end.

Fixpoint lstrip (s : string) : string :=
  match s with
  | EmptyString => EmptyString
  | String c s' => if isspace c then lstrip s' else s
  end.

Definition rstrip (s : string) : string :=
  String.rev (lstrip (String.rev s)).

(** [s.strip()] *)
Definition strip (s : string) : string := rstrip (lstrip s).

(** [q in hay] on strings *)
Fixpoint substring_of (q hay : string) : bool :=
  String.prefix q hay
  || match hay with
     | EmptyString => false
     | String _ hay' => substring_of q hay'
     end.

(** [f"{n:02d}"]: the decimal digits of [n], a minus sign first when
    [n] is negative, filled with a zero on the left up to two
    characters. *)
Definition format_02d (n : Z) : string :=
  let digits := pretty n in
  if (String.length digits <? 2)%nat then "0" +:+ digits else digits.

(** Truth value of a string: the empty string is false. *)
Definition truthy (s : string) : bool :=
  match s with
  | EmptyString => false
  | String _ _ => true
  end.

End Py.

(** ** Tracks, engine signals, session state *)

(** The [Track] dataclass. *)
Record Track : Type := mkTrack {
  path : string;
  title : string;
  artist : string;
  album : string;
  duration_ms : Z;
}.

(** What a handler asked of the playback engine before it returned:
    nothing, [load_path(location); play()] for the track at registry
    index [idx], [stop()], [pause()] or a bare [play()]. *)
Inductive signal : Type :=
| Idle
| Playing (idx : Z) (location : string)
| Stopped
| Paused
| Resumed.

(** The attributes of [MainWindow] that the playlist logic reads and
    writes, together with the state of the [random] module. *)
Record state : Type := mkState {
  tracks : list Track;
  search : string;
  visible_indices : list Z;
  play_order : list Z;
  play_pos : Z;
  history : list Z;
  shuffle : bool;
  repeat_all : bool;
  repeat_one : bool;
  rng : list nat;
}.

Definition set_tracks (v : list Track) (s : state) : state :=
  mkState v (search s) (visible_indices s) (play_order s) (play_pos s)
          (history s) (shuffle s) (repeat_all s) (repeat_one s) (rng s).
Definition set_search (v : string) (s : state) : state :=
  mkState (tracks s) v (visible_indices s) (play_order s) (play_pos s)
          (history s) (shuffle s) (repeat_all s) (repeat_one s) (rng s).
Definition set_visible_indices (v : list Z) (s : state) : state :=
  mkState (tracks s) (search s) v (play_order s) (play_pos s)
          (history s) (shuffle s) (repeat_all s) (repeat_one s) (rng s).
Definition set_play_order (v : list Z) (s : state) : state :=
  mkState (tracks s) (search s) (visible_indices s) v (play_pos s)
          (history s) (shuffle s) (repeat_all s) (repeat_one s) (rng s).
Definition set_play_pos (v : Z) (s : state) : state :=
  mkState (tracks s) (search s) (visible_indices s) (play_order s) v
          (history s) (shuffle s) (repeat_all s) (repeat_one s) (rng s).
Definition set_history (v : list Z) (s : state) : state :=
  mkState (tracks s) (search s) (visible_indices s) (play_order s) (play_pos s)
          v (shuffle s) (repeat_all s) (repeat_one s) (rng s).
Definition set_shuffle (v : bool) (s : state) : state :=
  mkState (tracks s) (search s) (visible_indices s) (play_order s) (play_pos s)
          (history s) v (repeat_all s) (repeat_one s) (rng s).
Definition set_repeat_all (v : bool) (s : state) : state :=
  mkState (tracks s) (search s) (visible_indices s) (play_order s) (play_pos s)
          (history s) (shuffle s) v (repeat_one s) (rng s).
Definition set_repeat_one (v : bool) (s : state) : state :=
  mkState (tracks s) (search s) (visible_indices s) (play_order s) (play_pos s)
          (history s) (shuffle s) (repeat_all s) v (rng s).
Definition set_rng (v : list nat) (s : state) : state :=
  mkState (tracks s) (search s) (visible_indices s) (play_order s) (play_pos s)
          (history s) (shuffle s) (repeat_all s) (repeat_one s) v.

(** The attributes as [MainWindow.__init__] leaves them, over a
    generator in state [g]. *)
Definition initial (g : list nat) : state :=
  mkState [] "" [] [] (-1) [] false true false g.

(** ** Handlers as state transformers that may raise

    An exception that leaves a Qt slot ends the session, so a raised
    result carries no state. *)

Definition M (S A : Type) : Type := S -> result (A * S).

Definition ret {S A} (a : A) : M S A := fun s => Ok (a, s).

Definition bind {S A B} (m : M S A) (k : A -> M S B) : M S B :=
  fun s => match m s with
           | Ok (a, s') => k a s'
           | Raise e => Raise e
           end.

Definition get {S A} (f : S -> A) : M S A := fun s => Ok (f s, s).

Definition modify {S} (f : S -> S) : M S unit := fun s => Ok (tt, f s).

Definition lift {S A} (r : result A) : M S A :=
  fun s => match r with
           | Ok a => Ok (a, s)
           | Raise e => Raise e
           end.

Notation "x <- c1 ;; c2" := (bind c1 (fun x => c2))
  (at level 100, c1 at next level, right associativity).
Notation "c1 ;;; c2" := (bind c1 (fun _ => c2))
  (at level 100, right associativity).

(** [random.shuffle(base)] against the generator held in the state. *)
Definition random_shuffle (base : list Z) : M state (list Z) :=
  fun s => let '(b, g) := Py.shuffle base (rng s) in Ok (b, set_rng g s).

(** ** The sequencer shared by the full and the autoplay variant

    [_current_track_index], [_rebuild_play_order], [_apply_filter] and
    the engine part of [_load_current_and_play] read the same in both
    files. *)

Module Sequencer.

Definition _current_track_index : M state Z :=
  pos <- get play_pos ;;
  order <- get play_order ;;
  if (pos <? 0) || (pos >=? Py.len order) then ret (-1)
  else lift (Py.getitem order pos).

Definition _rebuild_play_order (keep_current : bool) : M state unit :=
  current_idx <- _current_track_index ;;
  base <- get visible_indices ;;
  sh <- get shuffle ;;
  base <- (if sh then random_shuffle base else ret base) ;;
  modify (set_play_order base) ;;;
  match base with
  | [] => modify (set_play_pos (-1))
  | _ :: _ =>
      if keep_current && Py.contains current_idx base
      then i <- lift (Py.index current_idx base) ;; modify (set_play_pos i)
      else modify (set_play_pos 0)
  end.

(** [f"{t.title} {t.artist} {t.album}".lower()] *)
Definition hay (t : Track) : string :=
  Py.lower (title t +:+ " " +:+ artist t +:+ " " +:+ album t).

(** [not q or q in hay] *)
Definition matches (q : string) (t : Track) : bool :=
  negb (Py.truthy q) || Py.substring_of q (hay t).

(** The loop that fills [visible_indices]. *)
Definition collect_visible (q : string) (ts : list Track) : list Z :=
  foldl (fun acc it => if matches q it.2 then acc ++ [it.1] else acc)
        [] (Py.enumerate ts).

(** [(self.search.text() or "").strip().lower()] *)
Definition query_of (text : string) : string :=
  Py.lower (Py.strip (if Py.truthy text then text else "")).

Definition _apply_filter : M state unit :=
  text <- get search ;;
  ts <- get tracks ;;
  modify (set_visible_indices (collect_visible (query_of text) ts)) ;;;
  _rebuild_play_order true.

Definition _load_current_and_play : M state signal :=
  idx <- _current_track_index ;;
  if idx =? -1 then ret Idle
  else
    ts <- get tracks ;;
    t <- lift (Py.getitem ts idx) ;;
    ret (Playing idx (path t)).

End Sequencer.

(** ** What the player takes from its host

    [pathlib], the file system and the tag reader are not part of the
    repository.  [Path s] is [Path(s)], [str p] is [str(p)], [path_eqb]
    is [==] on paths, [on_disk p] is [p.exists()], [tags p] is what the
    [try] block of [_read_metadata] leaves in title, artist, album and
    duration_ms, [probe p] is the record built inside the [try] block of
    the slick variant's [_add] ([None] when the block raised), and
    [int_of_str] is [int] applied to a string. *)
Class Host : Type := {
  PurePath : Type;
  Path : string -> PurePath;
  str : PurePath -> string;
  path_eqb : PurePath -> PurePath -> bool;
  on_disk : PurePath -> bool;
  stem : PurePath -> string;
  tags : PurePath -> string * string * string * Z;
  probe : PurePath -> option (string * string * string * Z);
  int_of_str : string -> result Z;
  path_eqb_refl : forall p, path_eqb p p = true;
  path_eqb_sym : forall p q, path_eqb p q = path_eqb q p;
  path_eqb_trans : forall p q r,
    path_eqb p q = true -> path_eqb q r = true -> path_eqb p r = true;
  Path_str : forall p, path_eqb (Path (str p)) p = true;
}.

(** A host whose paths are plain strings compared literally, where
    every file exists and carries no tags. *)
Definition plain_host : Host := {|
  PurePath := string;
  Path := fun s => s;
  str := fun p => p;
  path_eqb := String.eqb;
  on_disk := fun _ => true;
  stem := fun p => p;
  tags := fun _ => (""%string, ""%string, ""%string, -1);
  probe := fun p => Some (p, ""%string, ""%string, -1);
  int_of_str := fun _ => Raise ValueError;
  path_eqb_refl := String.eqb_refl;
  path_eqb_sym := String.eqb_sym;
  path_eqb_trans := fun p q r Hpq Hqr =>
    eq_ind_r (fun x => String.eqb x r = true) Hqr
             (proj1 (String.eqb_eq p q) Hpq);
  Path_str := String.eqb_refl;
|}.

(** ** JSON documents

    The value [json.load] hands back.  An object keeps its members in
    document order; a key that occurs twice answers with its last
    member, as the parsed [dict] does.  Numbers are integers. *)
#[local] Unset Elimination Schemes.
Inductive json : Type :=
| JNull
| JBool (b : bool)
| JInt (z : Z)
| JStr (s : string)
| JList (items : list json)
| JDict (members : list (string * json)).
#[local] Set Elimination Schemes.

Module Json.

(** [d.get(key, default)] on the members of an object *)
Definition get (key : string) (default : json)
           (members : list (string * json)) : json :=
  foldl (fun acc kv => if String.eqb kv.1 key then kv.2 else acc)
        default members.

(** [t.get(key, default)] on any value: only a [dict] has [get]. *)
Definition get_of (t : json) (key : string) (default : json) : result json :=
  match t with
  | JDict members => Ok (get key default members)
  | _ => Raise AttributeError
  end.

(** Truth value *)
Definition truthy (j : json) : bool :=
  match j with
  | JNull => false
  | JBool b => b
  | JInt z => negb (z =? 0)
  | JStr s => Py.truthy s
  | JList l => match l with [] => false | _ => true end
  | JDict m => match m with [] => false | _ => true end
  end.

(** The items a [for] loop draws from a value: the elements of a
    list, the keys of an object, the characters of a string. *)
Definition iterate (j : json) : result (list json) :=
  match j with
  | JList l => Ok l
  | JDict m => Ok (map (fun kv => JStr kv.1) m)
  | JStr s => Ok (map (fun c => JStr (String c EmptyString))
                      (list_ascii_of_string s))
  | _ => Raise TypeError
  end.

End Json.

(** ** sai_mp3_player_full.py *)

Module Full.
Import Sequencer.

Definition _play_by_track_index (idx : Z) : M state signal :=
  ts <- get tracks ;;
  if (idx <? 0) || (idx >=? Py.len ts) then ret Idle
  else
    order <- get play_order ;;
    (if Py.contains idx order
     then i <- lift (Py.index idx order) ;; modify (set_play_pos i)
     else
       _rebuild_play_order false ;;;
       order' <- get play_order ;;
       if Py.contains idx order'
       then i <- lift (Py.index idx order') ;; modify (set_play_pos i)
       else ret tt) ;;;
    _load_current_and_play.

(** [is_playing] is the answer of [engine.is_playing()]. *)
Definition toggle_play_pause (is_playing : bool) : M state signal :=
  order <- get play_order ;;
  match order with
  | [] => ret Idle
  | _ :: _ =>
      cur <- _current_track_index ;;
      if cur =? -1
      then modify (set_play_pos 0) ;;; _load_current_and_play
      else if is_playing then ret Paused else ret Resumed
  end.

Definition play_next : M state signal :=
  order <- get play_order ;;
  match order with
  | [] => ret Idle
  | _ :: _ =>
      cur <- _current_track_index ;;
      (if negb (cur =? -1)
       then h <- get history ;; modify (set_history (h ++ [cur]))
       else ret tt) ;;;
      one <- get repeat_one ;;
      if one then _load_current_and_play
      else
        pos <- get play_pos ;;
        let nxt := pos + 1 in
        if nxt >=? Py.len order
        then
          all <- get repeat_all ;;
          if all
          then modify (set_play_pos 0) ;;; _load_current_and_play
          else ret Stopped
        else modify (set_play_pos nxt) ;;; _load_current_and_play
  end.

Definition play_prev : M state signal :=
  order <- get play_order ;;
  match order with
  | [] => ret Idle
  | _ :: _ =>
      h <- get history ;;
      match Py.pop h with
      | Some (idx, h') =>
          modify (set_history h') ;;; _play_by_track_index idx
      | None =>
          pos <- get play_pos ;;
          all <- get repeat_all ;;
          let prv := pos - 1 in
          let prv := if prv <? 0
                     then (if all then Py.len order - 1 else 0)
                     else prv in
          modify (set_play_pos prv) ;;; _load_current_and_play
      end
  end.

Definition _handle_track_end : M state signal :=
  one <- get repeat_one ;;
  if one then _load_current_and_play else play_next.

Definition _on_shuffle_changed (checked : bool) : M state unit :=
  modify (set_shuffle checked) ;;;
  modify (set_history []) ;;;
  _rebuild_play_order true.

Definition _on_repeat_all_changed (checked : bool) : M state unit :=
  modify (set_repeat_all checked).

Definition _on_repeat_one_changed (checked : bool) : M state unit :=
  modify (set_repeat_one checked).

(** Typing in the search box: the widget holds [text] and its
    [textChanged] signal runs [_apply_filter]. *)
Definition search_text_changed (text : string) : M state unit :=
  modify (set_search text) ;;; _apply_filter.

(** [_on_item_double_clicked] with the row of the clicked item. *)
Definition _on_item_double_clicked (row : Z) : M state signal :=
  vis <- get visible_indices ;;
  if (row <? 0) || (row >=? Py.len vis) then ret Idle
  else
    idx <- lift (Py.getitem vis row) ;;
    _play_by_track_index idx.

(** The module function [_format_ms]. *)
Definition _format_ms (ms : Z) : string :=
  let ms := if ms <? 0 then 0 else ms in
  let total_sec := ms / 1000 in
  let minutes := total_sec / 60 in
  let seconds := total_sec mod 60 in
  Py.format_02d minutes +:+ ":" +:+ Py.format_02d seconds.

(** *** Registry: import, save, load *)

Section Registry.
Context `{Host}.

Definition _read_metadata (p : PurePath) : Track :=
  let '(ti, ar, al, d) := tags p in
  mkTrack (str p) (if Py.truthy ti then ti else stem p) ar al d.

(** [any(Path(t.path) == p for t in self.tracks)] *)
Definition known (p : PurePath) (ts : list Track) : bool :=
  existsb (fun t => path_eqb (Path (path t)) p) ts.

(** The [for p in paths] loop over the registry and the counter. *)
Fixpoint add_loop (paths : list PurePath) (ts : list Track) (added : Z)
  : list Track * Z :=
  match paths with
  | [] => (ts, added)
  | p :: rest =>
      if negb (on_disk p) then add_loop rest ts added
      else if known p ts then add_loop rest ts added
      else add_loop rest (ts ++ [_read_metadata p]) (added + 1)
  end.

Definition _add_paths (paths : list PurePath) : M state unit :=
  ts <- get tracks ;;
  let '(ts', added) := add_loop paths ts 0 in
  modify (set_tracks ts') ;;;
  if negb (added =? 0)
  then _apply_filter ;;; _rebuild_play_order false
  else ret tt.

(** [asdict(t)] *)
Definition asdict (t : Track) : json :=
  JDict [("path", JStr (path t)); ("title", JStr (title t));
         ("artist", JStr (artist t)); ("album", JStr (album t));
         ("duration_ms", JInt (duration_ms t))]%string.

(** The payload [save_playlist] writes when the registry is not
    empty and the user picked a file; [now] is [int(time.time())]. *)
Definition save_playlist (now : Z) : M state (option json) :=
  ts <- get tracks ;;
  match ts with
  | [] => ret None
  | _ :: _ =>
      ret (Some (JDict [("version", JInt 1); ("saved_at", JInt now);
                        ("tracks", JList (map asdict ts))]%string))
  end.

(** [int(v)] *)
Definition py_int (v : json) : result Z :=
  match v with
  | JInt z => Ok z
  | JBool b => Ok (if b then 1 else 0)
  | JStr s => int_of_str s
  | _ => Raise TypeError
  end.

(** A text attribute of [Track].  Python would store whatever value
    the document holds; the record of this model holds strings, so
    any other value is reported as outside the model. *)
Definition text_field (v : json) : result string :=
  match v with
  | JStr s => Ok s
  | _ => Raise NotModelled
  end.

(** One round of the [for t in tracks] loop: [None] stands for
    [continue]. *)
Definition load_entry (t : json) : result (option Track) :=
  p <~ Json.get_of t "path" (JStr "") ;;
  if negb (Json.truthy p) then Ok None
  else
    match p with
    | JStr loc =>
        if negb (on_disk (Path loc)) then Ok None
        else
          ti <~ Json.get_of t "title" (JStr "") ;;
          ti <~ text_field ti ;;
          ar <~ Json.get_of t "artist" (JStr "") ;;
          ar <~ text_field ar ;;
          al <~ Json.get_of t "album" (JStr "") ;;
          al <~ text_field al ;;
          d <~ Json.get_of t "duration_ms" (JInt (-1)) ;;
          d <~ py_int d ;;
          Ok (Some (mkTrack loc ti ar al d))
    | _ => Raise TypeError
    end.

Fixpoint load_loop (items : list json) (loaded : list Track)
  : result (list Track) :=
  match items with
  | [] => Ok loaded
  | t :: rest =>
      r <~ load_entry t ;;
      match r with
      | None => load_loop rest loaded
      | Some tr => load_loop rest (loaded ++ [tr])
      end
  end.

(** [load_playlist] from the point where [json.load] has returned
    [payload]. *)
Definition load_playlist (payload : json) : M state unit :=
  listed <- lift (Json.get_of payload "tracks" (JList [])) ;;
  items <- lift (Json.iterate listed) ;;
  loaded <- lift (load_loop items []) ;;
  match loaded with
  | [] => ret tt
  | _ :: _ =>
      modify (set_tracks loaded) ;;;
      modify (set_history []) ;;;
      _apply_filter ;;;
      _rebuild_play_order false
  end.

End Registry.

End Full.

(** ** sai_mp3_player_slick_autoplay_timer_voice_select_no_underscore.py *)

Module Auto.
Import Sequencer.

Definition play_next : M state signal :=
  order <- get play_order ;;
  match order with
  | [] => ret Idle
  | _ :: _ =>
      one <- get repeat_one ;;
      if one then _load_current_and_play
      else
        cur <- _current_track_index ;;
        (if negb (cur =? -1)
         then h <- get history ;; modify (set_history (h ++ [cur]))
         else ret tt) ;;;
        pos <- get play_pos ;;
        let nxt := pos + 1 in
        if nxt >=? Py.len order
        then
          all <- get repeat_all ;;
          if all
          then modify (set_play_pos 0) ;;; _load_current_and_play
          else ret Stopped
        else modify (set_play_pos nxt) ;;; _load_current_and_play
  end.

(** The tail of [play_prev] after the history branch. *)
Definition step_back (order : list Z) : M state signal :=
  pos <- get play_pos ;;
  all <- get repeat_all ;;
  let prv := pos - 1 in
  let prv := if prv <? 0
             then (if all then Py.len order - 1 else 0)
             else prv in
  modify (set_play_pos prv) ;;; _load_current_and_play.

Definition play_prev : M state signal :=
  order <- get play_order ;;
  match order with
  | [] => ret Idle
  | _ :: _ =>
      h <- get history ;;
      match Py.pop h with
      | Some (idx, h') =>
          modify (set_history h') ;;;
          if Py.contains idx order
          then
            i <- lift (Py.index idx order) ;;
            modify (set_play_pos i) ;;;
            _load_current_and_play
          else step_back order
      | None => step_back order
      end
  end.

(** [_on_item_double_clicked] with the clicked row. *)
Definition _on_item_double_clicked (row : Z) : M state signal :=
  vis <- get visible_indices ;;
  if (row <? 0) || (row >=? Py.len vis) then ret Idle
  else
    idx <- lift (Py.getitem vis row) ;;
    order <- get play_order ;;
    (if Py.contains idx order
     then i <- lift (Py.index idx order) ;; modify (set_play_pos i)
     else
       _rebuild_play_order false ;;;
       order' <- get play_order ;;
       if Py.contains idx order'
       then i <- lift (Py.index idx order') ;; modify (set_play_pos i)
       else ret tt) ;;;
    _load_current_and_play.

(** The module function [_format_ms]; [None] is Python's [None]. *)
Definition _format_ms (ms : option Z) : string :=
  let ms := match ms with
            | None => 0
            | Some v => if v <? 0 then 0 else v
            end in
  let total_sec := ms / 1000 in
  let minutes := total_sec / 60 in
  let seconds := total_sec mod 60 in
  Py.format_02d minutes +:+ ":" +:+ Py.format_02d seconds.

(** [self.auto_play], set once in the constructor. *)
Definition auto_play : bool := true.

(** *** Registry: import and load *)

Section Registry.
Context `{Host}.

(** [_read_metadata] starts the title at the stem and keeps a tag
    title that is not empty; the record is the one the full
    variant builds. *)
Definition _read_metadata (p : PurePath) : Track :=
  let '(ti, ar, al, d) := tags p in
  mkTrack (str p) (if Py.truthy ti then ti else stem p) ar al d.

(** [{str(Path(t.path)) for t in self.tracks}] *)
Definition existing_of (ts : list Track) : gset string :=
  list_to_set (map (fun t => str (Path (path t))) ts).

(** The [for p in paths] loop over the registry, the set of known
    locations and the counter. *)
Fixpoint add_loop (paths : list PurePath) (ts : list Track)
         (existing : gset string) (added : Z)
  : list Track * gset string * Z :=
  match paths with
  | [] => (ts, existing, added)
  | p :: rest =>
      if negb (on_disk p) then add_loop rest ts existing added
      else if bool_decide (str p ∈ existing)
           then add_loop rest ts existing added
           else add_loop rest (ts ++ [_read_metadata p])
                         ({[str p]} ∪ existing) (added + 1)
  end.

Definition _add_paths (paths : list PurePath) : M state signal :=
  ts <- get tracks ;;
  let was_empty := Py.len ts =? 0 in
  let '(ts', _, added) := add_loop paths ts (existing_of ts) 0 in
  modify (set_tracks ts') ;;;
  if added =? 0 then ret Idle
  else
    _apply_filter ;;;
    _rebuild_play_order false ;;;
    order <- get play_order ;;
    if auto_play && was_empty
       && (match order with [] => false | _ :: _ => true end)
    then modify (set_play_pos 0) ;;; _load_current_and_play
    else ret Idle.

(** [load_playlist] from the point where [json.load] has returned
    [payload]; the loop over the entries reads as in the full
    variant. *)
Definition load_playlist (payload : json) : M state signal :=
  listed <- lift (Json.get_of payload "tracks" (JList [])) ;;
  items <- lift (Json.iterate listed) ;;
  loaded <- lift (Full.load_loop items []) ;;
  match loaded with
  | [] => ret Idle
  | _ :: _ =>
      modify (set_tracks loaded) ;;;
      modify (set_history []) ;;;
      _apply_filter ;;;
      _rebuild_play_order false ;;;
      order <- get play_order ;;
      if auto_play && (match order with [] => false | _ :: _ => true end)
      then modify (set_play_pos 0) ;;; _load_current_and_play
      else ret Idle
  end.

End Registry.

(** *** The end-of-track timer

    The attributes the polling timer adds to the session: whether
    the user drags the seek slider, and the registry index for which
    the end of the track has been handled. *)
Record timer : Type := mkTimer {
  session : state;
  _user_seeking : bool;
  _ended_fired_for_track_idx : Z;
}.

Definition set_session (v : state) (w : timer) : timer :=
  mkTimer v (_user_seeking w) (_ended_fired_for_track_idx w).
Definition set_user_seeking (v : bool) (w : timer) : timer :=
  mkTimer (session w) v (_ended_fired_for_track_idx w).
Definition set_ended_fired (v : Z) (w : timer) : timer :=
  mkTimer (session w) (_user_seeking w) v.

(** A handler of the session run inside the larger state. *)
Definition on_session {A} (m : M state A) : M timer A :=
  fun w => match m (session w) with
           | Ok (a, s') => Ok (a, set_session s' w)
           | Raise e => Raise e
           end.

(** [_load_current_and_play] of this file, which also clears
    [_ended_fired_for_track_idx] once the current index is known. *)
Definition _load_current_and_play : M timer signal :=
  idx <- on_session Sequencer._current_track_index ;;
  if idx =? -1 then ret Idle
  else
    modify (set_ended_fired (-1)) ;;;
    ts <- get (fun w => tracks (session w)) ;;
    t <- lift (Py.getitem ts idx) ;;
    ret (Playing idx (path t)).

(** [play_next] inside the larger state.  Its only call of
    [_load_current_and_play] is its last step, and that call clears
    [_ended_fired_for_track_idx] exactly when it goes on to load a
    track. *)
Definition play_next_timed : M timer signal :=
  sig <- on_session play_next ;;
  match sig with
  | Playing _ _ => modify (set_ended_fired (-1)) ;;; ret sig
  | _ => ret sig
  end.

(** The callback [_go] that [_maybe_autoplay_next] hands to
    [QTimer.singleShot]. *)
Definition _go : M timer signal :=
  one <- get (fun w => repeat_one (session w)) ;;
  if one then _load_current_and_play else play_next_timed.

(** [_maybe_autoplay_next]: the answer tells whether [_go] has been
    scheduled. *)
Definition _maybe_autoplay_next (pos length : Z) : M timer bool :=
  if negb auto_play then ret false
  else
    seeking <- get _user_seeking ;;
    if seeking then ret false
    else if (length <=? 0) || (pos <=? 0) then ret false
    else
      idx <- on_session Sequencer._current_track_index ;;
      if idx =? -1 then ret false
      else
        let remaining := length - pos in
        if remaining >? 700 then ret false
        else
          fired <- get _ended_fired_for_track_idx ;;
          if fired =? idx then ret false
          else modify (set_ended_fired idx) ;;; ret true.

End Auto.

(** ** sai_mp3_player_slick.py *)

Module Slick.

(** The attributes of the slick [MainWindow]; [search] is the text of
    the search box. *)
Record state : Type := mkState {
  tracks : list Track;
  search : string;
  order : list Z;
  pos : Z;
  shuffle : bool;
  repeat_all : bool;
  repeat_one : bool;
  rng : list nat;
}.

Definition set_tracks (v : list Track) (s : state) : state :=
  mkState v (search s) (order s) (pos s) (shuffle s) (repeat_all s)
          (repeat_one s) (rng s).
Definition set_order (v : list Z) (s : state) : state :=
  mkState (tracks s) (search s) v (pos s) (shuffle s) (repeat_all s)
          (repeat_one s) (rng s).
Definition set_pos (v : Z) (s : state) : state :=
  mkState (tracks s) (search s) (order s) v (shuffle s) (repeat_all s)
          (repeat_one s) (rng s).
Definition set_flags (sh all one : bool) (s : state) : state :=
  mkState (tracks s) (search s) (order s) (pos s) sh all one (rng s).
Definition set_rng (v : list nat) (s : state) : state :=
  mkState (tracks s) (search s) (order s) (pos s) (shuffle s)
          (repeat_all s) (repeat_one s) v.

Definition initial (g : list nat) : state :=
  mkState [] "" [] (-1) false true false g.

Definition random_shuffle (base : list Z) : M state (list Z) :=
  fun s => let '(b, g) := Py.shuffle base (rng s) in Ok (b, set_rng g s).

Definition refresh : M state unit :=
  text <- get search ;;
  ts <- get tracks ;;
  let q := Py.lower text in
  let found :=
    foldl (fun acc it =>
             if Py.substring_of q (Sequencer.hay it.2)
             then acc ++ [it.1] else acc)
          [] (Py.enumerate ts) in
  sh <- get shuffle ;;
  found <- (if sh then random_shuffle found else ret found) ;;
  modify (set_order found).

Definition _play : M state signal :=
  o <- get order ;;
  i <- get pos ;;
  idx <- lift (Py.getitem o i) ;;
  ts <- get tracks ;;
  t <- lift (Py.getitem ts idx) ;;
  ret (Playing idx (path t)).

Definition play_selected (row : Z) : M state signal :=
  if row >=? 0 then modify (set_pos row) ;;; _play else ret Idle.

Definition toggle (is_playing : bool) : M state signal :=
  if is_playing then ret Paused
  else
    i <- get pos ;;
    o <- get order ;;
    if (i <? 0) && (match o with [] => false | _ => true end)
    then modify (set_pos 0) ;;; _play
    else ret Resumed.

Definition next : M state signal :=
  o <- get order ;;
  match o with
  | [] => ret Idle
  | _ :: _ =>
      one <- get repeat_one ;;
      if one then _play
      else
        i <- get pos ;;
        modify (set_pos (i + 1)) ;;;
        i <- get pos ;;
        if i >=? Py.len o
        then
          all <- get repeat_all ;;
          if negb all then ret Idle
          else modify (set_pos 0) ;;; _play
        else _play
  end.

Definition prev : M state signal :=
  o <- get order ;;
  match o with
  | [] => ret Idle
  | _ :: _ =>
      i <- get pos ;;
      modify (set_pos (Z.max 0 (i - 1))) ;;;
      _play
  end.

Definition _opts (sh all one : bool) : M state unit :=
  modify (set_flags sh all one) ;;; refresh.

(** The module function [fmt]. *)
Definition fmt (ms : Z) : string :=
  if ms <? 0 then "00:00"
  else
    let s := ms / 1000 in
    Py.format_02d (s / 60) +:+ ":" +:+ Py.format_02d (s mod 60).

Section Registry.
Context `{Host}.

(** [_add]: the record is appended unless the [try] block raised. *)
Definition _add (p : PurePath) : M state unit :=
  match probe p with
  | Some (ti, ar, al, d) =>
      ts <- get tracks ;;
      modify (set_tracks (ts ++ [mkTrack (str p) ti ar al d]))
  | None => ret tt
  end.

Fixpoint add_each (paths : list string) : M state unit :=
  match paths with
  | [] => ret tt
  | p :: rest => _add (Path p) ;;; add_each rest
  end.

Definition add_files (paths : list string) : M state unit :=
  add_each paths ;;; refresh.

End Registry.

End Slick.

(** ** Vocabulary of the properties *)

(** The registry index under the cursor, [-1] when the cursor is not an
    offset into the play order. *)
Definition current_of (order : list Z) (pos : Z) : Z :=
  if (pos <? 0) || (pos >=? Py.len order) then -1
  else default (-1) (order !! Z.to_nat pos).

(** The cursor is [-1] or an offset into the play order, and [-1] when
    the play order is empty. *)
Definition cursor_ok (order : list Z) (pos : Z) : Prop :=
  -1 <= pos < Py.len order /\ (order = [] -> pos = -1).

(** Every entry of the play order is an index into the registry. *)
Definition registered (ts : list Track) (order : list Z) : Prop :=
  Forall (fun i => 0 <= i < Py.len ts) order.

(** The invariant of a session: the cursor is in range, and the filter
    view and the play order hold registry indices only. *)
Definition session_ok (st : state) : Prop :=
  cursor_ok (play_order st) (play_pos st)
  /\ registered (tracks st) (visible_indices st)
  /\ registered (tracks st) (play_order st).

(** Every entry of the slick order is an index into the registry. *)
Definition slick_registered (s : Slick.state) : Prop :=
  registered (Slick.tracks s) (Slick.order s).

(** Every character of the string is white space. *)
Fixpoint all_space (s : string) : bool :=
  match s with
  | EmptyString => true
  | String c s' => Py.isspace c && all_space s'
  end.

(** ** What the handlers compute

    Closed forms of the state and of the signal a handler leaves, used
    where the theorems have to name them. *)

(** [l.index(x)] where the caller has checked [x in l]; [d] stands in
    for the ValueError that cannot occur there. *)
Definition index_or (x : Z) (l : list Z) (d : Z) : Z :=
  match Py.index x l with
  | Ok i => i
  | Raise _ => d
  end.

(** The play order and generator a rebuild produces. *)
Definition reorder (st : state) : list Z * list nat :=
  if shuffle st then Py.shuffle (visible_indices st) (rng st)
  else (visible_indices st, rng st).

(** The cursor a rebuild chooses over the new order [base] when [cur]
    was current before. *)
Definition rebuilt_pos (keep_current : bool) (cur : Z) (base : list Z) : Z :=
  match base with
  | [] => -1
  | _ :: _ =>
      if keep_current && Py.contains cur base then index_or cur base 0 else 0
  end.

(** The state [_rebuild_play_order] leaves. *)
Definition rebuilt (keep_current : bool) (st : state) : state :=
  let base := (reorder st).1 in
  set_play_pos
    (rebuilt_pos keep_current (current_of (play_order st) (play_pos st)) base)
    (set_play_order base (set_rng (reorder st).2 st)).

(** What [_load_current_and_play] asks of the engine in a state whose
    play order is [registered]. *)
Definition now_playing (st : state) : signal :=
  let idx := current_of (play_order st) (play_pos st) in
  if idx =? -1 then Idle
  else match tracks st !! Z.to_nat idx with
       | Some t => Playing idx (path t)
       | None => Idle
       end.

(** Where a backward step puts the cursor: one below, and from below
    offset 0 to the last offset under repeat-all, to offset 0
    otherwise. *)
Definition back_target (order : list Z) (pos : Z) (all : bool) : Z :=
  if pos - 1 <? 0 then (if all then Py.len order - 1 else 0) else pos - 1.

(** What the slick [_play] asks of the engine when it returns. *)
Definition slick_now_playing (s : Slick.state) : signal :=
  match Slick.order s !! Z.to_nat (Slick.pos s) with
  | Some idx =>
      match Slick.tracks s !! Z.to_nat idx with
      | Some t => Playing idx (path t)
      | None => Idle
      end
  | None => Idle
  end.

(** ** Handlers that return *)

(** [returns m Q s]: run from [s], the handler [m] returns without
    raising, with a value and a final state that satisfy [Q]. *)
Definition returns {S A} (m : M S A) (Q : A -> S -> Prop) (s : S) : Prop :=
  exists a s', m s = Ok (a, s') /\ Q a s'.

(** *** Sessions of the full variant as sequences of user actions *)

Section Actions.
Context `{Host}.

(** What can happen to the sequencer of the full variant: a rebuild,
    the Next and Previous buttons, a double click on registry index
    [idx], Play/Pause with the engine's answer to [is_playing()], the
    end-of-track callback, the three check boxes, typing in the search
    box, and an import. *)
Inductive action : Type :=
| Rebuild (keep_current : bool)
| Next
| Previous
| JumpTo (idx : Z)
| PlayPause (is_playing : bool)
| TrackEnd
| SetShuffle (checked : bool)
| SetRepeatAll (checked : bool)
| SetRepeatOne (checked : bool)
| Search (text : string)
| Import (paths : list PurePath).

Definition perform (a : action) : M state unit :=
  match a with
  | Rebuild keep_current => Sequencer._rebuild_play_order keep_current
  | Next => Full.play_next ;;; ret tt
  | Previous => Full.play_prev ;;; ret tt
  | JumpTo idx => Full._play_by_track_index idx ;;; ret tt
  | PlayPause is_playing => Full.toggle_play_pause is_playing ;;; ret tt
  | TrackEnd => Full._handle_track_end ;;; ret tt
  | SetShuffle checked => Full._on_shuffle_changed checked
  | SetRepeatAll checked => Full._on_repeat_all_changed checked
  | SetRepeatOne checked => Full._on_repeat_one_changed checked
  | Search text => Full.search_text_changed text
  | Import paths => Full._add_paths paths
  end.

Fixpoint perform_all (l : list action) : M state unit :=
  match l with
  | [] => ret tt
  | a :: l' => perform a ;;; perform_all l'
  end.

(** No two entries of the registry have paths that compare equal. *)
Fixpoint distinct_paths (ts : list Track) : Prop :=
  match ts with
  | [] => True
  | t :: ts' =>
      Forall (fun u => path_eqb (Path (path t)) (Path (path u)) = false) ts'
      /\ distinct_paths ts'
  end.

(** The path of the track is not empty and names an existing file. *)
Definition still_there (t : Track) : Prop :=
  path t <> EmptyString /\ on_disk (Path (path t)) = true.

(** One import after the other, each with its own list of paths. *)
Fixpoint import_all (batches : list (list PurePath)) : M state unit :=
  match batches with
  | [] => ret tt
  | paths :: rest => Full._add_paths paths ;;; import_all rest
  end.
End Actions.

(** ** Sample sessions *)

Definition track_a : Track := mkTrack "/m/a.mp3" "Alpha" "Ann" "Blue" 1000.
Definition track_b : Track := mkTrack "/m/b.mp3" "Beta" "" "Cool Jazz" 2000.
Definition track_c : Track := mkTrack "/m/c.mp3" "Gamma" "Cy" "" (-1).

(** Three tracks in registry order, shuffle off, the second current. *)
Definition plain_session : state :=
  mkState [track_a; track_b; track_c] "" [0; 1; 2] [0; 1; 2] 1 []
          false true false [].

(** The first of three tracks current, repeat-all on, empty history. *)
Definition first_track_session : state :=
  mkState [track_a; track_b; track_c] "" [0; 1; 2] [0; 1; 2] 0 []
          false true false [].

(** The first of three tracks current, both repeat modes off. *)
Definition first_track_no_repeat : state :=
  mkState [track_a; track_b; track_c] "" [0; 1; 2] [0; 1; 2] 0 []
          false false false [].

(** Three tracks, no filter, shuffle switched on, the first track
    current, four raw draws left in the generator. *)
Definition shuffled_session : state :=
  mkState [track_a; track_b; track_c] "" [0; 1; 2] [0; 1; 2] 0 []
          true true false [2%nat; 0%nat; 0%nat; 1%nat].

(** The second track current, repeat-one switched on, empty history. *)
Definition repeat_one_session : state :=
  mkState [track_a; track_b; track_c] "" [0; 1; 2] [0; 1; 2] 1 []
          false true true [].

(** A session whose search box holds blanks, a tab and a line feed. *)
Definition blank_search_session : state :=
  mkState [track_a; track_b; track_c]
          (String " " (String "009" (String "010" " ")))
          [1] [1] 0 [] false true false [].

(** Three tracks in registry order, the first one current, repeat-all
    on as the constructor leaves it. *)
Definition slick_first_track : Slick.state :=
  Slick.mkState [track_a; track_b; track_c] "" [0; 1; 2] 0
                false true false [].

(** Three tracks in registry order, the last one current, repeat-all
    and repeat-one off. *)
Definition slick_last_track : Slick.state :=
  Slick.mkState [track_a; track_b; track_c] "" [0; 1; 2] 2
                false false false [].

(** Three tracks in registry order, the cursor two beyond the last
    offset, where two presses of Next at the end leave it. *)
Definition slick_overrun : Slick.state :=
  Slick.mkState [track_a; track_b; track_c] "" [0; 1; 2] 4
                false false false [].

(** The last track current while the search box holds "jazz" and the
    order has not been refreshed yet. *)
Definition slick_searching : Slick.state :=
  Slick.mkState [track_a; track_b; track_c] "jazz" [0; 1; 2] 2
                false true false [].

(** ** Closed forms of the forward step *)

(** The history push of [play_next]: the current index goes on top
    unless there is none. *)
Definition pushed (st : state) : state :=
  let cur := current_of (play_order st) (play_pos st) in
  if cur =? -1 then st else set_history (history st ++ [cur]) st.

(** What [play_next] does after the push and the repeat-one test. *)
Definition advanced (st : state) : signal * state :=
  let nxt := play_pos st + 1 in
  if nxt >=? Py.len (play_order st)
  then if repeat_all st
       then (now_playing (set_play_pos 0 st), set_play_pos 0 st)
       else (Stopped, st)
  else (now_playing (set_play_pos nxt st), set_play_pos nxt st).

(** ** More sample sessions *)

(** The last of three tracks current, repeat-all on. *)
Definition wrap_session : state :=
  mkState [track_a; track_b; track_c] "" [0; 1; 2] [0; 1; 2] 2 []
          false true false [].

(** The last of three tracks current, both repeat modes off. *)
Definition end_session : state :=
  mkState [track_a; track_b; track_c] "" [0; 1; 2] [0; 1; 2] 2 []
          false false false [].

(** ** Closed form of the cursor move behind a double click *)

(** Where [_play_by_track_index] and the double-click handler of the
    autoplay variant leave the session before they load: the cursor on
    [idx] when the play order holds it, and otherwise the session
    rebuilt without keeping the current track, with the cursor on [idx]
    when the new play order holds it. *)
Definition located (idx : Z) (st : state) : state :=
  if Py.contains idx (play_order st)
  then set_play_pos (index_or idx (play_order st) 0) st
  else
    let st' := rebuilt false st in
    if Py.contains idx (play_order st')
    then set_play_pos (index_or idx (play_order st') 0) st'
    else st'.

(** Track 2 current after tracks 0 and 1, which are on the history;
    the search box holds "jazz" and the filter has not run yet. *)
Definition history_session : state :=
  mkState [track_a; track_b; track_c] "jazz" [0; 1; 2] [0; 1; 2] 2 [0; 1]
          false true false [].

(** The search for "jazz" has run: only track 1 is visible and it is
    current, while track 0 is still on the history. *)
Definition filtered_session : state :=
  mkState [track_a; track_b; track_c] "jazz" [1] [1] 0 [0]
          false true false [].

(** No track is current yet: three tracks in the play order, the
    cursor at [-1]. *)
Definition fresh_session : state :=
  mkState [track_a; track_b; track_c] "" [0; 1; 2] [0; 1; 2] (-1) []
          false true false [].

(** ** Vocabulary of the registry properties *)

Section RegistryVocabulary.
Context `{Host}.

(** The test an entry of a playlist document has to pass on load:
    [p] is not empty and [Path(p).exists()]. *)
Definition loadable (t : Track) : bool :=
  Py.truthy (path t) && on_disk (Path (path t)).
End RegistryVocabulary.

(** *** Documents the record [Track] can hold

    [Track] of this model keeps title, artist and album as strings, and
    a document keeps numbers as integers.  The documents whose entries
    the model can load are those in which every title, artist and album
    member is a string. *)




(** A host like [plain_host] on which the file [/m/b.mp3] has been
    deleted. *)
Definition picky_host : Host := {|
  PurePath := string;
  Path := fun s => s;
  str := fun p => p;
  path_eqb := String.eqb;
  on_disk := fun p => negb (String.eqb p "/m/b.mp3");
  stem := fun p => p;
  tags := fun _ => (""%string, ""%string, ""%string, -1);
  probe := fun p => Some (p, ""%string, ""%string, -1);
  int_of_str := fun _ => Raise ValueError;
  path_eqb_refl := String.eqb_refl;
  path_eqb_sym := String.eqb_sym;
  path_eqb_trans := fun p q r Hpq Hqr =>
    eq_ind_r (fun x => String.eqb x r = true) Hqr
             (proj1 (String.eqb_eq p q) Hpq);
  Path_str := String.eqb_refl;
|}.



(** ** Vocabulary of the end-of-track timer *)

(** The test [_maybe_autoplay_next] makes on a tick that reports
    position [pos] of a medium of length [length]: nobody drags the
    slider, both numbers are positive, there is a current track, at
    most 700 ms are left, and the end of that track has not been
    handled yet. *)
Definition due (pos length : Z) (w : Auto.timer) : bool :=
  let cur := current_of (play_order (Auto.session w))
                        (play_pos (Auto.session w)) in
  negb (Auto._user_seeking w)
  && negb ((length <=? 0) || (pos <=? 0))
  && negb (cur =? -1)
  && negb (length - pos >? 700)
  && negb (Auto._ended_fired_for_track_idx w =? cur).

(** The second of three tracks plays with repeat-one on; no end of
    track has been handled. *)
Definition looping_timer : Auto.timer :=
  Auto.mkTimer repeat_one_session false (-1).

(** The last of three tracks plays with both repeat modes off. *)
Definition ending_timer : Auto.timer :=
  Auto.mkTimer end_session false (-1).

(** ** More sample sessions of the slick variant *)

(** Three tracks listed, nothing played yet, repeat-one ticked. *)
Definition slick_unstarted_repeat_one : Slick.state :=
  Slick.mkState [track_a; track_b; track_c] "" [0; 1; 2] (-1)
                false true true [].

(** Three tracks listed, nothing played yet. *)
Definition slick_unstarted : Slick.state :=
  Slick.mkState [track_a; track_b; track_c] "" [0; 1; 2] (-1)
                false true false [].

(** The last of three tracks current, repeat-all on. *)
Definition slick_wrapping : Slick.state :=
  Slick.mkState [track_a; track_b; track_c] "" [0; 1; 2] 2
                false true false [].

(** ** Sessions of the autoplay variant as sequences of events *)

Section AutoEvents.
Context `{Host}.

(** A handler of the session that ends in [_load_current_and_play],
    run inside the timer state: that call clears
    [_ended_fired_for_track_idx] exactly when it goes on to load a
    track. *)
Definition loading (m : M state signal) : M Auto.timer signal :=
  sig <- Auto.on_session m ;;
  match sig with
  | Playing _ _ => modify (Auto.set_ended_fired (-1)) ;;; ret sig
  | _ => ret sig
  end.

(** What can happen to the autoplay variant: the Next and Previous
    buttons, a double click on a row of the list, files dropped on
    the window, a tick of the polling timer that reports a position
    and a length, and the callback a tick has scheduled. *)
Inductive auto_event : Type :=
| PressNext
| PressPrevious
| DoubleClick (row : Z)
| Drop (paths : list PurePath)
| Tick (pos length : Z)
| Callback.

Definition auto_handle (e : auto_event) : M Auto.timer unit :=
  match e with
  | PressNext => Auto.play_next_timed ;;; ret tt
  | PressPrevious => loading Auto.play_prev ;;; ret tt
  | DoubleClick row => loading (Auto._on_item_double_clicked row) ;;; ret tt
  | Drop paths => loading (Auto._add_paths paths) ;;; ret tt
  | Tick pos length => Auto._maybe_autoplay_next pos length ;;; ret tt
  | Callback => Auto._go ;;; ret tt
  end.

Fixpoint auto_handle_all (l : list auto_event) : M Auto.timer unit :=
  match l with
  | [] => ret tt
  | e :: l' => auto_handle e ;;; auto_handle_all l'
  end.
End AutoEvents.

(** The autoplay variant as its constructor leaves it. *)
Definition fresh_timer : Auto.timer := Auto.mkTimer (initial []) false (-1).
Section PyFacts.
Lemma len_nonneg {A} (l : list A) : 0 <= Py.len l.
Proof. unfold Py.len. lia. Qed.

Lemma getitem_in_range {A} (l : list A) (i : Z) :
  0 <= i < Py.len l ->
  exists a, l !! Z.to_nat i = Some a /\ Py.getitem l i = Ok a.
Proof.
  intros Hi. unfold Py.getitem.
  destruct (Z.ltb_spec i 0) as [?|_]; [lia|].
  destruct (Z.ltb_spec i 0) as [?|_]; [lia|].
  destruct (lookup_lt_is_Some_2 l (Z.to_nat i)) as [a Ha].
  { unfold Py.len in Hi. lia. }
  exists a. by rewrite Ha.
Qed.

Lemma contains_elem (x : Z) (l : list Z) :
  Py.contains x l = true <-> x ∈ l.
Proof.
  unfold Py.contains. rewrite existsb_exists. split.
  - intros (y & Hy & ->%Z.eqb_eq). by apply list_elem_of_In.
  - intros Hx. exists x. split; [by apply list_elem_of_In | apply Z.eqb_refl].
Qed.

Lemma index_found (x : Z) (l : list Z) :
  x ∈ l ->
  exists i, Py.index x l = Ok i /\ 0 <= i < Py.len l
            /\ l !! Z.to_nat i = Some x.
Proof.
  induction l as [|y l IH]; intros Hx; [by apply elem_of_nil in Hx|].
  cbn [Py.index]. destruct (Z.eqb_spec y x) as [->|Hne].
  - exists 0. unfold Py.len. cbn. split_and!; [done|lia|lia|done].
  - apply elem_of_cons in Hx as [->|Hx]; [done|].
    destruct (IH Hx) as (i & -> & Hi & Hl).
    exists (i + 1). unfold Py.len in *. cbn [length].
    split_and!; [done|lia|lia|].
    replace (Z.to_nat (i + 1)) with (S (Z.to_nat i)) by lia. done.
Qed.

Lemma swap_perm {A} (i j : nat) (x : list A) : Py.swap i j x ≡ₚ x.
Proof.
  unfold Py.swap. destruct (x !! i) as [a|] eqn:Hi; [|done].
  destruct (x !! j) as [b|] eqn:Hj; [|done].
  by apply Permutation_insert_swap.
Qed.

Lemma shuffle_from_perm {A} (i : nat) (x : list A) (g : list nat) :
  (Py.shuffle_from i x g).1 ≡ₚ x.
Proof.
  revert x g. induction i as [|i IH]; intros x g; [done|].
  cbn [Py.shuffle_from]. destruct (Py.randbelow (S (S i)) g) as [j g'].
  rewrite IH. apply swap_perm.
Qed.

Lemma shuffle_perm {A} (x : list A) (g : list nat) :
  (Py.shuffle x g).1 ≡ₚ x.
Proof. apply shuffle_from_perm. Qed.
End PyFacts.

(** ** Running the shared sequencer *)

Section SequencerFacts.
Import Sequencer.

Lemma bind_ok {S A B} (m : M S A) (k : A -> M S B) s a s' :
  m s = Ok (a, s') -> bind m k s = k a s'.
Proof. intros Hm. unfold bind. by rewrite Hm. Qed.

Lemma current_track_index_run (st : state) :
  _current_track_index st
  = Ok (current_of (play_order st) (play_pos st), st).
Proof.
  unfold _current_track_index, current_of, bind, get, ret, lift.
  destruct ((play_pos st <? 0) || (play_pos st >=? Py.len (play_order st)))
    eqn:Hout; [done|].
  apply orb_false_iff in Hout as [Hlo Hhi].
  destruct (getitem_in_range (play_order st) (play_pos st)) as (a & Ha & ->);
    [lia|]. by rewrite Ha.
Qed.

Lemma current_of_in_range (order : list Z) (pos : Z) :
  0 <= pos < Py.len order ->
  order !! Z.to_nat pos = Some (current_of order pos).
Proof.
  intros Hp. unfold current_of.
  destruct (Z.ltb_spec pos 0); [lia|].
  destruct (Z.geb_spec pos (Py.len order)); [lia|]. cbn.
  destruct (lookup_lt_is_Some_2 order (Z.to_nat pos)) as [a Ha].
  { unfold Py.len in Hp. lia. }
  by rewrite Ha.
Qed.

Lemma current_of_out_of_range (order : list Z) (pos : Z) :
  pos < 0 \/ Py.len order <= pos -> current_of order pos = -1.
Proof.
  intros Hp. unfold current_of.
  destruct (Z.ltb_spec pos 0); [done|].
  destruct (Z.geb_spec pos (Py.len order)); [done|lia].
Qed.
End SequencerFacts.

Section RebuildFacts.
Import Sequencer.

Lemma index_or_found (x : Z) (l : list Z) (d : Z) :
  x ∈ l ->
  Py.index x l = Ok (index_or x l d)
  /\ 0 <= index_or x l d < Py.len l
  /\ l !! Z.to_nat (index_or x l d) = Some x.
Proof.
  intros Hx. destruct (index_found x l Hx) as (i & Hi & Hr & Hl).
  unfold index_or. rewrite Hi. done.
Qed.

Lemma rebuild_play_order_run (keep_current : bool) (st : state) :
  _rebuild_play_order keep_current st = Ok (tt, rebuilt keep_current st).
Proof.
  unfold _rebuild_play_order.
  rewrite (bind_ok _ _ _ _ _ (current_track_index_run st)).
  unfold rebuilt, reorder, rebuilt_pos, bind, get, modify, ret, random_shuffle.
  set (cur := current_of (play_order st) (play_pos st)).
  destruct (shuffle st).
  - destruct (Py.shuffle (visible_indices st) (rng st)) as [base g] eqn:Hs.
    cbn -[Py.contains Py.index index_or]. destruct base as [|b base]; [done|].
    destruct (keep_current && Py.contains cur (b :: base)) eqn:Hk; [|done].
    apply andb_true_iff in Hk as [_ Hc]. apply contains_elem in Hc.
    destruct (index_or_found cur (b :: base) 0 Hc) as (Hi & _).
    unfold lift. rewrite Hi. done.
  - cbn -[Py.contains Py.index index_or].
    destruct (visible_indices st) as [|b base] eqn:Hv; [done|].
    destruct (keep_current && Py.contains cur (b :: base)) eqn:Hk; [|done].
    apply andb_true_iff in Hk as [_ Hc]. apply contains_elem in Hc.
    destruct (index_or_found cur (b :: base) 0 Hc) as (Hi & _).
    unfold lift. rewrite Hi. done.
Qed.

Lemma reorder_perm (st : state) : (reorder st).1 ≡ₚ visible_indices st.
Proof.
  unfold reorder. destruct (shuffle st); [apply shuffle_perm | done].
Qed.

Lemma rebuilt_pos_ok (keep_current : bool) (cur : Z) (base : list Z) :
  cursor_ok base (rebuilt_pos keep_current cur base).
Proof.
  unfold cursor_ok, rebuilt_pos. destruct base as [|b base].
  - unfold Py.len. cbn. lia.
  - split; [|done].
    destruct (keep_current && Py.contains cur (b :: base)) eqn:Hk.
    + apply andb_true_iff in Hk as [_ Hc]. apply contains_elem in Hc.
      destruct (index_or_found cur (b :: base) 0 Hc) as (_ & Hr & _). lia.
    + unfold Py.len. cbn [length]. lia.
Qed.

Lemma rebuilt_pos_in_range (keep_current : bool) (cur : Z) (base : list Z) :
  base <> [] -> 0 <= rebuilt_pos keep_current cur base < Py.len base.
Proof.
  intros Hne. unfold rebuilt_pos. destruct base as [|b base]; [done|].
  destruct (keep_current && Py.contains cur (b :: base)) eqn:Hk.
  - apply andb_true_iff in Hk as [_ Hc]. apply contains_elem in Hc.
    by destruct (index_or_found cur (b :: base) 0 Hc) as (_ & Hr & _).
  - unfold Py.len. cbn [length]. lia.
Qed.
End RebuildFacts.

(** ** Current-track lookup, play-order contents, repeated rebuilds *)

Section SequencerClaims.
Import Sequencer.

(** C9.  In every state the current-track query returns without
    raising: [-1] when the cursor is below zero or not below the
    length of the play order, and the play-order entry under the
    cursor otherwise; when the cursor is outside that range,
    [_load_current_and_play] leaves the state as it is and asks
    nothing of the engine. *)
Theorem current_track_lookup_total (st : state) :
  exists v,
    _current_track_index st = Ok (v, st)
    /\ if (play_pos st <? 0) || (play_pos st >=? Py.len (play_order st))
       then v = -1 /\ _load_current_and_play st = Ok (Idle, st)
       else play_order st !! Z.to_nat (play_pos st) = Some v.
Proof.
  exists (current_of (play_order st) (play_pos st)).
  split; [apply current_track_index_run|].
  destruct ((play_pos st <? 0) || (play_pos st >=? Py.len (play_order st)))
    eqn:Hout.
  - assert (Hc : current_of (play_order st) (play_pos st) = -1).
    { unfold current_of. by rewrite Hout. }
    split; [done|]. unfold _load_current_and_play.
    rewrite (bind_ok _ _ _ _ _ (current_track_index_run st)), Hc. done.
  - apply orb_false_iff in Hout as [Hlo Hhi].
    apply current_of_in_range. lia.
Qed.

(** C2.  A rebuild, with the current track kept or not and with
    shuffle on or off, returns and leaves a play order that is a
    permutation of the filter view: the same indices with the same
    multiplicities, possibly in another order. *)
Theorem rebuild_play_order_is_filter_view (keep_current : bool) (st : state) :
  exists st',
    _rebuild_play_order keep_current st = Ok (tt, st')
    /\ play_order st' ≡ₚ visible_indices st
    /\ visible_indices st' = visible_indices st.
Proof.
  exists (rebuilt keep_current st).
  split; [apply rebuild_play_order_run|].
  split; [apply reorder_perm | done].
Qed.

Lemma rebuilt_current (keep_current : bool) (st : state) :
  let st' := rebuilt keep_current st in
  play_order st' <> [] ->
  0 <= play_pos st' < Py.len (play_order st')
  /\ current_of (play_order st') (play_pos st') ∈ play_order st'.
Proof.
  intros st' Hne.
  assert (Hpos : 0 <= play_pos st' < Py.len (play_order st')).
  { apply (rebuilt_pos_in_range keep_current
             (current_of (play_order st) (play_pos st)) (reorder st).1 Hne). }
  split; [done|].
  apply current_of_in_range in Hpos.
  by apply list_elem_of_lookup_2 in Hpos.
Qed.
End SequencerClaims.

Section RebuildTwice.
Import Sequencer.

Lemma current_of_lookup (order : list Z) (pos v : Z) :
  0 <= pos < Py.len order -> order !! Z.to_nat pos = Some v ->
  current_of order pos = v.
Proof.
  intros Hp Hv. apply current_of_in_range in Hp. congruence.
Qed.

Lemma rebuilt_pos_current (cur : Z) (base : list Z) :
  cur ∈ base ->
  current_of base (rebuilt_pos true cur base) = cur.
Proof.
  intros Hc. unfold rebuilt_pos. destruct base as [|b base].
  { by apply elem_of_nil in Hc. }
  cbn [andb]. rewrite (proj2 (contains_elem _ _) Hc).
  destruct (index_or_found cur (b :: base) 0 Hc) as (_ & Hr & Hl).
  by apply current_of_lookup.
Qed.

Lemma rebuilt_pos_stable (cur : Z) (base : list Z) :
  let p := rebuilt_pos true cur base in
  rebuilt_pos true (current_of base p) base = p.
Proof.
  intros p. subst p. destruct base as [|b base]; [done|].
  destruct (Py.contains cur (b :: base)) eqn:Hc.
  - apply contains_elem in Hc.
    by rewrite (rebuilt_pos_current cur (b :: base) Hc).
  - assert (Hp : rebuilt_pos true cur (b :: base) = 0).
    { unfold rebuilt_pos. cbn [andb]. by rewrite Hc. }
    rewrite Hp.
    assert (Hb : current_of (b :: base) 0 = b).
    { apply current_of_lookup; [unfold Py.len; cbn [length]; lia | done]. }
    rewrite Hb. unfold rebuilt_pos. cbn [andb].
    assert (Hin : Py.contains b (b :: base) = true).
    { apply contains_elem. by left. }
    rewrite Hin. unfold index_or. cbn [Py.index]. by rewrite Z.eqb_refl.
Qed.

(** C8, counterexample.  With shuffle on, two rebuilds in a row that
    both keep the current track leave the cursor at offset 1 after the
    first and at offset 2 after the second. *)
Lemma rebuild_twice_moves_cursor :
  exists st1 st2,
    _rebuild_play_order true shuffled_session = Ok (tt, st1)
    /\ _rebuild_play_order true st1 = Ok (tt, st2)
    /\ play_pos st1 = 1 /\ play_pos st2 = 2
    /\ play_order st1 = [1; 0; 2] /\ play_order st2 = [2; 1; 0].
Proof.
  eexists _, _. split; [vm_compute; reflexivity|].
  split; [vm_compute; reflexivity|]. done.
Qed.

(** C8, amended.  Two rebuilds in a row that keep the current track
    both return, and the track that is current after the second is
    the track that was current after the first; with shuffle off the
    cursor position is the same as well. *)
Theorem rebuild_twice_keeps_current (st : state) :
  exists st1 st2,
    _rebuild_play_order true st = Ok (tt, st1)
    /\ _rebuild_play_order true st1 = Ok (tt, st2)
    /\ current_of (play_order st2) (play_pos st2)
       = current_of (play_order st1) (play_pos st1)
    /\ (shuffle st = false -> play_pos st2 = play_pos st1).
Proof.
  exists (rebuilt true st), (rebuilt true (rebuilt true st)).
  split; [apply rebuild_play_order_run|].
  split; [apply rebuild_play_order_run|].
  set (st1 := rebuilt true st).
  assert (Hperm : (reorder st1).1 ≡ₚ play_order st1).
  { rewrite reorder_perm. change (visible_indices st1) with (visible_indices st).
    symmetry. apply reorder_perm. }
  split.
  - change (play_order (rebuilt true st1)) with (reorder st1).1.
    change (play_pos (rebuilt true st1)) with
      (rebuilt_pos true (current_of (play_order st1) (play_pos st1))
                   (reorder st1).1).
    destruct (decide (play_order st1 = [])) as [Ho|Ho].
    + rewrite Ho in Hperm. apply Permutation_nil_r in Hperm. rewrite Hperm.
      change (play_pos st1) with
        (rebuilt_pos true (current_of (play_order st) (play_pos st))
                     (reorder st).1).
      change (play_order st1) with (reorder st).1 in Ho. rewrite Ho. done.
    + apply rebuilt_pos_current. rewrite Hperm.
      apply (rebuilt_current true st Ho).
  - intros Hsh.
    change (play_pos (rebuilt true st1)) with
      (rebuilt_pos true (current_of (play_order st1) (play_pos st1))
                   (reorder st1).1).
    assert (H1 : (reorder st).1 = visible_indices st).
    { unfold reorder. by rewrite Hsh. }
    assert (H2 : (reorder st1).1 = visible_indices st).
    { unfold reorder. change (shuffle st1) with (shuffle st). by rewrite Hsh. }
    change (play_order st1) with (reorder st).1.
    change (play_pos st1) with
      (rebuilt_pos true (current_of (play_order st) (play_pos st))
                   (reorder st).1).
    rewrite H1, H2. apply rebuilt_pos_stable.
Qed.

Lemma rebuild_twice_keeps_current_witness :
  exists st1 st2,
    _rebuild_play_order true plain_session = Ok (tt, st1)
    /\ _rebuild_play_order true st1 = Ok (tt, st2)
    /\ play_pos st2 = play_pos st1.
Proof.
  destruct (rebuild_twice_keeps_current plain_session)
    as (st1 & st2 & H1 & H2 & _ & Hpos).
  exists st1, st2. split; [exact H1|]. split; [exact H2|].
  apply Hpos. reflexivity.
Defined.
End RebuildTwice.

(** ** The filter *)

Section FilterFacts.
Import Sequencer.

Lemma lstrip_all_space (s : string) :
  all_space s = true -> Py.lstrip s = EmptyString.
Proof.
  induction s as [|c s IH]; [done|]. cbn [all_space Py.lstrip].
  intros [Hc Hs]%andb_true_iff. rewrite Hc. by apply IH.
Qed.

Lemma query_of_all_space (text : string) :
  all_space text = true -> query_of text = EmptyString.
Proof.
  intros Hs. unfold query_of.
  assert (Ht : (if Py.truthy text then text else EmptyString) = text).
  { by destruct text. }
  rewrite Ht. unfold Py.strip. by rewrite (lstrip_all_space text Hs).
Qed.

Lemma collect_loop_all (q : string) (ts : list Track) (i : Z) (acc : list Z) :
  (forall t, matches q t = true) ->
  foldl (fun acc it => if matches q it.2 then acc ++ [it.1] else acc)
        acc (Py.enumerate_from i ts)
  = acc ++ seqZ i (Py.len ts).
Proof.
  intros Hall. revert i acc.
  induction ts as [|t ts IH]; intros i acc.
  - cbn. by rewrite app_nil_r.
  - cbn [Py.enumerate_from foldl]. rewrite Hall. cbn [fst].
    rewrite IH, <- app_assoc. f_equal.
    unfold Py.len. cbn [length app].
    rewrite (seqZ_cons i (Z.of_nat (S (length ts)))) by lia.
    do 2 f_equal; lia.
Qed.

Lemma collect_visible_empty_query (ts : list Track) :
  collect_visible EmptyString ts = seqZ 0 (Py.len ts).
Proof.
  unfold collect_visible, Py.enumerate.
  by rewrite collect_loop_all.
Qed.

Lemma apply_filter_run (st : state) :
  _apply_filter st
  = Ok (tt, rebuilt true
              (set_visible_indices
                 (collect_visible (query_of (search st)) (tracks st)) st)).
Proof.
  unfold _apply_filter, bind, get, modify.
  by rewrite rebuild_play_order_run.
Qed.

(** C10.  When the search text consists of white space only, the
    filter returns and leaves as filter view every registry index in
    registry order, the same view it leaves for the empty search
    text. *)
Theorem whitespace_query_shows_everything (st : state) :
  all_space (search st) = true ->
  exists st' st0,
    _apply_filter st = Ok (tt, st')
    /\ _apply_filter (set_search EmptyString st) = Ok (tt, st0)
    /\ visible_indices st' = seqZ 0 (Py.len (tracks st))
    /\ visible_indices st' = visible_indices st0.
Proof.
  intros Hs. eexists _, _.
  split; [apply apply_filter_run|]. split; [apply apply_filter_run|].
  cbn [visible_indices rebuilt set_play_pos set_play_order set_rng
       set_visible_indices set_search search tracks].
  rewrite (query_of_all_space _ Hs).
  split; [apply collect_visible_empty_query | done].
Qed.

Lemma whitespace_query_shows_everything_witness :
  all_space (search blank_search_session) = true
  /\ exists st' st0,
      _apply_filter blank_search_session = Ok (tt, st')
      /\ _apply_filter (set_search EmptyString blank_search_session)
         = Ok (tt, st0)
      /\ visible_indices st' = seqZ 0 (Py.len (tracks blank_search_session))
      /\ visible_indices st' = visible_indices st0.
Proof.
  split; [reflexivity|].
  apply (whitespace_query_shows_everything blank_search_session).
  reflexivity.
Defined.
End FilterFacts.

(** ** Forward and backward steps of the full and the autoplay variant *)

Section StepFacts.
Import Sequencer.

Lemma current_of_registered (ts : list Track) (order : list Z) (pos : Z) :
  registered ts order ->
  current_of order pos <> -1 ->
  0 <= current_of order pos < Py.len ts.
Proof.
  intros Hreg Hcur.
  destruct (decide (0 <= pos < Py.len order)) as [Hp|Hp].
  - apply current_of_in_range in Hp.
    apply list_elem_of_lookup_2 in Hp.
    unfold registered in Hreg. rewrite Forall_forall in Hreg. by apply Hreg.
  - rewrite current_of_out_of_range in Hcur by lia. done.
Qed.

Lemma load_current_and_play_run (st : state) :
  registered (tracks st) (play_order st) ->
  _load_current_and_play st = Ok (now_playing st, st).
Proof.
  intros Hreg. unfold _load_current_and_play, now_playing.
  rewrite (bind_ok _ _ _ _ _ (current_track_index_run st)).
  destruct (Z.eqb_spec (current_of (play_order st) (play_pos st)) (-1))
    as [_|Hcur]; [done|].
  pose proof (current_of_registered _ _ _ Hreg Hcur) as Hr.
  destruct (getitem_in_range (tracks st) _ Hr) as (t & Ht & Hg).
  unfold bind, get, lift, ret. by rewrite Hg, Ht.
Qed.

Lemma now_playing_in_range (st : state) :
  registered (tracks st) (play_order st) ->
  0 <= play_pos st < Py.len (play_order st) ->
  current_of (play_order st) (play_pos st) <> -1
  /\ exists loc,
      now_playing st
      = Playing (current_of (play_order st) (play_pos st)) loc.
Proof.
  intros Hreg Hp.
  assert (Hcur : 0 <= current_of (play_order st) (play_pos st)
                 < Py.len (tracks st)).
  { apply current_of_in_range in Hp. apply list_elem_of_lookup_2 in Hp.
    unfold registered in Hreg. rewrite Forall_forall in Hreg. by apply Hreg. }
  split; [lia|]. unfold now_playing.
  destruct (Z.eqb_spec (current_of (play_order st) (play_pos st)) (-1));
    [lia|].
  destruct (lookup_lt_is_Some_2 (tracks st)
              (Z.to_nat (current_of (play_order st) (play_pos st))))
    as [t Ht]; [unfold Py.len in Hcur; lia|].
  rewrite Ht. by eexists.
Qed.

Lemma auto_play_next_repeat_one (st : state) :
  repeat_one st = true ->
  play_order st <> [] ->
  registered (tracks st) (play_order st) ->
  Auto.play_next st = Ok (now_playing st, st).
Proof.
  intros Hone Hne Hreg. unfold Auto.play_next, bind, get.
  destruct (play_order st) as [|b o] eqn:Ho; [done|].
  rewrite Hone. rewrite <- Ho in Hreg. by apply load_current_and_play_run.
Qed.
End StepFacts.

(** ** A calculus for handlers that return *)

Section Returns.
Context {S : Type}.

Lemma returns_ret {A} (a : A) (Q : A -> S -> Prop) s :
  Q a s -> returns (ret a) Q s.
Proof. intros HQ. by exists a, s. Qed.

Lemma returns_get {A} (f : S -> A) (Q : A -> S -> Prop) s :
  Q (f s) s -> returns (get f) Q s.
Proof. intros HQ. by exists (f s), s. Qed.

Lemma returns_modify (f : S -> S) (Q : unit -> S -> Prop) s :
  Q tt (f s) -> returns (modify f) Q s.
Proof. intros HQ. by exists tt, (f s). Qed.

Lemma returns_lift {A} (r : result A) (a : A) (Q : A -> S -> Prop) s :
  r = Ok a -> Q a s -> returns (lift r) Q s.
Proof. intros -> HQ. by exists a, s. Qed.

Lemma returns_bind {A B} (m : M S A) (k : A -> M S B)
      (Q : B -> S -> Prop) s :
  returns m (fun a s' => returns (k a) Q s') s -> returns (bind m k) Q s.
Proof.
  intros (a & s' & Hm & b & s'' & Hk & HQ).
  exists b, s''. split; [|done]. by rewrite (bind_ok _ _ _ _ _ Hm).
Qed.

Lemma returns_mono {A} (m : M S A) (Q Q' : A -> S -> Prop) s :
  returns m Q s -> (forall a s', Q a s' -> Q' a s') -> returns m Q' s.
Proof. intros (a & s' & Hm & HQ) Himp. exists a, s'. eauto. Qed.

Lemma returns_run {A} (m : M S A) (Q : A -> S -> Prop) s a s' :
  m s = Ok (a, s') -> Q a s' -> returns m Q s.
Proof. intros Hm HQ. by exists a, s'. Qed.
End Returns.

Section SequencerReturns.
Import Sequencer.

Lemma returns_current (Q : Z -> state -> Prop) st :
  Q (current_of (play_order st) (play_pos st)) st ->
  returns _current_track_index Q st.
Proof. apply returns_run, current_track_index_run. Qed.

Lemma returns_rebuild keep_current (Q : unit -> state -> Prop) st :
  Q tt (rebuilt keep_current st) ->
  returns (_rebuild_play_order keep_current) Q st.
Proof. apply returns_run, rebuild_play_order_run. Qed.

Lemma returns_apply_filter (Q : unit -> state -> Prop) st :
  Q tt (rebuilt true
          (set_visible_indices
             (collect_visible (query_of (search st)) (tracks st)) st)) ->
  returns _apply_filter Q st.
Proof. apply returns_run, apply_filter_run. Qed.

Lemma returns_load (Q : signal -> state -> Prop) st :
  registered (tracks st) (play_order st) ->
  Q (now_playing st) st ->
  returns _load_current_and_play Q st.
Proof. intros Hreg. by apply returns_run, load_current_and_play_run. Qed.

Lemma returns_index (x : Z) (l : list Z) (Q : Z -> state -> Prop) st :
  x ∈ l -> Q (index_or x l 0) st -> returns (lift (Py.index x l)) Q st.
Proof.
  intros Hx. apply returns_lift.
  by destruct (index_or_found x l 0 Hx) as (Hi & _).
Qed.
End SequencerReturns.

Ltac step :=
  cbv beta iota;
  lazymatch goal with
  | |- returns (ret _) _ _ => apply returns_ret
  | |- returns (get _) _ _ => apply returns_get
  | |- returns (modify _) _ _ => apply returns_modify
  | |- returns (bind _ _) _ _ => apply returns_bind
  | |- returns Sequencer._current_track_index _ _ => apply returns_current
  | |- returns (Sequencer._rebuild_play_order _) _ _ => apply returns_rebuild
  | |- returns Sequencer._apply_filter _ _ => apply returns_apply_filter
  end.

Ltac steps := repeat step; cbv beta iota.

Section FullInvariant.
Import Sequencer.

Lemma cursor_ok_set (order : list Z) (p : Z) :
  order <> [] -> 0 <= p < Py.len order -> cursor_ok order p.
Proof. intros Hne Hp. split; [lia|done]. Qed.

Lemma session_ok_set_history (h : list Z) (st : state) :
  session_ok st -> session_ok (set_history h st).
Proof. done. Qed.

Lemma session_ok_set_play_pos (p : Z) (st : state) :
  session_ok st -> play_order st <> [] ->
  0 <= p < Py.len (play_order st) ->
  session_ok (set_play_pos p st).
Proof.
  intros (_ & Hvis & Hreg) Hne Hp.
  split_and!; [by apply cursor_ok_set|done|done].
Qed.

Lemma returns_load_ok (st : state) :
  session_ok st ->
  returns _load_current_and_play (fun _ st' => session_ok st') st.
Proof. intros Hok. apply returns_load; [apply Hok | done]. Qed.

(** The part of [play_next] that follows the repeat-one test. *)
Lemma advance_ok (order : list Z) (st : state) :
  session_ok st -> play_order st = order -> order <> [] ->
  returns
    (pos <- get play_pos ;;
     if pos + 1 >=? Py.len order
     then
       all <- get repeat_all ;;
       if all
       then modify (set_play_pos 0) ;;; _load_current_and_play
       else ret Stopped
     else modify (set_play_pos (pos + 1)) ;;; _load_current_and_play)
    (fun _ st' => session_ok st') st.
Proof.
  intros Hok <- Hne. pose proof Hok as ((Hr & _) & _).
  pose proof (len_nonneg (play_order st)) as Hlen.
  assert (Hpos : 0 < Py.len (play_order st)).
  { unfold Py.len in *. destruct (play_order st); [done|cbn; lia]. }
  steps. destruct (Z.geb_spec (play_pos st + 1) (Py.len (play_order st))).
  - steps. destruct (repeat_all st); steps; [|done].
    apply returns_load_ok, session_ok_set_play_pos; [done|done|lia].
  - steps. apply returns_load_ok, session_ok_set_play_pos; [done|done|lia].
Qed.

Lemma full_play_next_ok (st : state) :
  session_ok st ->
  returns Full.play_next (fun _ st' => session_ok st') st.
Proof.
  intros Hok. unfold Full.play_next. steps.
  destruct (play_order st) as [|b o] eqn:Ho; [by steps|].
  steps.
  apply returns_mono with
    (Q := fun _ s' => session_ok s' /\ play_order s' = b :: o).
  { destruct (negb _); steps; [|done].
    split; [by apply session_ok_set_history | done]. }
  intros _ s' [Hok' Ho']. steps.
  destruct (repeat_one s'); [by apply returns_load_ok|].
  by apply advance_ok.
Qed.

Lemma auto_play_next_ok (st : state) :
  session_ok st ->
  returns Auto.play_next (fun _ st' => session_ok st') st.
Proof.
  intros Hok. unfold Auto.play_next. steps.
  destruct (play_order st) as [|b o] eqn:Ho; [by steps|].
  steps. destruct (repeat_one st); [by apply returns_load_ok|].
  steps.
  apply returns_mono with
    (Q := fun _ s' => session_ok s' /\ play_order s' = b :: o).
  { destruct (negb _); steps; [|done].
    split; [by apply session_ok_set_history | done]. }
  intros _ s' [Hok' Ho']. by apply advance_ok.
Qed.

Lemma collect_loop_registered (q : string) (ts : list Track) (i : Z)
      (acc : list Z) :
  0 <= i ->
  Forall (fun j => 0 <= j < i + Py.len ts) acc ->
  Forall (fun j => 0 <= j < i + Py.len ts)
         (foldl (fun acc it => if matches q it.2 then acc ++ [it.1] else acc)
                acc (Py.enumerate_from i ts)).
Proof.
  revert i acc. induction ts as [|t ts IH]; intros i acc Hi Hacc; [done|].
  cbn [Py.enumerate_from foldl].
  assert (Hlen : i + Py.len (t :: ts) = (i + 1) + Py.len ts).
  { unfold Py.len. cbn [length]. lia. }
  rewrite Hlen in *. apply IH; [lia|].
  pose proof (len_nonneg ts).
  destruct (matches q _); [|done].
  apply Forall_app. split; [done|]. apply Forall_singleton. cbn. lia.
Qed.

Lemma collect_visible_registered (q : string) (ts : list Track) :
  registered ts (collect_visible q ts).
Proof.
  unfold registered, collect_visible, Py.enumerate.
  apply (collect_loop_registered q ts 0 []); [lia|done].
Qed.

Lemma rebuilt_ok (keep_current : bool) (st : state) :
  registered (tracks st) (visible_indices st) ->
  session_ok (rebuilt keep_current st).
Proof.
  intros Hvis. split_and!; [apply rebuilt_pos_ok|done|].
  unfold registered. change (play_order (rebuilt keep_current st))
    with (reorder st).1.
  by rewrite reorder_perm.
Qed.

Lemma returns_seek (idx : Z) (st : state) :
  session_ok st -> idx ∈ play_order st ->
  returns (i <- lift (Py.index idx (play_order st)) ;;
           modify (set_play_pos i))
          (fun _ st' => session_ok st') st.
Proof.
  intros Hok Hin. step. apply returns_index; [done|]. step.
  destruct (index_or_found idx (play_order st) 0 Hin) as (_ & Hr & _).
  apply session_ok_set_play_pos; [done| |done].
  intros Hnil. rewrite Hnil in Hin. by apply elem_of_nil in Hin.
Qed.

(** The cursor move that [_play_by_track_index] and the double-click
    handler share. *)
Lemma returns_locate (idx : Z) (st : state) :
  session_ok st ->
  returns
    (if Py.contains idx (play_order st)
     then i <- lift (Py.index idx (play_order st)) ;; modify (set_play_pos i)
     else
       _rebuild_play_order false ;;;
       order' <- get play_order ;;
       if Py.contains idx order'
       then i <- lift (Py.index idx order') ;; modify (set_play_pos i)
       else ret tt)
    (fun _ st' => session_ok st') st.
Proof.
  intros Hok.
  destruct (Py.contains idx (play_order st)) eqn:Hc.
  - apply contains_elem in Hc. by apply returns_seek.
  - steps. assert (Hok' : session_ok (rebuilt false st)).
    { apply rebuilt_ok, Hok. }
    destruct (Py.contains idx (play_order (rebuilt false st))) eqn:Hc'.
    + apply contains_elem in Hc'. by apply returns_seek.
    + by steps.
Qed.

Lemma full_jump_ok (idx : Z) (st : state) :
  session_ok st ->
  returns (Full._play_by_track_index idx) (fun _ st' => session_ok st') st.
Proof.
  intros Hok. unfold Full._play_by_track_index. steps.
  destruct (_ || _); [by steps|]. steps.
  eapply returns_mono; [by apply returns_locate|].
  intros u s' Hok'. by apply returns_load_ok.
Qed.

Lemma auto_double_click_ok (row : Z) (st : state) :
  session_ok st ->
  returns (Auto._on_item_double_clicked row)
          (fun _ st' => session_ok st') st.
Proof.
  intros Hok. unfold Auto._on_item_double_clicked. steps.
  destruct (_ || _) eqn:Hrow; [by steps|].
  apply orb_false_iff in Hrow as [Hlo Hhi].
  destruct (getitem_in_range (visible_indices st) row) as (idx & _ & Hg);
    [lia|].
  step. eapply returns_lift; [exact Hg|]. steps.
  eapply returns_mono; [by apply returns_locate|].
  intros u s' Hok'. by apply returns_load_ok.
Qed.

(** The tail of [play_prev] below the history branch. *)
Lemma step_back_ok (order : list Z) (st : state) :
  session_ok st -> play_order st = order -> order <> [] ->
  returns (Auto.step_back order) (fun _ st' => session_ok st') st.
Proof.
  intros Hok <- Hne. pose proof Hok as ((Hr & _) & _).
  assert (Hpos : 0 < Py.len (play_order st)).
  { unfold Py.len in *. destruct (play_order st); [done|cbn; lia]. }
  unfold Auto.step_back. steps.
  apply returns_load_ok, session_ok_set_play_pos; [done|done|].
  destruct (Z.ltb_spec (play_pos st - 1) 0); [|lia].
  destruct (repeat_all st); lia.
Qed.

Lemma full_play_prev_ok (st : state) :
  session_ok st ->
  returns Full.play_prev (fun _ st' => session_ok st') st.
Proof.
  intros Hok. unfold Full.play_prev. steps.
  destruct (play_order st) as [|b o] eqn:Ho; [by steps|].
  steps. destruct (Py.pop (history st)) as [[idx h']|].
  - steps. by apply full_jump_ok, session_ok_set_history.
  - by apply (step_back_ok (b :: o)).
Qed.

Lemma auto_play_prev_ok (st : state) :
  session_ok st ->
  returns Auto.play_prev (fun _ st' => session_ok st') st.
Proof.
  intros Hok. unfold Auto.play_prev. steps.
  destruct (play_order st) as [|b o] eqn:Ho; [by steps|].
  steps. destruct (Py.pop (history st)) as [[idx h']|].
  - steps. destruct (Py.contains idx (b :: o)) eqn:Hc.
    + apply contains_elem in Hc.
      destruct (index_or_found idx (b :: o) 0 Hc) as (_ & Hr & _).
      step. apply returns_index; [done|]. steps.
      apply returns_load_ok, session_ok_set_play_pos;
        [by apply session_ok_set_history | by cbn; rewrite Ho |].
      cbn. by rewrite Ho.
    + apply (step_back_ok (b :: o)); [by apply session_ok_set_history|done..].
  - by apply (step_back_ok (b :: o)).
Qed.
End FullInvariant.

Section FullSessions.
Context `{Host}.
Import Sequencer.

Lemma full_toggle_ok (is_playing : bool) (st : state) :
  session_ok st ->
  returns (Full.toggle_play_pause is_playing)
          (fun _ st' => session_ok st') st.
Proof.
  intros Hok. unfold Full.toggle_play_pause. steps.
  destruct (play_order st) as [|b o] eqn:Ho; [by steps|].
  steps. destruct (_ =? -1).
  - steps. apply returns_load_ok, session_ok_set_play_pos; [done|by rewrite Ho|].
    rewrite Ho. unfold Py.len. cbn [length]. lia.
  - destruct is_playing; by steps.
Qed.

Lemma full_track_end_ok (st : state) :
  session_ok st ->
  returns Full._handle_track_end (fun _ st' => session_ok st') st.
Proof.
  intros Hok. unfold Full._handle_track_end. steps.
  destruct (repeat_one st); [by apply returns_load_ok|].
  by apply full_play_next_ok.
Qed.

Lemma add_loop_grows (paths : list PurePath) (ts : list Track) (added : Z) :
  exists extra,
    Full.add_loop paths ts added = (ts ++ extra, added + Py.len extra).
Proof.
  revert ts added. induction paths as [|p paths IH]; intros ts added.
  - exists []. cbn. rewrite app_nil_r. unfold Py.len. cbn. f_equal. lia.
  - cbn [Full.add_loop]. destruct (negb (on_disk p)); [apply IH|].
    destruct (Full.known p ts); [apply IH|].
    destruct (IH (ts ++ [Full._read_metadata p]) (added + 1))
      as (extra & ->).
    exists (Full._read_metadata p :: extra).
    rewrite <- app_assoc. cbn [app]. f_equal.
    unfold Py.len. cbn [length]. lia.
Qed.

Lemma full_add_paths_ok (paths : list PurePath) (st : state) :
  session_ok st ->
  returns (Full._add_paths paths) (fun _ st' => session_ok st') st.
Proof.
  intros Hok. unfold Full._add_paths. steps.
  destruct (add_loop_grows paths (tracks st) 0) as (extra & ->).
  steps. destruct extra as [|t extra].
  - rewrite app_nil_r.
    change (negb (0 + Py.len (@nil Track) =? 0)) with false.
    steps. exact Hok.
  - assert (Hn : negb (0 + Py.len (t :: extra) =? 0) = true).
    { unfold Py.len. cbn [length]. apply negb_true_iff, Z.eqb_neq. lia. }
    rewrite Hn. steps. apply rebuilt_ok. cbn.
    apply collect_visible_registered.
Qed.

(** A playlist document may be malformed, so loading can raise; when
    it returns, the session is in order again. *)
Lemma full_load_playlist_ok (payload : json) (st st' : state) :
  session_ok st ->
  Full.load_playlist payload st = Ok (tt, st') ->
  session_ok st'.
Proof.
  intros Hok. unfold Full.load_playlist, bind, lift.
  destruct (Json.get_of payload "tracks" (JList [])) as [listed|]; [|done].
  destruct (Json.iterate listed) as [items|]; [|done].
  destruct (Full.load_loop items []) as [[|t loaded]|]; [| |done].
  - unfold ret. by intros [= <-].
  - unfold modify. rewrite apply_filter_run, rebuild_play_order_run.
    intros [= <-]. apply rebuilt_ok.
    apply (collect_visible_registered (query_of (search st)) (t :: loaded)).
Qed.

Lemma perform_ok (a : action) (st : state) :
  session_ok st ->
  returns (perform a) (fun _ st' => session_ok st') st.
Proof.
  intros Hok. destruct a; cbn [perform].
  - step. apply rebuilt_ok, Hok.
  - step. eapply returns_mono; [by apply full_play_next_ok|].
    intros u s' Hok'. by steps.
  - step. eapply returns_mono; [by apply full_play_prev_ok|].
    intros u s' Hok'. by steps.
  - step. eapply returns_mono; [by apply full_jump_ok|].
    intros u s' Hok'. by steps.
  - step. eapply returns_mono; [by apply full_toggle_ok|].
    intros u s' Hok'. by steps.
  - step. eapply returns_mono; [by apply full_track_end_ok|].
    intros u s' Hok'. by steps.
  - unfold Full._on_shuffle_changed. steps. apply rebuilt_ok, Hok.
  - unfold Full._on_repeat_all_changed. by steps.
  - unfold Full._on_repeat_one_changed. by steps.
  - unfold Full.search_text_changed. steps. apply rebuilt_ok. cbn.
    apply collect_visible_registered.
  - by apply full_add_paths_ok.
Qed.

Lemma initial_ok (g : list nat) : session_ok (initial g).
Proof.
  split_and!; [|apply Forall_nil_2|apply Forall_nil_2].
  unfold cursor_ok, Py.len. cbn. lia.
Qed.

(** X28.  The full variant keeps the cursor in range: from a state where
    the cursor is [-1] or an offset into the play order (and [-1] when
    the play order is empty), every sequence of actions returns and
    ends in such a state. *)
Theorem full_cursor_stays_in_range (l : list action) (st : state) :
  session_ok st ->
  returns (perform_all l)
          (fun _ st' => cursor_ok (play_order st') (play_pos st')
                        /\ session_ok st') st.
Proof.
  revert st. induction l as [|a l IH]; intros st Hok; cbn [perform_all].
  - step. split; [apply Hok | done].
  - step. eapply returns_mono; [by apply perform_ok|].
    intros u s' Hok'. by apply IH.
Qed.
End FullSessions.

(** ** Forward steps at the end of the play order *)

Section ForwardAtEnd.
Import Sequencer.

(** C1.  The slick variant, at the last track with both repeat modes
    off: [next] returns with the cursor at offset 3 of a play order of
    length 3.  A second [next] moves it to 4, and [prev] then raises
    IndexError; so does [next] once repeat-one has been switched
    on. *)
Theorem slick_next_leaves_cursor_past_end :
  Slick.next slick_last_track = Ok (Idle, Slick.set_pos 3 slick_last_track)
  /\ Py.len (Slick.order slick_last_track) = 3
  /\ (Slick.next ;;; Slick.next ;;; Slick.prev) slick_last_track
     = Raise IndexError
  /\ (Slick.next ;;; Slick._opts false false true ;;; Slick.next)
       slick_last_track
     = Raise IndexError.
Proof. vm_compute. done. Qed.

(** C4.  The slick variant, at the last track with both repeat modes
    off: [next] asks nothing of the engine (it does not stop it) and
    moves the cursor from offset 2 to offset 3. *)
Theorem slick_next_at_end_neither_stops_nor_clamps :
  exists s',
    Slick.next slick_last_track = Ok (Idle, s')
    /\ Slick.pos slick_last_track = 2
    /\ Slick.pos s' = 3.
Proof. eexists. vm_compute. done. Qed.

(** In the slick variant this happens at the end of every play
    order. *)
Lemma slick_next_overruns (s : Slick.state) :
  Slick.order s <> [] ->
  Slick.repeat_one s = false ->
  Slick.repeat_all s = false ->
  Slick.pos s = Py.len (Slick.order s) - 1 ->
  Slick.next s = Ok (Idle, Slick.set_pos (Py.len (Slick.order s)) s).
Proof.
  intros Hne Hone Hall Hpos. unfold Slick.next, bind, get, modify, ret.
  destruct (Slick.order s) as [|b o] eqn:Ho; [done|].
  rewrite Hone. cbn [Slick.pos Slick.set_pos Slick.repeat_all].
  replace (Slick.pos s + 1) with (Py.len (b :: o)) by lia.
  destruct (Z.geb_spec (Py.len (b :: o)) (Py.len (b :: o))); [|lia].
  cbn [Slick.repeat_all Slick.set_pos]. by rewrite Hall.
Qed.

(** [refresh] of the slick variant replaces the order and keeps the
    cursor: after a search that leaves one track, offset 2 is still
    the cursor. *)
Lemma slick_refresh_keeps_stale_cursor :
  exists s',
    Slick.refresh slick_searching = Ok (tt, s')
    /\ Slick.order s' = [1] /\ Slick.pos s' = 2.
Proof. eexists. vm_compute. done. Qed.

(** The tail of [play_next] at the last offset with repeat-all off. *)
Lemma advance_at_end (order : list Z) (p : Z) (st : state) :
  play_order st = order -> play_pos st = p -> p = Py.len order - 1 ->
  repeat_all st = false ->
  returns
    (pos <- get play_pos ;;
     if pos + 1 >=? Py.len order
     then
       all <- get repeat_all ;;
       if all
       then modify (set_play_pos 0) ;;; _load_current_and_play
       else ret Stopped
     else modify (set_play_pos (pos + 1)) ;;; _load_current_and_play)
    (fun sig st' => sig = Stopped /\ play_pos st' = p
                    /\ play_order st' = order) st.
Proof.
  intros Ho Hp Hpos Hall. steps.
  destruct (Z.geb_spec (play_pos st + 1) (Py.len order)); [|lia].
  steps. rewrite Hall. by steps.
Qed.

(** The full and the autoplay variant stop the engine at the end of
    the play order and leave the cursor where it is. *)
Lemma full_play_next_at_end (st : state) :
  play_order st <> [] ->
  repeat_one st = false ->
  repeat_all st = false ->
  play_pos st = Py.len (play_order st) - 1 ->
  exists st',
    Full.play_next st = Ok (Stopped, st')
    /\ play_pos st' = play_pos st
    /\ play_order st' = play_order st.
Proof.
  intros Hne Hone Hall Hpos.
  cut (returns Full.play_next
         (fun sig st' => sig = Stopped /\ play_pos st' = play_pos st
                         /\ play_order st' = play_order st) st).
  { intros (sig & st' & Hrun & -> & Hp & Ho). by exists st'. }
  unfold Full.play_next. steps.
  destruct (play_order st) as [|b o] eqn:Ho; [done|]. steps.
  apply returns_mono with
    (Q := fun _ s' => play_order s' = b :: o /\ play_pos s' = play_pos st
                      /\ repeat_all s' = false /\ repeat_one s' = false).
  { destruct (negb _); by steps. }
  intros u s' (Ho' & Hp' & Hall' & Hone'). steps. rewrite Hone'.
  by apply advance_at_end.
Qed.

Lemma auto_play_next_at_end (st : state) :
  play_order st <> [] ->
  repeat_one st = false ->
  repeat_all st = false ->
  play_pos st = Py.len (play_order st) - 1 ->
  exists st',
    Auto.play_next st = Ok (Stopped, st')
    /\ play_pos st' = play_pos st
    /\ play_order st' = play_order st.
Proof.
  intros Hne Hone Hall Hpos.
  cut (returns Auto.play_next
         (fun sig st' => sig = Stopped /\ play_pos st' = play_pos st
                         /\ play_order st' = play_order st) st).
  { intros (sig & st' & Hrun & -> & Hp & Ho). by exists st'. }
  unfold Auto.play_next. steps.
  destruct (play_order st) as [|b o] eqn:Ho; [done|]. steps.
  rewrite Hone. steps.
  apply returns_mono with
    (Q := fun _ s' => play_order s' = b :: o /\ play_pos s' = play_pos st
                      /\ repeat_all s' = false).
  { destruct (negb _); by steps. }
  intros u s' (Ho' & Hp' & Hall'). by apply advance_at_end.
Qed.
End ForwardAtEnd.

(** ** Repeat-one on a forward step *)

Section RepeatOne.
Import Sequencer.

(** C3.  The full variant with repeat-one on, the second of three
    tracks current and an empty history: [play_next] replays track 1
    and leaves the cursor alone, but the history now holds track 1.
    The autoplay variant leaves the whole state as it was. *)
Theorem full_play_next_repeat_one_pushes_history :
  history repeat_one_session = []
  /\ Full.play_next repeat_one_session
     = Ok (Playing 1 "/m/b.mp3", set_history [1] repeat_one_session)
  /\ Auto.play_next repeat_one_session
     = Ok (Playing 1 "/m/b.mp3", repeat_one_session).
Proof. vm_compute. done. Qed.

(** In the full variant every forward step under repeat-one with a
    current track pushes that track. *)
Lemma full_repeat_one_step_pushes (st : state) :
  repeat_one st = true ->
  registered (tracks st) (play_order st) ->
  0 <= play_pos st < Py.len (play_order st) ->
  Full.play_next st
  = Ok (now_playing st,
        set_history
          (history st ++ [current_of (play_order st) (play_pos st)]) st).
Proof.
  intros Hone Hreg Hpos. unfold Full.play_next, bind, get.
  destruct (play_order st) as [|b o] eqn:Ho.
  { unfold Py.len in Hpos. cbn in Hpos. lia. }
  rewrite <- Ho in *. rewrite current_track_index_run.
  destruct (now_playing_in_range st Hreg Hpos) as (Hcur & _).
  apply Z.eqb_neq in Hcur. rewrite Hcur. cbn [negb]. unfold modify.
  cbn [repeat_one set_history]. rewrite Hone.
  by rewrite load_current_and_play_run.
Qed.

(** The end-of-track callback of the full variant tests repeat-one
    before it would push. *)
Lemma full_track_end_repeat_one (st : state) :
  repeat_one st = true ->
  registered (tracks st) (play_order st) ->
  Full._handle_track_end st = Ok (now_playing st, st).
Proof.
  intros Hone Hreg. unfold Full._handle_track_end, bind, get.
  rewrite Hone. by apply load_current_and_play_run.
Qed.
End RepeatOne.

(** ** Backward steps *)

Section Backward.
Import Sequencer.

Lemma pop_nil {A} : Py.pop (@nil A) = None.
Proof. done. Qed.

Lemma step_back_run (order : list Z) (st : state) :
  registered (tracks st) (play_order st) ->
  let st' := set_play_pos (back_target order (play_pos st) (repeat_all st)) st in
  Auto.step_back order st = Ok (now_playing st', st').
Proof.
  intros Hreg st'. unfold Auto.step_back, bind, get, modify.
  by rewrite load_current_and_play_run.
Qed.

Lemma slick_play_run (s : Slick.state) :
  slick_registered s ->
  0 <= Slick.pos s < Py.len (Slick.order s) ->
  Slick._play s = Ok (slick_now_playing s, s).
Proof.
  intros Hreg Hpos. unfold Slick._play, slick_now_playing, bind, get, lift, ret.
  destruct (getitem_in_range _ _ Hpos) as (idx & Hidx & ->).
  rewrite Hidx.
  assert (Hr : 0 <= idx < Py.len (Slick.tracks s)).
  { apply list_elem_of_lookup_2 in Hidx. unfold slick_registered, registered in Hreg.
    rewrite Forall_forall in Hreg. by apply Hreg. }
  destruct (getitem_in_range _ _ Hr) as (t & Ht & ->). by rewrite Ht.
Qed.

(** C5, counterexample.  The slick variant with repeat-all on and the
    cursor at offset 0 of a play order of three: [prev] leaves the
    cursor at offset 0, not at the last offset 2. *)
Lemma slick_prev_does_not_wrap :
  Slick.repeat_all slick_first_track = true
  /\ Slick.pos slick_first_track = 0
  /\ Py.len (Slick.order slick_first_track) - 1 = 2
  /\ Slick.prev slick_first_track
     = Ok (Playing 0 "/m/a.mp3", slick_first_track).
Proof. vm_compute. done. Qed.

Lemma getitem_beyond {A} (l : list A) (i : Z) :
  Py.len l <= i -> Py.getitem l i = Raise IndexError.
Proof.
  intros Hi. pose proof (len_nonneg l) as Hl. unfold Py.getitem.
  destruct (Z.ltb_spec i 0); [lia|].
  destruct (Z.ltb_spec i 0); [lia|].
  rewrite lookup_ge_None_2; [done|]. unfold Py.len in Hi. lia.
Qed.

(** C5, amended.  With a non-empty play order and an empty history,
    [play_prev] of the full and of the autoplay variant moves the
    cursor one down, and from below offset 0 to the last offset when
    repeat-all is on and to offset 0 when it is off, and then loads
    the track under the cursor; over a play order of registry indices
    it returns with that cursor.  [prev] of the slick variant, which
    keeps no history, moves the cursor of a non-empty order to
    [max(0, pos - 1)], whatever repeat-all says, and then plays the
    entry under it: over an order of registry indices it returns with
    that cursor when the cursor was not beyond the length of the
    order, and it raises IndexError when the cursor was beyond it. *)
Theorem backward_step_by_variant :
  (forall st : state,
      play_order st <> [] -> history st = [] ->
      let st' :=
        set_play_pos
          (back_target (play_order st) (play_pos st) (repeat_all st)) st in
      Full.play_prev st = _load_current_and_play st'
      /\ Auto.play_prev st = _load_current_and_play st'
      /\ (registered (tracks st) (play_order st) ->
          _load_current_and_play st' = Ok (now_playing st', st')))
  /\ (forall s : Slick.state,
        Slick.order s <> [] ->
        let s' := Slick.set_pos (Z.max 0 (Slick.pos s - 1)) s in
        Slick.prev s = Slick._play s'
        /\ (slick_registered s ->
            Slick.pos s <= Py.len (Slick.order s) ->
            Slick._play s' = Ok (slick_now_playing s', s'))
        /\ (Py.len (Slick.order s) < Slick.pos s ->
            Slick._play s' = Raise IndexError)).
Proof.
  split.
  - intros st Hne Hh. cbv zeta. split_and!.
    + unfold Full.play_prev, bind at 1, get at 1.
      destruct (play_order st) as [|b o] eqn:Ho; [done|].
      unfold bind at 1, get at 1. rewrite Hh, pop_nil. by rewrite <- Ho.
    + unfold Auto.play_prev, bind at 1, get at 1.
      destruct (play_order st) as [|b o] eqn:Ho; [done|].
      unfold bind at 1, get at 1. rewrite Hh, pop_nil. by rewrite <- Ho.
    + intros Hreg. by apply load_current_and_play_run.
  - intros s Hne. cbv zeta. split_and!.
    + unfold Slick.prev, bind at 1, get at 1.
      by destruct (Slick.order s) as [|b o] eqn:Ho.
    + intros Hreg Hpos. apply slick_play_run; [done|].
      cbn [Slick.pos Slick.order Slick.set_pos].
      assert (0 < Py.len (Slick.order s)).
      { unfold Py.len. destruct (Slick.order s); [done|cbn [length]; lia]. }
      lia.
    + intros Hpos. unfold Slick._play, bind at 1, get at 1.
      unfold bind at 1, get at 1. unfold bind at 1, lift at 1.
      cbn [Slick.pos Slick.order Slick.set_pos].
      rewrite getitem_beyond; [done|]. lia.
Qed.

Lemma backward_step_by_variant_witness :
  Full.play_prev first_track_session
  = Ok (Playing 2 "/m/c.mp3", set_play_pos 2 first_track_session)
  /\ Auto.play_prev first_track_no_repeat
     = Ok (Playing 0 "/m/a.mp3", set_play_pos 0 first_track_no_repeat)
  /\ Slick.prev slick_first_track
     = Ok (Playing 0 "/m/a.mp3", slick_first_track)
  /\ Slick.prev slick_overrun = Raise IndexError.
Proof.
  destruct backward_step_by_variant as [Hfull Hslick].
  destruct (Hfull first_track_session) as (Hwrap & _ & Hload);
    [discriminate | reflexivity |].
  destruct (Hfull first_track_no_repeat) as (_ & Hclamp & Hload');
    [discriminate | reflexivity |].
  destruct (Hslick slick_first_track) as (Hprev & Hplay & _);
    [discriminate|].
  destruct (Hslick slick_overrun) as (Hprev' & _ & Hraise); [discriminate|].
  split_and!.
  - rewrite Hwrap. apply Hload.
    repeat (constructor; [unfold Py.len; cbn; lia|]). constructor.
  - rewrite Hclamp. apply Hload'.
    repeat (constructor; [unfold Py.len; cbn; lia|]). constructor.
  - rewrite Hprev. apply Hplay; [|unfold Py.len; cbn; lia].
    repeat (constructor; [unfold Py.len; cbn; lia|]). constructor.
  - rewrite Hprev'. apply Hraise. unfold Py.len. cbn. lia.
Defined.
End Backward.

(** ** Imports and duplicate paths *)

Section Imports.
Context `{Host}.
Import Sequencer.

Lemma known_false (p : PurePath) (ts : list Track) :
  Full.known p ts = false ->
  Forall (fun u => path_eqb (Path (path u)) p = false) ts.
Proof.
  unfold Full.known. induction ts as [|t ts IH]; [done|].
  cbn [existsb]. intros [Ht Hts]%orb_false_iff.
  constructor; [done | by apply IH].
Qed.

Lemma path_of_read_metadata (p : PurePath) :
  path (Full._read_metadata p) = str p.
Proof.
  unfold Full._read_metadata. by destruct (tags p) as [[[ti ar] al] d].
Qed.

Lemma distinct_paths_snoc (p : PurePath) (ts : list Track) :
  distinct_paths ts -> Full.known p ts = false ->
  distinct_paths (ts ++ [Full._read_metadata p]).
Proof.
  intros Hd Hk. apply known_false in Hk.
  induction ts as [|t ts IH]; [by cbn|].
  destruct Hd as [Ht Hd]. apply Forall_cons in Hk as [Hkt Hk].
  cbn [app distinct_paths]. split; [|by apply IH].
  apply Forall_app. split; [done|]. apply Forall_singleton.
  rewrite path_of_read_metadata.
  destruct (path_eqb (Path (path t)) (Path (str p))) eqn:He; [|done].
  rewrite <- Hkt. symmetry.
  apply (path_eqb_trans _ _ _ He (Path_str p)).
Qed.

Lemma add_loop_distinct (paths : list PurePath) (ts : list Track) (added : Z) :
  distinct_paths ts -> distinct_paths (Full.add_loop paths ts added).1.
Proof.
  revert ts added. induction paths as [|p paths IH]; intros ts added Hd;
    [done|].
  cbn [Full.add_loop]. destruct (negb (on_disk p)); [by apply IH|].
  destruct (Full.known p ts) eqn:Hk; [by apply IH|].
  by apply IH, distinct_paths_snoc.
Qed.

Lemma add_paths_tracks (paths : list PurePath) (st : state) :
  returns (Full._add_paths paths)
          (fun _ st' => tracks st' = (Full.add_loop paths (tracks st) 0).1)
          st.
Proof.
  unfold Full._add_paths. steps.
  destruct (Full.add_loop paths (tracks st) 0) as [ts' added].
  steps. destruct (negb _); by steps.
Qed.

Lemma add_paths_distinct (paths : list PurePath) (st : state) :
  distinct_paths (tracks st) ->
  returns (Full._add_paths paths)
          (fun _ st' => distinct_paths (tracks st')) st.
Proof.
  intros Hd. eapply returns_mono; [apply add_paths_tracks|].
  intros u st' ->. by apply add_loop_distinct.
Qed.

Lemma import_all_distinct (batches : list (list PurePath)) (st : state) :
  distinct_paths (tracks st) ->
  returns (import_all batches) (fun _ st' => distinct_paths (tracks st')) st.
Proof.
  revert st. induction batches as [|paths rest IH]; intros st Hd;
    cbn [import_all]; [by steps|].
  step. eapply returns_mono; [by apply add_paths_distinct|].
  intros u st' Hd'. by apply IH.
Qed.

(** C6, amended.  In the full variant every sequence of imports into
    a registry in which no two paths compare equal, the empty one
    included, returns with such a registry, and the import of a path
    that compares equal to a registered one leaves the registry as it
    is.  In the slick variant [_add] appends the record it has read
    without looking at the registry. *)
Theorem imports_keep_paths_distinct :
  (forall (batches : list (list PurePath)) (st : state),
      distinct_paths (tracks st) ->
      exists st',
        import_all batches st = Ok (tt, st')
        /\ distinct_paths (tracks st'))
  /\ (forall (p : PurePath) (st : state),
        Full.known p (tracks st) = true ->
        exists st',
          Full._add_paths [p] st = Ok (tt, st')
          /\ tracks st' = tracks st)
  /\ (forall (p : PurePath) (s : Slick.state) ti ar al d,
        probe p = Some (ti, ar, al, d) ->
        Slick._add p s
        = Ok (tt, Slick.set_tracks
                    (Slick.tracks s ++ [mkTrack (str p) ti ar al d]) s)).
Proof.
  split_and!.
  - intros batches st Hd.
    destruct (import_all_distinct batches st Hd) as ([] & st' & Hr & Hd').
    by exists st'.
  - intros p st Hk.
    destruct (add_paths_tracks [p] st) as ([] & st' & Hr & Ht).
    exists st'. split; [done|]. rewrite Ht. cbn [Full.add_loop].
    destruct (negb (on_disk p)); [done|]. by rewrite Hk.
  - intros p s ti ar al d Hp. unfold Slick._add. by rewrite Hp.
Qed.
End Imports.

Section ImportSamples.
Import Sequencer.

(** C6, counterexample.  The slick variant, asked to add the same
    file twice, ends with two registry entries that carry the same
    path. *)
Lemma slick_add_files_keeps_duplicates :
  exists s' t,
    @Slick.add_files plain_host ["/m/a.mp3"; "/m/a.mp3"]%string
                     (Slick.initial [])
    = Ok (tt, s')
    /\ Slick.tracks s' = [t; t]
    /\ path t = "/m/a.mp3"%string.
Proof. eexists _, _. vm_compute. done. Qed.

Lemma imports_keep_paths_distinct_witness :
  (exists st',
      @import_all plain_host
        [["/m/a.mp3"; "/m/b.mp3"]; ["/m/b.mp3"; "/m/c.mp3"]]%string
        (initial [])
      = Ok (tt, st')
      /\ @distinct_paths plain_host (tracks st'))
  /\ (exists st',
        @Full._add_paths plain_host ["/m/b.mp3"%string] plain_session
        = Ok (tt, st')
        /\ tracks st' = tracks plain_session).
Proof.
  destruct (@imports_keep_paths_distinct plain_host) as (Hall & Hskip & _).
  split; [apply Hall; exact I|]. apply Hskip. reflexivity.
Defined.
End ImportSamples.

(** ** Saving and loading a playlist *)

Section RoundTrip.
Context `{Host}.
Import Sequencer.

Lemma load_entry_asdict (t : Track) :
  still_there t -> Full.load_entry (Full.asdict t) = Ok (Some t).
Proof.
  intros [Hne Hex]. destruct t as [p ti ar al d]. cbn in Hne, Hex.
  unfold Full.load_entry, Full.asdict. cbn.
  destruct p as [|c p]; [done|]. cbn. by rewrite Hex.
Qed.

Lemma load_loop_asdict (ts loaded : list Track) :
  Forall still_there ts ->
  Full.load_loop (map Full.asdict ts) loaded = Ok (loaded ++ ts).
Proof.
  revert loaded. induction ts as [|t ts IH]; intros loaded Hts.
  - cbn. by rewrite app_nil_r.
  - apply Forall_cons in Hts as [Ht Hts]. cbn [map Full.load_loop].
    rewrite (load_entry_asdict t Ht). cbn [and_then].
    rewrite IH by done. by rewrite <- app_assoc.
Qed.

(** C7.  When [save_playlist] has written a document for the
    registry, and every track of the registry has a non-empty path
    that still exists, [load_playlist] on that document returns, from
    whatever session it is called in, with a registry equal to the one
    saved: the same records in the same order. *)
Theorem playlist_round_trip (now : Z) (st st0 : state) (doc : json) :
  Full.save_playlist now st = Ok (Some doc, st) ->
  Forall still_there (tracks st) ->
  exists st1,
    Full.load_playlist doc st0 = Ok (tt, st1)
    /\ tracks st1 = tracks st.
Proof.
  intros Hsave Hts. unfold Full.save_playlist, bind, get, ret in Hsave.
  destruct (tracks st) as [|t ts] eqn:Htracks; [done|].
  injection Hsave as <-.
  cut (returns (Full.load_playlist
                  (JDict [("version"%string, JInt 1);
                          ("saved_at"%string, JInt now);
                          ("tracks"%string,
                           JList (map Full.asdict (t :: ts)))]))
               (fun _ st1 => tracks st1 = t :: ts) st0).
  { intros ([] & st1 & Hr & Ht). by exists st1. }
  unfold Full.load_playlist.
  step. eapply returns_lift; [reflexivity|].
  step. eapply returns_lift; [reflexivity|].
  step. eapply returns_lift; [by apply load_loop_asdict|].
  cbn [app]. by steps.
Qed.
End RoundTrip.

Section RoundTripSample.

Lemma playlist_round_trip_witness :
  exists doc st1,
    Full.save_playlist 1700000000 plain_session
    = Ok (Some doc, plain_session)
    /\ @Full.load_playlist plain_host doc (initial []) = Ok (tt, st1)
    /\ tracks st1 = tracks plain_session.
Proof.
  eexists.
  destruct (@playlist_round_trip plain_host 1700000000 plain_session
              (initial []) _ eq_refl) as (st1 & Hload & Ht).
  { repeat (constructor; [split; [discriminate | reflexivity]|]).
    constructor. }
  exists st1. split; [reflexivity|]. split; [exact Hload | exact Ht].
Defined.
End RoundTripSample.

(** ** Scenarios *)

Section Scenarios.
Import Sequencer.

(** Three tracks, no filter, no shuffle: after a rebuild the play
    order is [0; 1; 2] with the cursor on 0, and three forward steps
    under repeat-all play tracks 1, 2 and 0. *)
Example forward_three_times :
  exists s0 s1 s2 s3,
    _rebuild_play_order false plain_session = Ok (tt, s0)
    /\ play_order s0 = [0; 1; 2] /\ play_pos s0 = 0
    /\ Full.play_next s0 = Ok (Playing 1 "/m/b.mp3", s1)
    /\ Full.play_next s1 = Ok (Playing 2 "/m/c.mp3", s2)
    /\ Full.play_next s2 = Ok (Playing 0 "/m/a.mp3", s3).
Proof. eexists _, _, _, _. vm_compute. done. Qed.

(** Searching for "jazz" when only the album of track 1 contains
    "Jazz": the filter view and the play order are [1], the cursor
    is 0. *)
Example search_for_jazz :
  exists s',
    Full.search_text_changed "jazz" plain_session = Ok (tt, s')
    /\ visible_indices s' = [1] /\ play_order s' = [1]
    /\ play_pos s' = 0.
Proof. eexists. vm_compute. done. Qed.

(** Switching shuffle on after two forward steps empties the
    history, and the next backward step takes the cursor one down
    instead of popping. *)
Example shuffle_clears_history :
  exists s1 s2 s3,
    (Full.play_next ;;; Full.play_next) (set_play_pos 0 plain_session)
    = Ok (Playing 2 "/m/c.mp3", s1)
    /\ history s1 = [0; 1]
    /\ Full._on_shuffle_changed true s1 = Ok (tt, s2)
    /\ history s2 = [] /\ play_order s2 = [1; 2; 0] /\ play_pos s2 = 1
    /\ Full.play_prev s2 = Ok (Playing 1 "/m/b.mp3", s3)
    /\ play_pos s3 = 0.
Proof. eexists _, _, _. vm_compute. done. Qed.
End Scenarios.

(** ** Forward steps in closed form *)

Section ForwardClosed.
Import Sequencer.

Lemma pushed_fields (st : state) :
  tracks (pushed st) = tracks st
  /\ play_order (pushed st) = play_order st
  /\ play_pos (pushed st) = play_pos st
  /\ visible_indices (pushed st) = visible_indices st
  /\ repeat_all (pushed st) = repeat_all st
  /\ repeat_one (pushed st) = repeat_one st.
Proof. unfold pushed. by destruct (_ =? -1). Qed.

Lemma registered_pushed (st : state) :
  registered (tracks st) (play_order st) ->
  registered (tracks (pushed st)) (play_order (pushed st)).
Proof.
  destruct (pushed_fields st) as (-> & -> & _). done.
Qed.

Lemma advance_run (st : state) :
  registered (tracks st) (play_order st) ->
  (pos <- get play_pos ;;
   if pos + 1 >=? Py.len (play_order st)
   then
     all <- get repeat_all ;;
     if all
     then modify (set_play_pos 0) ;;; _load_current_and_play
     else ret Stopped
   else modify (set_play_pos (pos + 1)) ;;; _load_current_and_play) st
  = Ok (advanced st).
Proof.
  intros Hreg. unfold advanced, bind, get, modify, ret.
  destruct (_ >=? _); [destruct (repeat_all st)|]; try done.
  all: by rewrite load_current_and_play_run.
Qed.

Lemma push_run (st : state) :
  (if negb (current_of (play_order st) (play_pos st) =? -1)
   then h <- get history ;;
        modify (set_history
                  (h ++ [current_of (play_order st) (play_pos st)]))
   else ret tt) st
  = Ok (tt, pushed st).
Proof. unfold pushed. by destruct (_ =? -1). Qed.

Lemma auto_play_next_run (st : state) :
  play_order st <> [] -> repeat_one st = false ->
  registered (tracks st) (play_order st) ->
  Auto.play_next st = Ok (advanced (pushed st)).
Proof.
  intros Hne Hone Hreg.
  pose proof (advance_run (pushed st) (registered_pushed st Hreg)) as Hadv.
  pose proof (push_run st) as Hpush.
  destruct (pushed_fields st) as (_ & Hpo & _).
  rewrite Hpo in Hadv.
  unfold Auto.play_next, bind at 1, get at 1.
  destruct (play_order st) as [|b o] eqn:Ho; [done|].
  unfold bind at 1, get at 1. rewrite Hone.
  unfold bind at 1. rewrite current_track_index_run, Ho.
  by rewrite (bind_ok _ _ _ _ _ Hpush).
Qed.

Lemma full_play_next_run (st : state) :
  play_order st <> [] ->
  registered (tracks st) (play_order st) ->
  Full.play_next st
  = Ok (if repeat_one st then (now_playing (pushed st), pushed st)
        else advanced (pushed st)).
Proof.
  intros Hne Hreg.
  pose proof (advance_run (pushed st) (registered_pushed st Hreg)) as Hadv.
  pose proof (load_current_and_play_run (pushed st)
                (registered_pushed st Hreg)) as Hload.
  pose proof (push_run st) as Hpush.
  destruct (pushed_fields st) as (_ & Hpo & _ & _ & _ & Hone).
  rewrite Hpo in Hadv.
  unfold Full.play_next, bind at 1, get at 1.
  destruct (play_order st) as [|b o] eqn:Ho; [done|].
  unfold bind at 1. rewrite current_track_index_run, Ho.
  rewrite (bind_ok _ _ _ _ _ Hpush).
  unfold bind at 1, get at 1. rewrite Hone.
  by destruct (repeat_one st).
Qed.
End ForwardClosed.

(** ** Wrapping, stopping and repeating on a forward step *)

Ltac solve_registered :=
  repeat (constructor; [unfold Py.len; cbn; lia|]); constructor.

Section ForwardEdges.
Import Sequencer.

Lemma now_playing_at (st : state) (p : Z) (idx : Z) :
  registered (tracks st) (play_order st) ->
  0 <= p < Py.len (play_order st) ->
  play_order st !! Z.to_nat p = Some idx ->
  exists loc, now_playing (set_play_pos p st) = Playing idx loc.
Proof.
  intros Hreg Hp Hidx.
  destruct (now_playing_in_range (set_play_pos p st) Hreg Hp) as (_ & loc & Hl).
  exists loc. rewrite Hl. f_equal. by apply current_of_lookup.
Qed.

(** X1.  In the full and in the autoplay variant a forward step from
    the last offset of a play order of registry indices, with
    repeat-one off and repeat-all on, pushes the current index on the
    history, moves the cursor to offset 0 and plays the first entry of
    the play order. *)
Theorem forward_step_wraps (st : state) :
  registered (tracks st) (play_order st) ->
  0 <= play_pos st ->
  play_pos st = Py.len (play_order st) - 1 ->
  repeat_one st = false ->
  repeat_all st = true ->
  exists first loc,
    play_order st !! 0%nat = Some first
    /\ Full.play_next st = Ok (Playing first loc, set_play_pos 0 (pushed st))
    /\ Auto.play_next st = Ok (Playing first loc, set_play_pos 0 (pushed st)).
Proof.
  intros Hreg Hlo Hpos Hone Hall.
  assert (Hne : play_order st <> []).
  { intros Hnil. rewrite Hnil in Hpos. unfold Py.len in Hpos. cbn in Hpos. lia. }
  destruct (play_order st) as [|first o] eqn:Ho; [done|]. rewrite <- Ho in *.
  destruct (pushed_fields st) as (Hts & Hpo & Hpp & _ & Hra & _).
  assert (Hreg' : registered (tracks (pushed st)) (play_order (pushed st))).
  { by apply registered_pushed. }
  destruct (now_playing_at (pushed st) 0 first Hreg') as (loc & Hloc).
  { rewrite Hpo. lia. }
  { by rewrite Hpo, Ho. }
  exists first, loc. split; [by rewrite Ho|].
  rewrite (full_play_next_run st Hne Hreg), Hone.
  rewrite (auto_play_next_run st Hne Hone Hreg).
  unfold advanced. rewrite Hpp, Hpo, Hra, Hall.
  destruct (Z.geb_spec (play_pos st + 1) (Py.len (play_order st))); [|lia].
  by rewrite Hloc.
Qed.

Lemma forward_step_wraps_witness :
  Full.play_next wrap_session
  = Ok (Playing 0 "/m/a.mp3", set_play_pos 0 (pushed wrap_session))
  /\ Auto.play_next wrap_session
     = Ok (Playing 0 "/m/a.mp3", set_play_pos 0 (pushed wrap_session)).
Proof.
  destruct (forward_step_wraps wrap_session) as (first & loc & Hf & H1 & H2);
    [solve_registered | cbn; lia | reflexivity | reflexivity | reflexivity |].
  injection Hf as <-. split.
  - rewrite H1. f_equal. f_equal.
    assert (Hv : Full.play_next wrap_session
                 = Ok (Playing 0 "/m/a.mp3",
                       set_play_pos 0 (pushed wrap_session)))
      by reflexivity.
    rewrite H1 in Hv. by injection Hv as ->.
  - rewrite H2. f_equal. f_equal.
    assert (Hv : Auto.play_next wrap_session
                 = Ok (Playing 0 "/m/a.mp3",
                       set_play_pos 0 (pushed wrap_session)))
      by reflexivity.
    rewrite H2 in Hv. by injection Hv as ->.
Defined.

(** X2.  In the full and in the autoplay variant a forward step from
    the last offset of a non-empty play order, with both repeat modes
    off, stops the engine and leaves the cursor where it is; the
    current index, if there is one, goes on the history. *)
Theorem forward_step_stops_at_end (st : state) :
  play_order st <> [] ->
  play_pos st = Py.len (play_order st) - 1 ->
  repeat_one st = false ->
  repeat_all st = false ->
  Full.play_next st = Ok (Stopped, pushed st)
  /\ Auto.play_next st = Ok (Stopped, pushed st).
Proof.
  intros Hne Hpos Hone Hall.
  pose proof (push_run st) as Hpush.
  destruct (pushed_fields st) as (_ & _ & Hpp & _ & Hra & Hro).
  assert (Htail : forall order, order = play_order st ->
    (pos <- get play_pos ;;
     if pos + 1 >=? Py.len order
     then
       all <- get repeat_all ;;
       if all
       then modify (set_play_pos 0) ;;; _load_current_and_play
       else ret Stopped
     else modify (set_play_pos (pos + 1)) ;;; _load_current_and_play)
      (pushed st)
    = Ok (Stopped, pushed st)).
  { intros order ->. unfold bind at 1, get at 1. rewrite Hpp.
    destruct (Z.geb_spec (play_pos st + 1) (Py.len (play_order st))); [|lia].
    unfold bind, get, ret. by rewrite Hra, Hall. }
  split.
  - unfold Full.play_next, bind at 1, get at 1.
    destruct (play_order st) as [|b o] eqn:Ho; [done|].
    unfold bind at 1. rewrite current_track_index_run, Ho.
    rewrite (bind_ok _ _ _ _ _ Hpush).
    unfold bind at 1, get at 1. rewrite Hro, Hone. by apply Htail.
  - unfold Auto.play_next, bind at 1, get at 1.
    destruct (play_order st) as [|b o] eqn:Ho; [done|].
    unfold bind at 1, get at 1. rewrite Hone.
    unfold bind at 1. rewrite current_track_index_run, Ho.
    rewrite (bind_ok _ _ _ _ _ Hpush). by apply Htail.
Qed.

Lemma forward_step_stops_at_end_witness :
  Full.play_next end_session = Ok (Stopped, set_history [2] end_session)
  /\ Auto.play_next end_session = Ok (Stopped, set_history [2] end_session).
Proof.
  apply (forward_step_stops_at_end end_session);
    [discriminate | reflexivity | reflexivity | reflexivity].
Defined.

(** X3.  With repeat-one on and a cursor inside a play order of
    registry indices, a forward step of the autoplay variant and the
    end-of-track callback of the full variant replay the current track
    and leave the whole session, history included, as it was. *)
Theorem repeat_one_replays_in_place (st : state) :
  repeat_one st = true ->
  registered (tracks st) (play_order st) ->
  0 <= play_pos st < Py.len (play_order st) ->
  exists loc,
    Auto.play_next st
    = Ok (Playing (current_of (play_order st) (play_pos st)) loc, st)
    /\ Full._handle_track_end st
       = Ok (Playing (current_of (play_order st) (play_pos st)) loc, st).
Proof.
  intros Hone Hreg Hpos.
  destruct (now_playing_in_range st Hreg Hpos) as (_ & loc & Hloc).
  exists loc. rewrite <- Hloc. split.
  - apply auto_play_next_repeat_one; [done| |done].
    intros Hnil. rewrite Hnil in Hpos. unfold Py.len in Hpos. cbn in Hpos. lia.
  - by apply full_track_end_repeat_one.
Qed.

Lemma repeat_one_replays_in_place_witness :
  exists loc,
    Auto.play_next repeat_one_session
    = Ok (Playing 1 loc, repeat_one_session)
    /\ Full._handle_track_end repeat_one_session
       = Ok (Playing 1 loc, repeat_one_session).
Proof.
  apply (repeat_one_replays_in_place repeat_one_session);
    [reflexivity | solve_registered | unfold Py.len; cbn; lia].
Defined.
End ForwardEdges.

(** ** Going forward and back again *)

Section ForwardBackward.
Import Sequencer.

Lemma pop_snoc {A} (h : list A) (x : A) : Py.pop (h ++ [x]) = Some (x, h).
Proof.
  unfold Py.pop. rewrite reverse_app.
  change (reverse [x]) with [x]. cbn [app].
  by rewrite reverse_involutive.
Qed.

Lemma seek_run (idx : Z) (st : state) :
  idx ∈ play_order st ->
  (i <- lift (Py.index idx (play_order st)) ;; modify (set_play_pos i)) st
  = Ok (tt, set_play_pos (index_or idx (play_order st) 0) st).
Proof.
  intros Hin. destruct (index_or_found idx (play_order st) 0 Hin) as (Hi & _).
  unfold bind, lift, modify. by rewrite Hi.
Qed.

Lemma full_jump_run_known (idx : Z) (st : state) :
  0 <= idx < Py.len (tracks st) ->
  idx ∈ play_order st ->
  registered (tracks st) (play_order st) ->
  let st' := set_play_pos (index_or idx (play_order st) 0) st in
  Full._play_by_track_index idx st = Ok (now_playing st', st').
Proof.
  intros Hidx Hin Hreg. cbv zeta.
  unfold Full._play_by_track_index, bind at 1, get at 1.
  destruct (Z.ltb_spec idx 0); [lia|].
  destruct (Z.geb_spec idx (Py.len (tracks st))); [lia|]. cbn [orb].
  unfold bind at 1, get at 1.
  rewrite (proj2 (contains_elem _ _) Hin).
  rewrite (bind_ok _ _ _ _ _ (seek_run idx st Hin)).
  by rewrite load_current_and_play_run.
Qed.

Lemma full_play_prev_pops (st : state) (h : list Z) (idx : Z) :
  play_order st <> [] ->
  history st = h ++ [idx] ->
  Full.play_prev st = Full._play_by_track_index idx (set_history h st).
Proof.
  intros Hne Hh. unfold Full.play_prev, bind at 1, get at 1.
  destruct (play_order st) as [|b o]; [done|].
  unfold bind at 1, get at 1. rewrite Hh, pop_snoc.
  by unfold bind, modify.
Qed.

Lemma auto_play_prev_pops_known (st : state) (h : list Z) (idx : Z) :
  idx ∈ play_order st ->
  history st = h ++ [idx] ->
  registered (tracks st) (play_order st) ->
  let st' := set_play_pos (index_or idx (play_order st) 0)
                          (set_history h st) in
  Auto.play_prev st = Ok (now_playing st', st').
Proof.
  intros Hin Hh Hreg. cbv zeta.
  destruct (index_or_found idx (play_order st) 0 Hin) as (Hi & _).
  pose proof (proj2 (contains_elem _ _) Hin) as Hc.
  pose proof (load_current_and_play_run
                (set_play_pos (index_or idx (play_order st) 0)
                              (set_history h st)) Hreg) as Hload.
  unfold Auto.play_prev, bind at 1, get at 1.
  destruct (play_order st) as [|b o] eqn:Ho.
  { by apply elem_of_nil in Hin. }
  unfold bind at 1, get at 1. rewrite Hh, pop_snoc.
  unfold bind at 1, modify at 1. rewrite Hc.
  unfold bind at 1, lift at 1. rewrite Hi.
  unfold bind at 1, modify at 1. exact Hload.
Qed.

(** X4.  From a cursor inside a play order of registry indices, with
    repeat-one off, a forward step followed by a backward step returns
    to the track that was current: the backward step plays it again
    and leaves the history as it was before the forward step.  The
    full and the autoplay variant go through the same states. *)
Theorem forward_then_backward_returns (st : state) :
  registered (tracks st) (play_order st) ->
  0 <= play_pos st < Py.len (play_order st) ->
  repeat_one st = false ->
  exists sig st1 loc st2,
    Full.play_next st = Ok (sig, st1)
    /\ Auto.play_next st = Ok (sig, st1)
    /\ Full.play_prev st1
       = Ok (Playing (current_of (play_order st) (play_pos st)) loc, st2)
    /\ Auto.play_prev st1
       = Ok (Playing (current_of (play_order st) (play_pos st)) loc, st2)
    /\ history st2 = history st
    /\ current_of (play_order st2) (play_pos st2)
       = current_of (play_order st) (play_pos st).
Proof.
  intros Hreg Hpos Hone.
  set (cur := current_of (play_order st) (play_pos st)).
  assert (Hne : play_order st <> []).
  { intros Hnil. rewrite Hnil in Hpos. unfold Py.len in Hpos. cbn in Hpos. lia. }
  assert (Hin : cur ∈ play_order st).
  { apply current_of_in_range in Hpos. by apply list_elem_of_lookup_2 in Hpos. }
  assert (Hcur : 0 <= cur < Py.len (tracks st)).
  { unfold registered in Hreg. rewrite Forall_forall in Hreg. by apply Hreg. }
  assert (Hpushed : pushed st = set_history (history st ++ [cur]) st).
  { unfold pushed. fold cur. destruct (Z.eqb_spec cur (-1)); [lia|done]. }
  set (st1 := (advanced (pushed st)).2).
  assert (Hfields : tracks st1 = tracks st /\ play_order st1 = play_order st
                    /\ history st1 = history st ++ [cur]).
  { subst st1. unfold advanced. rewrite Hpushed.
    destruct (_ >=? _); [destruct (repeat_all _)|]; done. }
  destruct Hfields as (Ht1 & Ho1 & Hh1).
  set (st2 := set_play_pos (index_or cur (play_order st1) 0)
                           (set_history (history st) st1)).
  destruct (index_or_found cur (play_order st1) 0) as (_ & Hr & Hl);
    [by rewrite Ho1|].
  assert (Hreg1 : registered (tracks st1) (play_order st1)).
  { by rewrite Ht1, Ho1. }
  destruct (now_playing_at (set_history (history st) st1)
              (index_or cur (play_order st1) 0) cur Hreg1 Hr Hl)
    as (loc & Hloc).
  exists (advanced (pushed st)).1, st1, loc, st2.
  split_and!.
  - rewrite (full_play_next_run st Hne Hreg), Hone. by destruct (advanced _).
  - rewrite (auto_play_next_run st Hne Hone Hreg). by destruct (advanced _).
  - rewrite (full_play_prev_pops st1 (history st) cur); [|by rewrite Ho1|done].
    rewrite <- Hloc.
    apply (full_jump_run_known cur (set_history (history st) st1));
      [by cbn; rewrite Ht1 | by cbn; rewrite Ho1 | done].
  - rewrite <- Hloc.
    apply (auto_play_prev_pops_known st1 (history st) cur);
      [by rewrite Ho1 | done | done].
  - done.
  - by apply current_of_lookup.
Qed.

Lemma forward_then_backward_returns_witness :
  exists sig st1 loc st2,
    Full.play_next plain_session = Ok (sig, st1)
    /\ Auto.play_next plain_session = Ok (sig, st1)
    /\ Full.play_prev st1 = Ok (Playing 1 loc, st2)
    /\ Auto.play_prev st1 = Ok (Playing 1 loc, st2)
    /\ history st2 = history plain_session
    /\ current_of (play_order st2) (play_pos st2) = 1.
Proof.
  apply (forward_then_backward_returns plain_session);
    [solve_registered | unfold Py.len; cbn; lia | reflexivity].
Defined.
End ForwardBackward.

(** ** Shuffle toggle, double click, filtered history *)

Section Jumps.
Import Sequencer.

Lemma locate_run (idx : Z) (st : state) :
  (if Py.contains idx (play_order st)
   then i <- lift (Py.index idx (play_order st)) ;; modify (set_play_pos i)
   else
     _rebuild_play_order false ;;;
     order' <- get play_order ;;
     if Py.contains idx order'
     then i <- lift (Py.index idx order') ;; modify (set_play_pos i)
     else ret tt) st
  = Ok (tt, located idx st).
Proof.
  unfold located. destruct (Py.contains idx (play_order st)) eqn:Hc.
  - apply contains_elem in Hc. by apply seek_run.
  - unfold bind at 1. rewrite rebuild_play_order_run.
    unfold bind at 1, get at 1. cbv zeta.
    destruct (Py.contains idx (play_order (rebuilt false st))) eqn:Hc';
      [|done].
    apply contains_elem in Hc'. by apply seek_run.
Qed.

Lemma located_fields (idx : Z) (st : state) :
  tracks (located idx st) = tracks st
  /\ history (located idx st) = history st
  /\ visible_indices (located idx st) = visible_indices st
  /\ play_order (located idx st) ≡ₚ
       (if Py.contains idx (play_order st) then play_order st
        else visible_indices st).
Proof.
  unfold located. destruct (Py.contains idx (play_order st)); [done|].
  cbv zeta. destruct (Py.contains idx (play_order (rebuilt false st)));
    split_and!; try done; apply reorder_perm.
Qed.

Lemma located_current (idx : Z) (st : state) :
  idx ∈ play_order st \/ idx ∈ visible_indices st ->
  current_of (play_order (located idx st)) (play_pos (located idx st)) = idx
  /\ 0 <= play_pos (located idx st) < Py.len (play_order (located idx st)).
Proof.
  intros Hin. unfold located.
  destruct (Py.contains idx (play_order st)) eqn:Hc.
  - apply contains_elem in Hc.
    destruct (index_or_found idx (play_order st) 0 Hc) as (_ & Hr & Hl).
    split; [by apply current_of_lookup | done].
  - cbv zeta.
    assert (Hin' : idx ∈ play_order (rebuilt false st)).
    { destruct Hin as [Hin|Hin].
      - apply contains_elem in Hin. congruence.
      - change (play_order (rebuilt false st)) with (reorder st).1.
        by rewrite reorder_perm. }
    rewrite (proj2 (contains_elem _ _) Hin').
    destruct (index_or_found idx (play_order (rebuilt false st)) 0 Hin')
      as (_ & Hr & Hl).
    split; [by apply current_of_lookup | done].
Qed.

Lemma registered_located (idx : Z) (st : state) :
  session_ok st ->
  registered (tracks (located idx st)) (play_order (located idx st)).
Proof.
  intros (_ & Hvis & Hreg).
  destruct (located_fields idx st) as (-> & _ & _ & Hperm).
  unfold registered. rewrite Hperm. by destruct (Py.contains _ _).
Qed.

Lemma full_jump_run (idx : Z) (st : state) :
  session_ok st ->
  0 <= idx < Py.len (tracks st) ->
  Full._play_by_track_index idx st
  = Ok (now_playing (located idx st), located idx st).
Proof.
  intros Hok Hidx. unfold Full._play_by_track_index, bind at 1, get at 1.
  destruct (Z.ltb_spec idx 0); [lia|].
  destruct (Z.geb_spec idx (Py.len (tracks st))); [lia|]. cbn [orb].
  unfold bind at 1, get at 1.
  rewrite (bind_ok _ _ _ _ _ (locate_run idx st)).
  by rewrite load_current_and_play_run by by apply registered_located.
Qed.

(** X5.  A double click on a row of the list plays the track of that
    row: in a session that satisfies the invariant, the handler of
    the full variant and the one of the autoplay variant return with
    the same state, in which the registry index shown in the row is
    current, and leave the history alone. *)
Theorem double_click_plays_row (row idx : Z) (st : state) :
  session_ok st ->
  0 <= row ->
  visible_indices st !! Z.to_nat row = Some idx ->
  exists loc st',
    Full._on_item_double_clicked row st = Ok (Playing idx loc, st')
    /\ Auto._on_item_double_clicked row st = Ok (Playing idx loc, st')
    /\ current_of (play_order st') (play_pos st') = idx
    /\ history st' = history st.
Proof.
  intros Hok Hrow Hidx.
  assert (Hlt : row < Py.len (visible_indices st)).
  { apply lookup_lt_Some in Hidx. unfold Py.len. lia. }
  destruct (getitem_in_range (visible_indices st) row) as (i & Hi & Hg);
    [lia|]. rewrite Hidx in Hi. injection Hi as <-.
  assert (Hin : idx ∈ visible_indices st).
  { by apply list_elem_of_lookup_2 in Hidx. }
  assert (Hr : 0 <= idx < Py.len (tracks st)).
  { destruct Hok as (_ & Hvis & _). unfold registered in Hvis.
    rewrite Forall_forall in Hvis. by apply Hvis. }
  destruct (located_current idx st (or_intror Hin)) as (Hcur & Hpos).
  destruct (located_fields idx st) as (Hts & Hh & _).
  pose proof (registered_located idx st Hok) as Hreg.
  destruct (now_playing_in_range (located idx st) Hreg Hpos) as (_ & loc & Hloc).
  rewrite Hcur in Hloc.
  exists loc, (located idx st). split_and!; [| |done|done].
  - unfold Full._on_item_double_clicked, bind at 1, get at 1.
    destruct (Z.ltb_spec row 0); [lia|].
    destruct (Z.geb_spec row (Py.len (visible_indices st))); [lia|].
    cbn [orb]. unfold bind at 1, lift at 1. rewrite Hg.
    rewrite <- Hloc. by apply full_jump_run.
  - unfold Auto._on_item_double_clicked, bind at 1, get at 1.
    destruct (Z.ltb_spec row 0); [lia|].
    destruct (Z.geb_spec row (Py.len (visible_indices st))); [lia|].
    cbn [orb]. unfold bind at 1, lift at 1. rewrite Hg.
    unfold bind at 1, get at 1.
    rewrite (bind_ok _ _ _ _ _ (locate_run idx st)).
    rewrite load_current_and_play_run by done. by rewrite Hloc.
Qed.

Lemma plain_session_ok : session_ok plain_session.
Proof.
  split_and!; [|solve_registered..].
  split; [unfold Py.len; cbn; lia | discriminate].
Defined.

Lemma double_click_plays_row_witness :
  exists loc st',
    Full._on_item_double_clicked 2 plain_session = Ok (Playing 2 loc, st')
    /\ Auto._on_item_double_clicked 2 plain_session = Ok (Playing 2 loc, st')
    /\ current_of (play_order st') (play_pos st') = 2
    /\ history st' = history plain_session.
Proof.
  apply (double_click_plays_row 2 2 plain_session);
    [exact plain_session_ok | lia | reflexivity].
Defined.
End Jumps.

Section HistoryEdges.
Import Sequencer.

Lemma not_contains (x : Z) (l : list Z) : x ∉ l -> Py.contains x l = false.
Proof.
  intros Hx. destruct (Py.contains x l) eqn:Hc; [|done].
  by apply contains_elem in Hc.
Qed.

(** X6.  A backward step that pops a history entry which the filter
    has hidden: the full variant rebuilds the play order without
    keeping the current track and plays from the cursor the rebuild
    chooses, while the autoplay variant only drops the entry and moves
    the cursor one step back. *)
Theorem backward_step_over_hidden_track (st : state) (h : list Z) (idx : Z) :
  session_ok st ->
  play_order st <> [] ->
  history st = h ++ [idx] ->
  0 <= idx < Py.len (tracks st) ->
  idx ∉ play_order st ->
  idx ∉ visible_indices st ->
  let s1 := rebuilt false (set_history h st) in
  let s2 := set_play_pos
              (back_target (play_order st) (play_pos st) (repeat_all st))
              (set_history h st) in
  Full.play_prev st = Ok (now_playing s1, s1)
  /\ Auto.play_prev st = Ok (now_playing s2, s2).
Proof.
  intros Hok Hne Hh Hidx Hno Hnv. cbv zeta. split.
  - rewrite (full_play_prev_pops st h idx Hne Hh).
    rewrite (full_jump_run idx (set_history h st));
      [|by apply session_ok_set_history|done].
    unfold located. cbn [play_order set_history].
    rewrite (not_contains _ _ Hno). cbv zeta.
    assert (Hno' : idx ∉ play_order (rebuilt false (set_history h st))).
    { change (play_order (rebuilt false (set_history h st)))
        with (reorder (set_history h st)).1.
      by rewrite reorder_perm. }
    by rewrite (not_contains _ _ Hno').
  - destruct Hok as (_ & _ & Hreg).
    pose proof (step_back_run (play_order st) (set_history h st) Hreg) as Hb.
    unfold Auto.play_prev, bind at 1, get at 1.
    destruct (play_order st) as [|b o] eqn:Ho; [done|].
    unfold bind at 1, get at 1. rewrite Hh, pop_snoc.
    unfold bind at 1, modify at 1.
    by rewrite (not_contains _ _ Hno).
Qed.

Lemma backward_step_over_hidden_track_witness :
  Full.play_prev filtered_session
  = Ok (Playing 1 "/m/b.mp3", set_history [] filtered_session)
  /\ Auto.play_prev filtered_session
     = Ok (Playing 1 "/m/b.mp3", set_history [] filtered_session).
Proof.
  refine (backward_step_over_hidden_track filtered_session [] 0 _ _ _ _ _ _).
  - split_and!; [|solve_registered..].
    split; [unfold Py.len; cbn; lia | discriminate].
  - discriminate.
  - reflexivity.
  - unfold Py.len. cbn. lia.
  - intros Hin. apply list_elem_of_In in Hin. cbn in Hin.
    destruct Hin as [Hin|[]]. discriminate Hin.
  - intros Hin. apply list_elem_of_In in Hin. cbn in Hin.
    destruct Hin as [Hin|[]]. discriminate Hin.
Defined.

Lemma full_play_prev_steps_back (st : state) :
  play_order st <> [] -> history st = [] ->
  registered (tracks st) (play_order st) ->
  let st' :=
    set_play_pos (back_target (play_order st) (play_pos st) (repeat_all st))
                 st in
  Full.play_prev st = Ok (now_playing st', st').
Proof.
  intros Hne Hh Hreg. cbv zeta. unfold Full.play_prev, bind, get.
  destruct (play_order st) as [|b o] eqn:Ho; [done|].
  rewrite Hh, pop_nil. rewrite <- Ho in *.
  unfold modify. by rewrite load_current_and_play_run.
Qed.

(** X7.  Ticking or clearing the shuffle box empties the history and
    rebuilds the play order as a permutation of the filter view; a
    current track that is in the filter view stays current; and the
    next backward step, finding no history, moves the cursor one step
    back in the new play order. *)
Theorem shuffle_toggle_forgets_history (checked : bool) (st : state) :
  registered (tracks st) (visible_indices st) ->
  exists st1,
    Full._on_shuffle_changed checked st = Ok (tt, st1)
    /\ shuffle st1 = checked
    /\ history st1 = []
    /\ play_order st1 ≡ₚ visible_indices st
    /\ (current_of (play_order st) (play_pos st) ∈ visible_indices st ->
        current_of (play_order st1) (play_pos st1)
        = current_of (play_order st) (play_pos st))
    /\ (play_order st1 <> [] ->
        let st2 :=
          set_play_pos
            (back_target (play_order st1) (play_pos st1) (repeat_all st1))
            st1 in
        Full.play_prev st1 = Ok (now_playing st2, st2)).
Proof.
  intros Hvis.
  set (s0 := set_history [] (set_shuffle checked st)).
  exists (rebuilt true s0).
  assert (Hperm : play_order (rebuilt true s0) ≡ₚ visible_indices st).
  { change (play_order (rebuilt true s0)) with (reorder s0).1.
    by rewrite reorder_perm. }
  split_and!; [|done|done|done| |].
  - unfold Full._on_shuffle_changed, bind, modify.
    by rewrite rebuild_play_order_run.
  - intros Hin.
    change (play_pos (rebuilt true s0)) with
      (rebuilt_pos true (current_of (play_order st) (play_pos st))
                   (reorder s0).1).
    change (play_order (rebuilt true s0)) with (reorder s0).1.
    apply rebuilt_pos_current.
    change (reorder s0).1 with (play_order (rebuilt true s0)).
    by rewrite Hperm.
  - intros Hne. apply full_play_prev_steps_back; [done|done|].
    unfold registered. rewrite Hperm. exact Hvis.
Qed.

Lemma shuffle_toggle_forgets_history_witness :
  exists st1,
    Full._on_shuffle_changed true history_session = Ok (tt, st1)
    /\ shuffle st1 = true
    /\ history st1 = []
    /\ current_of (play_order st1) (play_pos st1) = 2.
Proof.
  destruct (shuffle_toggle_forgets_history true history_session)
    as (st1 & Hrun & Hsh & Hh & _ & Hcur & _); [solve_registered|].
  exists st1. split_and!; [exact Hrun | exact Hsh | exact Hh |].
  apply Hcur. apply list_elem_of_In. cbn. auto.
Defined.
End HistoryEdges.

(** ** The Play/Pause button *)

Section PlayPause.
Import Sequencer.

(** X8.  Play/Pause over a play order of registry indices: with a
    cursor outside the play order the first entry of the play order
    becomes current and is played, whatever the engine is doing; with
    a cursor inside it the session is left as it is and the engine is
    paused when it plays and resumed when it does not. *)
Theorem play_pause_starts_first_track (is_playing : bool) (st : state)
        (first : Z) (rest : list Z) :
  play_order st = first :: rest ->
  registered (tracks st) (play_order st) ->
  (play_pos st < 0 \/ Py.len (play_order st) <= play_pos st ->
   exists loc,
     Full.toggle_play_pause is_playing st
     = Ok (Playing first loc, set_play_pos 0 st))
  /\ (0 <= play_pos st < Py.len (play_order st) ->
      Full.toggle_play_pause is_playing st
      = Ok (if is_playing then Paused else Resumed, st)).
Proof.
  intros Ho Hreg. split.
  - intros Hout.
    destruct (now_playing_at st 0 first Hreg) as (loc & Hloc).
    { rewrite Ho. unfold Py.len. cbn [length]. lia. }
    { by rewrite Ho. }
    exists loc. unfold Full.toggle_play_pause, bind at 1, get at 1.
    rewrite Ho. unfold bind at 1. rewrite current_track_index_run.
    rewrite current_of_out_of_range by done.
    change (-1 =? -1) with true. cbv iota. unfold bind, modify.
    by rewrite load_current_and_play_run, Hloc.
  - intros Hin.
    destruct (now_playing_in_range st Hreg Hin) as (Hcur & _).
    unfold Full.toggle_play_pause, bind at 1, get at 1.
    rewrite Ho. unfold bind at 1. rewrite current_track_index_run.
    apply Z.eqb_neq in Hcur. rewrite Hcur.
    by destruct is_playing.
Qed.

Lemma play_pause_starts_first_track_witness :
  (exists loc,
      Full.toggle_play_pause true fresh_session
      = Ok (Playing 0 loc, set_play_pos 0 fresh_session))
  /\ Full.toggle_play_pause true plain_session = Ok (Paused, plain_session).
Proof.
  split.
  - apply (play_pause_starts_first_track true fresh_session 0 [1; 2]);
      [reflexivity | solve_registered | left; cbn; lia].
  - apply (play_pause_starts_first_track true plain_session 0 [1; 2]);
      [reflexivity | solve_registered | unfold Py.len; cbn; lia].
Defined.
End PlayPause.

(** ** What the filter shows *)

Section FilterView.
Import Sequencer.

Lemma collect_loop_spec (f : Track -> bool) (ts : list Track) (i : Z)
      (acc : list Z) :
  exists l,
    foldl (fun acc it => if f it.2 then acc ++ [it.1] else acc)
          acc (Py.enumerate_from i ts)
    = acc ++ l
    /\ StronglySorted Z.lt l
    /\ forall j, j ∈ l <->
                 i <= j /\ exists t, ts !! Z.to_nat (j - i) = Some t
                                     /\ f t = true.
Proof.
  revert i acc. induction ts as [|t ts IH]; intros i acc.
  - exists []. cbn. rewrite app_nil_r. split_and!; [done|constructor|].
    intros j. split; [by intros ?%elem_of_nil | by intros (_ & t & ? & _)].
  - cbn [Py.enumerate_from foldl]. cbn [fst snd].
    destruct (IH (i + 1) (if f t then acc ++ [i] else acc))
      as (l & Hrun & Hsorted & Hmem).
    assert (Hlow : Forall (Z.lt i) l).
    { apply Forall_forall. intros j Hj. apply Hmem in Hj. lia. }
    assert (Hshift : forall j, i + 1 <= j ->
               (t :: ts) !! Z.to_nat (j - i) = ts !! Z.to_nat (j - (i + 1))).
    { intros j Hj. replace (Z.to_nat (j - i))
        with (S (Z.to_nat (j - (i + 1)))) by lia. done. }
    destruct (f t) eqn:Hm.
    + exists (i :: l). rewrite Hrun, <- app_assoc. split_and!; [done| |].
      * by constructor.
      * intros j. rewrite elem_of_cons, Hmem. split.
        -- intros [->|(Hj & u & Hu & Hq)].
           ++ split; [lia|]. exists t. by rewrite Z.sub_diag.
           ++ split; [lia|]. exists u. by rewrite Hshift.
        -- intros (Hj & u & Hu & Hq).
           destruct (decide (j = i)) as [->|Hne]; [by left|right].
           split; [lia|]. exists u. by rewrite <- Hshift by lia.
    + exists l. rewrite Hrun. split_and!; [done|done|].
      intros j. rewrite Hmem. split.
      * intros (Hj & u & Hu & Hq). split; [lia|]. exists u.
        by rewrite Hshift.
      * intros (Hj & u & Hu & Hq).
        destruct (decide (j = i)) as [->|Hne].
        { rewrite Z.sub_diag in Hu. change (Z.to_nat 0) with 0%nat in Hu.
          cbn in Hu. injection Hu as ->. congruence. }
        split; [lia|]. exists u. by rewrite <- Hshift by lia.
Qed.

(** X9.  The filter view that [_apply_filter] leaves lists, in
    strictly increasing order, exactly the registry indices of the
    tracks whose title, artist and album line matches the stripped,
    lower-cased search text; the registry itself is not touched. *)
Theorem filter_view_is_the_matching_indices (st : state) :
  exists st',
    _apply_filter st = Ok (tt, st')
    /\ tracks st' = tracks st
    /\ StronglySorted Z.lt (visible_indices st')
    /\ forall i,
        i ∈ visible_indices st' <->
        0 <= i /\ exists t, tracks st !! Z.to_nat i = Some t
                            /\ matches (query_of (search st)) t = true.
Proof.
  eexists. split; [apply apply_filter_run|].
  cbn [tracks visible_indices rebuilt set_play_pos set_play_order set_rng
       set_visible_indices].
  split; [done|]. unfold collect_visible, Py.enumerate.
  destruct (collect_loop_spec (matches (query_of (search st))) (tracks st)
                              0 [])
    as (l & -> & Hsorted & Hmem).
  cbn [app]. split; [done|]. intros i. rewrite Hmem.
  by rewrite Z.sub_0_r.
Qed.
End FilterView.

(** ** Letter case of the search text *)

Section QueryCase.
Import Sequencer.

Lemma lower_char_idem (c : ascii) :
  Py.lower_char (Py.lower_char c) = Py.lower_char c.
Proof. by destruct c as [[] [] [] [] [] [] [] []]. Qed.

Lemma isspace_lower_char (c : ascii) :
  Py.isspace (Py.lower_char c) = Py.isspace c.
Proof. by destruct c as [[] [] [] [] [] [] [] []]. Qed.

Lemma lower_idem (s : string) : Py.lower (Py.lower s) = Py.lower s.
Proof.
  induction s as [|c s IH]; [done|]. cbn [Py.lower].
  by rewrite lower_char_idem, IH.
Qed.

Lemma lower_lstrip (s : string) :
  Py.lower (Py.lstrip s) = Py.lstrip (Py.lower s).
Proof.
  induction s as [|c s IH]; [done|]. cbn [Py.lower Py.lstrip].
  rewrite isspace_lower_char. by destruct (Py.isspace c).
Qed.

Lemma lower_rev_app (s1 s2 : string) :
  Py.lower (String.rev_app s1 s2)
  = String.rev_app (Py.lower s1) (Py.lower s2).
Proof.
  revert s2. induction s1 as [|c s1 IH]; intros s2; [done|].
  cbn [String.rev_app Py.lower]. by rewrite IH.
Qed.

Lemma lower_rev (s : string) :
  Py.lower (String.rev s) = String.rev (Py.lower s).
Proof. apply lower_rev_app. Qed.

Lemma lower_strip (s : string) :
  Py.lower (Py.strip s) = Py.strip (Py.lower s).
Proof.
  unfold Py.strip, Py.rstrip.
  by rewrite lower_rev, lower_lstrip, lower_rev, lower_lstrip.
Qed.

Lemma query_of_lower (text : string) :
  query_of (Py.lower text) = query_of text.
Proof.
  unfold query_of.
  assert (Ht : forall s, (if Py.truthy s then s else EmptyString) = s).
  { by intros []. }
  by rewrite !Ht, <- lower_strip, lower_idem.
Qed.

(** X10.  The filter does not look at the letter case of the search
    text: typing a text and typing the same text in lower case leave
    the same filter view, the same play order and the same cursor. *)
Theorem search_ignores_case_of_query (text : string) (st : state) :
  exists s1 s2,
    Full.search_text_changed text st = Ok (tt, s1)
    /\ Full.search_text_changed (Py.lower text) st = Ok (tt, s2)
    /\ visible_indices s1 = visible_indices s2
    /\ play_order s1 = play_order s2
    /\ play_pos s1 = play_pos s2.
Proof.
  eexists _, _.
  split; [unfold Full.search_text_changed, bind, modify;
          apply apply_filter_run|].
  split; [unfold Full.search_text_changed, bind, modify;
          apply apply_filter_run|].
  cbn [search set_search tracks]. rewrite query_of_lower. done.
Qed.
End QueryCase.

(** ** Imports of the full variant *)

Section ImportFacts.
Context `{Host}.
Import Sequencer.

Lemma set_tracks_same (st : state) : set_tracks (tracks st) st = st.
Proof. by destruct st. Qed.

Lemma known_app (p : PurePath) (ts extra : list Track) :
  Full.known p (ts ++ extra) = Full.known p ts || Full.known p extra.
Proof. unfold Full.known. apply existsb_app. Qed.

Lemma known_read_metadata (p : PurePath) :
  Full.known p [Full._read_metadata p] = true.
Proof.
  unfold Full.known. cbn [existsb]. rewrite path_of_read_metadata.
  by rewrite Path_str.
Qed.

Lemma add_loop_extra (paths : list PurePath) (ts : list Track) (added : Z) :
  exists extra,
    Full.add_loop paths ts added = (ts ++ extra, added + Py.len extra)
    /\ Forall (fun t => exists p, p ∈ paths /\ on_disk p = true
                                  /\ t = Full._read_metadata p) extra
    /\ forall p, p ∈ paths -> on_disk p = true ->
                 Full.known p (ts ++ extra) = true.
Proof.
  revert ts added. induction paths as [|p paths IH]; intros ts added.
  - exists []. rewrite app_nil_r. unfold Py.len. cbn.
    split_and!; [f_equal; lia | constructor |].
    by intros p ?%elem_of_nil.
  - cbn [Full.add_loop]. destruct (on_disk p) eqn:Hd; cbn [negb].
    + destruct (Full.known p ts) eqn:Hk.
      * destruct (IH ts added) as (extra & Hrun & Hex & Hkn).
        exists extra. split_and!; [done| |].
        -- eapply Forall_impl; [exact Hex|].
           intros t (q & Hq & Hqd & Ht). exists q.
           split; [by right | done].
        -- intros q [->|Hq]%elem_of_cons Hqd; [|by apply Hkn].
           by rewrite known_app, Hk.
      * destruct (IH (ts ++ [Full._read_metadata p]) (added + 1))
          as (extra & Hrun & Hex & Hkn).
        exists (Full._read_metadata p :: extra).
        rewrite Hrun, <- app_assoc. split_and!.
        -- f_equal. unfold Py.len. cbn [length]. lia.
        -- constructor.
           ++ exists p. split; [by left | done].
           ++ eapply Forall_impl; [exact Hex|].
              intros t (q & Hq & Hqd & Ht). exists q.
              split; [by right | done].
        -- intros q [->|Hq]%elem_of_cons Hqd.
           ++ change (Full._read_metadata p :: extra)
                with ([Full._read_metadata p] ++ extra).
              rewrite !known_app, known_read_metadata.
              by rewrite orb_true_r.
           ++ rewrite <- app_assoc in Hkn. by apply Hkn.
    + destruct (IH ts added) as (extra & Hrun & Hex & Hkn).
      exists extra. split_and!; [done| |].
      * eapply Forall_impl; [exact Hex|].
        intros t (q & Hq & Hqd & Ht). exists q. split; [by right | done].
      * intros q [->|Hq]%elem_of_cons Hqd; [congruence | by apply Hkn].
Qed.

Lemma add_loop_nothing_new (paths : list PurePath) (ts : list Track)
      (added : Z) :
  (forall p, p ∈ paths -> on_disk p = true -> Full.known p ts = true) ->
  Full.add_loop paths ts added = (ts, added).
Proof.
  induction paths as [|p paths IH]; intros Hkn; [done|].
  cbn [Full.add_loop]. destruct (on_disk p) eqn:Hd; cbn [negb].
  - rewrite (Hkn p) by (done || by left). apply IH.
    intros q Hq. apply Hkn. by right.
  - apply IH. intros q Hq. apply Hkn. by right.
Qed.

Lemma add_paths_run (paths : list PurePath) (st : state) :
  exists extra,
    (Full.add_loop paths (tracks st) 0).1 = tracks st ++ extra
    /\ Forall (fun t => exists p, p ∈ paths /\ on_disk p = true
                                  /\ t = Full._read_metadata p) extra
    /\ (forall p, p ∈ paths -> on_disk p = true ->
                  Full.known p (tracks st ++ extra) = true)
    /\ Full._add_paths paths st
       = Ok (tt, match extra with
                 | [] => st
                 | _ :: _ =>
                     rebuilt false
                       (rebuilt true
                          (set_visible_indices
                             (collect_visible (query_of (search st))
                                              (tracks st ++ extra))
                             (set_tracks (tracks st ++ extra) st)))
                 end).
Proof.
  destruct (add_loop_extra paths (tracks st) 0) as (extra & Hrun & Hex & Hkn).
  exists extra. rewrite Hrun. split_and!; [done..|].
  unfold Full._add_paths, bind at 1, get at 1. rewrite Hrun.
  unfold bind at 1, modify at 1. destruct extra as [|t extra].
  - rewrite app_nil_r, set_tracks_same. done.
  - assert (Hn : negb (0 + Py.len (t :: extra) =? 0) = true).
    { unfold Py.len. cbn [length]. apply negb_true_iff, Z.eqb_neq. lia. }
    rewrite Hn. unfold bind. by rewrite apply_filter_run,
      rebuild_play_order_run.
Qed.

(** X11.  An import of the full variant only appends: the old
    registry is a prefix of the new one, and every appended record is
    the metadata of a listed path that exists on disk.  When nothing
    is appended the session is left exactly as it was; otherwise the
    history is kept, the play order is rebuilt, and the cursor is at
    offset 0 of a non-empty play order and at [-1] of an empty one. *)
Theorem import_appends_and_restarts (paths : list PurePath) (st : state) :
  exists extra st',
    Full._add_paths paths st = Ok (tt, st')
    /\ tracks st' = tracks st ++ extra
    /\ Forall (fun t => exists p, p ∈ paths /\ on_disk p = true
                                  /\ t = Full._read_metadata p) extra
    /\ (extra = [] -> st' = st)
    /\ (extra <> [] ->
        history st' = history st
        /\ play_order st' ≡ₚ visible_indices st'
        /\ play_pos st' = match play_order st' with [] => -1 | _ :: _ => 0 end).
Proof.
  destruct (add_paths_run paths st) as (extra & _ & Hex & _ & Hrun).
  exists extra. eexists. split; [exact Hrun|].
  destruct extra as [|t extra].
  - rewrite app_nil_r. split_and!; done.
  - split_and!; [done|done|done|]. intros _. split_and!; [done| |].
    + match goal with
      | |- play_order (rebuilt false ?s) ≡ₚ _ => exact (reorder_perm s)
      end.
    + match goal with
      | |- play_pos (rebuilt false ?s) = _ =>
          change (play_pos (rebuilt false s))
            with (rebuilt_pos false (current_of (play_order s) (play_pos s))
                              (reorder s).1);
          change (play_order (rebuilt false s)) with (reorder s).1;
          by destruct (reorder s).1
      end.
Qed.

(** X12.  Importing the same list of paths twice in a row: after
    the first import every listed file that exists is registered, so
    the second import finds nothing to add and leaves the session
    exactly as the first one left it. *)
Theorem import_twice_is_import_once (paths : list PurePath) (st : state) :
  exists st1,
    Full._add_paths paths st = Ok (tt, st1)
    /\ (forall p, p ∈ paths -> on_disk p = true ->
                  Full.known p (tracks st1) = true)
    /\ Full._add_paths paths st1 = Ok (tt, st1).
Proof.
  destruct (add_paths_run paths st) as (extra & _ & _ & Hkn & Hrun).
  eexists. split; [exact Hrun|].
  match goal with
  | |- _ /\ Full._add_paths paths ?s = _ => set (st1 := s)
  end.
  assert (Ht1 : tracks st1 = tracks st ++ extra).
  { subst st1. destruct extra; [by rewrite app_nil_r | done]. }
  split; [by rewrite Ht1|].
  unfold Full._add_paths, bind at 1, get at 1.
  rewrite add_loop_nothing_new by (by rewrite Ht1).
  unfold bind, modify, ret. cbn [negb Z.eqb]. by rewrite set_tracks_same.
Qed.
End ImportFacts.

(** ** Loading playlist documents *)

Section LoadFacts.
Context `{Host}.
Import Sequencer.

Lemma get_absent (key : string) (default : json)
      (members : list (string * json)) :
  key ∉ map fst members -> Json.get key default members = default.
Proof.
  unfold Json.get. revert default.
  induction members as [|[k v] members IH]; intros default Hk; [done|].
  cbn [foldl fst snd]. cbn [map fst] in Hk.
  apply not_elem_of_cons in Hk as [Hne Hk].
  destruct (String.eqb_spec k key) as [->|_]; [done|]. by apply IH.
Qed.

Lemma load_entry_asdict_any (t : Track) :
  Full.load_entry (Full.asdict t)
  = Ok (if loadable t then Some t else None).
Proof.
  destruct t as [p ti ar al d]. unfold loadable, Full.load_entry, Full.asdict.
  cbn. destruct p as [|c p]; [done|]. cbn.
  by destruct (on_disk _).
Qed.

Lemma load_loop_asdict_any (ts loaded : list Track) :
  Full.load_loop (map Full.asdict ts) loaded
  = Ok (loaded ++ List.filter loadable ts).
Proof.
  revert loaded. induction ts as [|t ts IH]; intros loaded.
  - cbn. by rewrite app_nil_r.
  - cbn [map Full.load_loop List.filter].
    rewrite load_entry_asdict_any. cbn [and_then].
    destruct (loadable t); rewrite IH; [|done].
    by rewrite <- app_assoc.
Qed.

Lemma load_playlist_loaded (payload listed : json) (items : list json)
      (loaded : list Track) (st : state) :
  Json.get_of payload "tracks" (JList []) = Ok listed ->
  Json.iterate listed = Ok items ->
  Full.load_loop items [] = Ok loaded ->
  Full.load_playlist payload st
  = Ok (tt, match loaded with
            | [] => st
            | _ :: _ =>
                rebuilt false
                  (rebuilt true
                     (set_visible_indices
                        (collect_visible (query_of (search st)) loaded)
                        (set_history [] (set_tracks loaded st))))
            end).
Proof.
  intros Hg Hi Hl. unfold Full.load_playlist, bind at 1, lift at 1.
  rewrite Hg. unfold bind at 1, lift at 1. rewrite Hi.
  unfold bind at 1, lift at 1. rewrite Hl.
  destruct loaded as [|t loaded]; [done|].
  unfold bind, modify. by rewrite apply_filter_run, rebuild_play_order_run.
Qed.

(** X13.  Loading a document that [save_playlist] wrote keeps, in
    their order, exactly the saved tracks whose path is not empty and
    still exists; the others are dropped.  When none is left the
    session is untouched; otherwise the registry is replaced by the
    kept tracks and the history is emptied. *)
Theorem load_keeps_the_existing_tracks (now : Z) (st st0 : state)
        (doc : json) :
  Full.save_playlist now st = Ok (Some doc, st) ->
  exists st1,
    Full.load_playlist doc st0 = Ok (tt, st1)
    /\ match List.filter loadable (tracks st) with
       | [] => st1 = st0
       | _ :: _ =>
           tracks st1 = List.filter loadable (tracks st)
           /\ history st1 = []
       end.
Proof.
  intros Hsave. unfold Full.save_playlist, bind, get, ret in Hsave.
  destruct (tracks st) as [|t ts] eqn:Htracks; [done|].
  injection Hsave as <-.
  eexists. split.
  - eapply load_playlist_loaded; [reflexivity | reflexivity |].
    apply (load_loop_asdict_any (t :: ts) []).
  - cbn [app]. by destruct (List.filter loadable (t :: ts)).
Qed.









(** X15.  An entry of a playlist document that has a non-empty,
    existing path and none of the keys title, artist, album and
    duration_ms is loaded with empty title, artist and album and with
    duration [-1]. *)
Theorem load_fills_in_defaults (members : list (string * json))
        (loc : string) :
  Json.get "path" (JStr "") members = JStr loc ->
  loc <> EmptyString ->
  on_disk (Path loc) = true ->
  "title"%string ∉ map fst members ->
  "artist"%string ∉ map fst members ->
  "album"%string ∉ map fst members ->
  "duration_ms"%string ∉ map fst members ->
  Full.load_entry (JDict members)
  = Ok (Some (mkTrack loc "" "" "" (-1))).
Proof.
  intros Hp Hne Hd Hti Har Hal Hdu.
  unfold Full.load_entry, Json.get_of, and_then.
  rewrite Hp. cbn [Json.truthy].
  destruct loc as [|c loc]; [done|]. cbn [Py.truthy negb]. rewrite Hd.
  cbn [negb]. by rewrite !get_absent by done.
Qed.

(** X16.  A document without a "tracks" member loads nothing and
    leaves the session untouched; a document whose top level is not an
    object makes [load_playlist] raise AttributeError. *)
Theorem load_without_track_list :
  (forall (members : list (string * json)) (st : state),
      "tracks"%string ∉ map fst members ->
      Full.load_playlist (JDict members) st = Ok (tt, st))
  /\ (forall (payload : json) (st : state),
        (forall members, payload <> JDict members) ->
        Full.load_playlist payload st = Raise AttributeError).
Proof.
  split.
  - intros members st Hno.
    rewrite (load_playlist_loaded (JDict members) (JList []) [] [] st);
      [done| |done|done].
    cbn [Json.get_of]. by rewrite get_absent.
  - intros payload st Hno. unfold Full.load_playlist, bind, lift.
    destruct payload; try done. by destruct (Hno members).
Qed.
End LoadFacts.

Section LoadSamples.

Lemma load_keeps_the_existing_tracks_witness :
  exists doc st1,
    Full.save_playlist 1700000000 plain_session
    = Ok (Some doc, plain_session)
    /\ @Full.load_playlist picky_host doc (initial []) = Ok (tt, st1)
    /\ tracks st1 = [track_a; track_c]
    /\ history st1 = [].
Proof.
  eexists.
  destruct (@load_keeps_the_existing_tracks picky_host 1700000000
              plain_session (initial []) _ eq_refl) as (st1 & Hload & Ht).
  exists st1. split; [reflexivity|]. split; [exact Hload | exact Ht].
Defined.


Lemma load_fills_in_defaults_witness :
  @Full.load_entry plain_host (JDict [("path"%string, JStr "/m/x.mp3")])
  = Ok (Some (mkTrack "/m/x.mp3" "" "" "" (-1))).
Proof.
  apply (@load_fills_in_defaults plain_host);
    [reflexivity | discriminate | reflexivity | compute_done..].
Defined.
End LoadSamples.

(** ** The end-of-track timer of the autoplay variant *)

Section EndOfTrack.
Import Sequencer.

Lemma set_session_same (w : Auto.timer) :
  Auto.set_session (Auto.session w) w = w.
Proof. by destruct w. Qed.

Lemma timer_current_run (w : Auto.timer) :
  Auto.on_session _current_track_index w
  = Ok (current_of (play_order (Auto.session w)) (play_pos (Auto.session w)),
        w).
Proof.
  unfold Auto.on_session. rewrite current_track_index_run.
  by rewrite set_session_same.
Qed.

Lemma maybe_autoplay_next_run (pos length : Z) (w : Auto.timer) :
  Auto._maybe_autoplay_next pos length w
  = Ok (due pos length w,
        if due pos length w
        then Auto.set_ended_fired
               (current_of (play_order (Auto.session w))
                           (play_pos (Auto.session w))) w
        else w).
Proof.
  unfold Auto._maybe_autoplay_next, due. cbn [Auto.auto_play negb].
  unfold bind at 1, get at 1.
  destruct (Auto._user_seeking w); [done|]. cbn [negb andb].
  destruct ((length <=? 0) || (pos <=? 0)); [done|]. cbn [negb andb].
  rewrite (bind_ok _ _ _ _ _ (timer_current_run w)).
  destruct (_ =? -1); [done|]. cbn [negb andb].
  destruct (length - pos >? 700); [done|]. cbn [negb andb].
  unfold bind, get, modify, ret.
  by destruct (Auto._ended_fired_for_track_idx w =? _).
Qed.

Lemma timer_load_run (w : Auto.timer) :
  registered (tracks (Auto.session w)) (play_order (Auto.session w)) ->
  Auto._load_current_and_play w
  = Ok (now_playing (Auto.session w),
        if current_of (play_order (Auto.session w))
                      (play_pos (Auto.session w)) =? -1
        then w else Auto.set_ended_fired (-1) w).
Proof.
  intros Hreg. unfold Auto._load_current_and_play, now_playing.
  rewrite (bind_ok _ _ _ _ _ (timer_current_run w)).
  destruct (Z.eqb_spec (current_of (play_order (Auto.session w))
                                   (play_pos (Auto.session w))) (-1))
    as [_|Hcur]; [done|].
  pose proof (current_of_registered _ _ _ Hreg Hcur) as Hr.
  destruct (getitem_in_range (tracks (Auto.session w)) _ Hr)
    as (t & Ht & Hg).
  unfold bind, get, modify, lift, ret. cbn [Auto.session Auto.set_ended_fired].
  by rewrite Hg, Ht.
Qed.

Lemma current_in_range_known (st : state) :
  registered (tracks st) (play_order st) ->
  0 <= play_pos st < Py.len (play_order st) ->
  (current_of (play_order st) (play_pos st) =? -1) = false.
Proof.
  intros Hreg Hpos.
  destruct (now_playing_in_range st Hreg Hpos) as (Hcur & _).
  by apply Z.eqb_neq.
Qed.

(** X17.  The end of a track is handled once: when a tick of the
    polling timer has scheduled the end-of-track callback, it has
    left the session as it was and recorded the current registry
    index, and a further tick, whatever position and length it
    reports, schedules nothing and changes nothing. *)
Theorem end_of_track_fires_once (pos length pos' length' : Z)
        (w w' : Auto.timer) :
  Auto._maybe_autoplay_next pos length w = Ok (true, w') ->
  Auto.session w' = Auto.session w
  /\ Auto._ended_fired_for_track_idx w'
     = current_of (play_order (Auto.session w)) (play_pos (Auto.session w))
  /\ Auto._maybe_autoplay_next pos' length' w' = Ok (false, w').
Proof.
  rewrite maybe_autoplay_next_run. intros [= Hdue <-]. rewrite Hdue.
  split; [done|]. split; [done|].
  rewrite maybe_autoplay_next_run.
  assert (Hnot : due pos' length' 
                   (Auto.set_ended_fired
                      (current_of (play_order (Auto.session w))
                                  (play_pos (Auto.session w))) w) = false).
  { unfold due. cbn [Auto.session Auto.set_ended_fired
                     Auto._ended_fired_for_track_idx Auto._user_seeking].
    rewrite Z.eqb_refl. cbn [negb]. by rewrite andb_false_r. }
  by rewrite Hnot.
Qed.

Lemma end_of_track_fires_once_witness :
  Auto.session (Auto.set_ended_fired 1 looping_timer)
  = Auto.session looping_timer
  /\ Auto._ended_fired_for_track_idx (Auto.set_ended_fired 1 looping_timer)
     = 1
  /\ Auto._maybe_autoplay_next 1990 2000
       (Auto.set_ended_fired 1 looping_timer)
     = Ok (false, Auto.set_ended_fired 1 looping_timer).
Proof.
  apply (end_of_track_fires_once 1500 2000 1990 2000 looping_timer).
  reflexivity.
Defined.

(** X18.  Repeat-one keeps replaying: with a current track in a play
    order of registry indices, repeat-one on, nobody dragging the
    slider and no end of track handled, a tick within the last 700 ms
    schedules the callback, the callback loads the current track
    again, and the timer state is afterwards exactly what it was, so
    that the next end of the track is handled in the same way. *)
Theorem repeat_one_replays_at_every_end (pos length : Z)
        (w : Auto.timer) :
  registered (tracks (Auto.session w)) (play_order (Auto.session w)) ->
  0 <= play_pos (Auto.session w) < Py.len (play_order (Auto.session w)) ->
  repeat_one (Auto.session w) = true ->
  Auto._user_seeking w = false ->
  Auto._ended_fired_for_track_idx w = -1 ->
  0 < pos -> 0 < length -> length - pos <= 700 ->
  exists loc,
    (fired <- Auto._maybe_autoplay_next pos length ;;
     sig <- Auto._go ;;
     ret (fired, sig)) w
    = Ok ((true,
           Playing (current_of (play_order (Auto.session w))
                               (play_pos (Auto.session w))) loc),
          w).
Proof.
  intros Hreg Hpos Hone Hseek Hlatch Hp Hl Hrem.
  pose proof (current_in_range_known _ Hreg Hpos) as Hcur.
  destruct (now_playing_in_range _ Hreg Hpos) as (Hne & loc & Hloc).
  exists loc.
  assert (Hdue : due pos length w = true).
  { unfold due. rewrite Hseek, Hcur, Hlatch. cbn [negb andb].
    destruct (Z.leb_spec length 0); [lia|].
    destruct (Z.leb_spec pos 0); [lia|]. cbn [orb negb andb].
    destruct (Z.gtb_spec (length - pos) 700); [lia|]. cbn [negb andb].
    apply negb_true_iff, Z.eqb_neq. congruence. }
  unfold bind at 1. rewrite maybe_autoplay_next_run, Hdue.
  unfold Auto._go, bind at 1. unfold bind at 1, get at 1.
  cbn [Auto.session Auto.set_ended_fired]. rewrite Hone.
  rewrite timer_load_run by done.
  cbn [Auto.session Auto.set_ended_fired]. rewrite Hcur, Hloc.
  unfold ret. do 2 f_equal. destruct w. cbn in *. by subst.
Qed.

Lemma repeat_one_replays_at_every_end_witness :
  exists loc,
    (fired <- Auto._maybe_autoplay_next 1500 2000 ;;
     sig <- Auto._go ;;
     ret (fired, sig)) looping_timer
    = Ok ((true, Playing 1 loc), looping_timer).
Proof.
  apply (repeat_one_replays_at_every_end 1500 2000 looping_timer);
    [solve_registered | unfold Py.len; cbn; lia | reflexivity | reflexivity
     | reflexivity | lia | lia | lia].
Defined.

(** X19.  Playback ends once: at the last offset of a play order of
    registry indices, with both repeat modes off, a tick within the
    last 700 ms schedules the callback, the callback stops the engine
    and puts the current index on the history, and from then on no
    tick schedules anything. *)
Theorem playback_ends_once (pos length : Z) (w : Auto.timer) :
  registered (tracks (Auto.session w)) (play_order (Auto.session w)) ->
  0 <= play_pos (Auto.session w) ->
  play_pos (Auto.session w) = Py.len (play_order (Auto.session w)) - 1 ->
  repeat_one (Auto.session w) = false ->
  repeat_all (Auto.session w) = false ->
  Auto._user_seeking w = false ->
  Auto._ended_fired_for_track_idx w = -1 ->
  0 < pos -> 0 < length -> length - pos <= 700 ->
  exists w1,
    (fired <- Auto._maybe_autoplay_next pos length ;;
     sig <- Auto._go ;;
     ret (fired, sig)) w
    = Ok ((true, Stopped), w1)
    /\ Auto.session w1 = pushed (Auto.session w)
    /\ forall pos' length',
        Auto._maybe_autoplay_next pos' length' w1 = Ok (false, w1).
Proof.
  intros Hreg Hlo Hpos Hone Hall Hseek Hlatch Hp Hl Hrem.
  assert (Hin : 0 <= play_pos (Auto.session w)
                < Py.len (play_order (Auto.session w))) by lia.
  pose proof (current_in_range_known _ Hreg Hin) as Hcur.
  assert (Hne : play_order (Auto.session w) <> []).
  { intros Hnil. rewrite Hnil in Hin. unfold Py.len in Hin. cbn in Hin. lia. }
  assert (Hnext : Auto.play_next (Auto.session w)
                  = Ok (Stopped, pushed (Auto.session w))).
  { rewrite auto_play_next_run by done. unfold advanced.
    destruct (pushed_fields (Auto.session w))
      as (_ & -> & -> & _ & -> & _).
    destruct (Z.geb_spec (play_pos (Auto.session w) + 1)
                         (Py.len (play_order (Auto.session w)))); [|lia].
    by rewrite Hall. }
  assert (Hdue : due pos length w = true).
  { unfold due. rewrite Hseek, Hcur, Hlatch. cbn [negb andb].
    destruct (Z.leb_spec length 0); [lia|].
    destruct (Z.leb_spec pos 0); [lia|]. cbn [orb negb andb].
    destruct (Z.gtb_spec (length - pos) 700); [lia|]. cbn [negb andb].
    apply negb_true_iff, Z.eqb_neq. apply Z.eqb_neq in Hcur. congruence. }
  eexists. split_and!.
  - unfold bind at 1. rewrite maybe_autoplay_next_run, Hdue.
    unfold Auto._go, bind at 1. unfold bind at 1, get at 1.
    cbn [Auto.session Auto.set_ended_fired]. rewrite Hone.
    unfold Auto.play_next_timed, bind at 1, Auto.on_session.
    cbn [Auto.session Auto.set_ended_fired]. rewrite Hnext.
    reflexivity.
  - done.
  - intros pos' length'. rewrite maybe_autoplay_next_run.
    match goal with
    | |- Ok (due _ _ ?w1, _) = _ =>
        assert (Hnot : due pos' length' w1 = false)
    end.
    { unfold due. cbn [Auto.session Auto.set_ended_fired Auto.set_session
                       Auto._ended_fired_for_track_idx Auto._user_seeking].
      destruct (pushed_fields (Auto.session w)) as (_ & -> & -> & _).
      rewrite Z.eqb_refl. cbn [negb]. by rewrite andb_false_r. }
    by rewrite Hnot.
Qed.

Lemma playback_ends_once_witness :
  exists w1,
    (fired <- Auto._maybe_autoplay_next 1500 2000 ;;
     sig <- Auto._go ;;
     ret (fired, sig)) ending_timer
    = Ok ((true, Stopped), w1)
    /\ Auto.session w1 = pushed (Auto.session ending_timer)
    /\ forall pos' length',
        Auto._maybe_autoplay_next pos' length' w1 = Ok (false, w1).
Proof.
  apply (playback_ends_once 1500 2000 ending_timer);
    [solve_registered | cbn; lia | reflexivity | reflexivity | reflexivity
     | reflexivity | reflexivity | lia | lia | lia].
Defined.
End EndOfTrack.

(** ** Imports and loads of the autoplay variant *)

Section AutoImport.
Context `{Host}.
Import Sequencer.

Lemma auto_add_loop_extra (paths : list PurePath) (ts : list Track)
      (existing : gset string) (added : Z) :
  exists extra existing',
    Auto.add_loop paths ts existing added
    = (ts ++ extra, existing', added + Py.len extra)
    /\ Forall (fun t => exists p, p ∈ paths /\ on_disk p = true
                                  /\ t = Auto._read_metadata p) extra.
Proof.
  revert ts existing added.
  induction paths as [|p paths IH]; intros ts existing added.
  - exists [], existing. rewrite app_nil_r. unfold Py.len. cbn.
    split; [f_equal; lia | constructor].
  - cbn [Auto.add_loop]. destruct (on_disk p) eqn:Hd; cbn [negb].
    + destruct (bool_decide (str p ∈ existing)).
      * destruct (IH ts existing added) as (extra & ex' & Hrun & Hex).
        exists extra, ex'. split; [done|].
        eapply Forall_impl; [exact Hex|].
        intros t (q & Hq & Hqd & Ht). exists q. split; [by right | done].
      * destruct (IH (ts ++ [Auto._read_metadata p])
                     ({[str p]} ∪ existing) (added + 1))
          as (extra & ex' & Hrun & Hex).
        exists (Auto._read_metadata p :: extra), ex'.
        rewrite Hrun, <- app_assoc. split.
        -- f_equal. unfold Py.len. cbn [length]. lia.
        -- constructor.
           ++ exists p. split; [by left | done].
           ++ eapply Forall_impl; [exact Hex|].
              intros t (q & Hq & Hqd & Ht). exists q.
              split; [by right | done].
    + destruct (IH ts existing added) as (extra & ex' & Hrun & Hex).
      exists extra, ex'. split; [done|].
      eapply Forall_impl; [exact Hex|].
      intros t (q & Hq & Hqd & Ht). exists q. split; [by right | done].
Qed.

(** The session an import or a load of the autoplay variant leaves
    once the registry [ts] has been stored, and the signal it
    returns: playback starts at offset 0 when [start] holds and the
    new play order is not empty. *)
Lemma auto_restart_run (start : bool) (st : state) :
  let s1 := rebuilt false
              (rebuilt true
                 (set_visible_indices
                    (collect_visible (query_of (search st)) (tracks st))
                    st)) in
  (_apply_filter ;;;
   _rebuild_play_order false ;;;
   order <- get play_order ;;
   if Auto.auto_play && start
      && (match order with [] => false | _ :: _ => true end)
   then modify (set_play_pos 0) ;;; _load_current_and_play
   else ret Idle) st
  = Ok (if start && (match play_order s1 with
                     | [] => false
                     | _ :: _ => true
                     end)
        then (now_playing s1, s1) else (Idle, s1)).
Proof.
  intros s1. unfold bind at 1. rewrite apply_filter_run.
  unfold bind at 1. rewrite rebuild_play_order_run. fold s1.
  unfold bind at 1, get at 1. cbn [Auto.auto_play andb].
  assert (Hok : session_ok s1).
  { apply rebuilt_ok. apply collect_visible_registered. }
  destruct start; cbn [andb]; [|done].
  assert (Hpos : play_order s1 <> [] -> play_pos s1 = 0).
  { subst s1.
    match goal with
    | |- play_order (rebuilt false ?s) <> [] -> _ =>
        change (play_pos (rebuilt false s))
          with (rebuilt_pos false (current_of (play_order s) (play_pos s))
                            (reorder s).1);
        change (play_order (rebuilt false s)) with (reorder s).1;
        by destruct (reorder s).1
    end. }
  destruct (play_order s1) as [|first rest] eqn:Ho; [done|].
  assert (Hsame : set_play_pos 0 s1 = s1).
  { rewrite <- Hpos by done. by destruct s1. }
  unfold bind, modify. rewrite Hsame.
  apply load_current_and_play_run. apply Hok.
Qed.

Lemma auto_add_paths_run (paths : list PurePath) (st : state) :
  exists extra existing',
    Auto.add_loop paths (tracks st) (Auto.existing_of (tracks st)) 0
    = (tracks st ++ extra, existing', Py.len extra)
    /\ Forall (fun t => exists p, p ∈ paths /\ on_disk p = true
                                  /\ t = Auto._read_metadata p) extra
    /\ Auto._add_paths paths st
       = Ok (match extra with
             | [] => (Idle, st)
             | _ :: _ =>
                 let s1 :=
                   rebuilt false
                     (rebuilt true
                        (set_visible_indices
                           (collect_visible (query_of (search st))
                                            (tracks st ++ extra))
                           (set_tracks (tracks st ++ extra) st))) in
                 if (Py.len (tracks st) =? 0)
                    && (match play_order s1 with
                        | [] => false
                        | _ :: _ => true
                        end)
                 then (now_playing s1, s1) else (Idle, s1)
             end).
Proof.
  destruct (auto_add_loop_extra paths (tracks st)
              (Auto.existing_of (tracks st)) 0)
    as (extra & ex' & Hrun & Hex).
  rewrite Z.add_0_l in Hrun.
  exists extra, ex'. split_and!; [done..|].
  unfold Auto._add_paths, bind at 1, get at 1. rewrite Hrun.
  unfold bind at 1, modify at 1. destruct extra as [|t extra].
  - rewrite app_nil_r, set_tracks_same. done.
  - assert (Hn : (Py.len (t :: extra) =? 0) = false).
    { unfold Py.len. cbn [length]. apply Z.eqb_neq. lia. }
    rewrite Hn.
    exact (auto_restart_run (Py.len (tracks st) =? 0)
             (set_tracks (tracks st ++ t :: extra) st)).
Qed.

(** X20.  An import of the autoplay variant appends the metadata of
    listed paths that exist.  When nothing is appended the session is
    left as it was and nothing is played.  An import into a registry
    that already holds tracks never starts playback.  An import into
    an empty registry starts playback at offset 0 of the new play
    order whenever something was appended and the filter shows a
    track. *)
Theorem import_autoplays_into_empty_registry (paths : list PurePath)
        (st : state) :
  exists extra sig st',
    Auto._add_paths paths st = Ok (sig, st')
    /\ tracks st' = tracks st ++ extra
    /\ Forall (fun t => exists p, p ∈ paths /\ on_disk p = true
                                  /\ t = Auto._read_metadata p) extra
    /\ (extra = [] -> st' = st /\ sig = Idle)
    /\ (tracks st <> [] -> sig = Idle)
    /\ (tracks st = [] -> extra <> [] ->
        match play_order st' with
        | [] => sig = Idle
        | first :: _ =>
            play_pos st' = 0 /\ exists loc, sig = Playing first loc
        end).
Proof.
  destruct (auto_add_paths_run paths st) as (extra & ex' & _ & Hex & Hrun).
  exists extra. destruct extra as [|t extra].
  - exists Idle, st. rewrite app_nil_r. split_and!; done.
  - cbv zeta in Hrun.
    match type of Hrun with
    | context [play_order ?s] => set (s1 := s) in *
    end.
    assert (Hok : session_ok s1).
    { apply rebuilt_ok. apply collect_visible_registered. }
    assert (Hpos : play_order s1 <> [] -> play_pos s1 = 0).
    { subst s1.
      match goal with
      | |- play_order (rebuilt false ?s) <> [] -> _ =>
          change (play_pos (rebuilt false s))
            with (rebuilt_pos false (current_of (play_order s) (play_pos s))
                              (reorder s).1);
          change (play_order (rebuilt false s)) with (reorder s).1;
          by destruct (reorder s).1
      end. }
    destruct (tracks st) as [|u ts] eqn:Hts.
    + change (Py.len [] =? 0) with true in Hrun. cbn [andb] in Hrun.
      destruct (play_order s1) as [|first rest] eqn:Ho.
      * exists Idle, s1. split_and!; try done.
        intros _ _. by rewrite Ho.
      * exists (now_playing s1), s1. split_and!; try done.
        intros _ _. rewrite Ho. split; [by apply Hpos|].
        destruct Hok as (_ & _ & Hreg).
        destruct (now_playing_in_range s1 Hreg) as (_ & loc & Hloc).
        { rewrite Hpos, Ho by done. unfold Py.len. cbn [length]. lia. }
        exists loc. rewrite Hloc. f_equal.
        apply current_of_lookup.
        -- rewrite Hpos, Ho by done. unfold Py.len. cbn [length]. lia.
        -- by rewrite Hpos, Ho.
    + assert (Hl : (Py.len (u :: ts) =? 0) = false).
      { unfold Py.len. cbn [length]. apply Z.eqb_neq. lia. }
      rewrite Hl in Hrun. cbn [andb] in Hrun.
      exists Idle, s1. split_and!; done.
Qed.

Lemma auto_add_loop_covers (paths : list PurePath) (ts : list Track)
      (existing : gset string) (added : Z) :
  (forall p, str (Path (str p)) = str p) ->
  existing ⊆ Auto.existing_of ts ->
  exists extra existing',
    Auto.add_loop paths ts existing added
    = (ts ++ extra, existing', added + Py.len extra)
    /\ existing ⊆ existing'
    /\ existing' ⊆ Auto.existing_of (ts ++ extra)
    /\ forall p, p ∈ paths -> on_disk p = true -> str p ∈ existing'.
Proof.
  intros Hstr. revert ts existing added.
  induction paths as [|p paths IH]; intros ts existing added Hsub.
  - exists [], existing. rewrite app_nil_r. unfold Py.len. cbn.
    split_and!; [f_equal; lia | done | done |].
    by intros p ?%elem_of_nil.
  - cbn [Auto.add_loop]. destruct (on_disk p) eqn:Hd; cbn [negb].
    + destruct (bool_decide (str p ∈ existing)) eqn:Hk.
      * apply bool_decide_eq_true in Hk.
        destruct (IH ts existing added Hsub)
          as (extra & ex' & Hrun & Hin & Hout & Hall).
        exists extra, ex'. split_and!; [done..|].
        intros q [->|Hq]%elem_of_cons Hqd; [by apply Hin | by apply Hall].
      * destruct (IH (ts ++ [Auto._read_metadata p])
                     ({[str p]} ∪ existing) (added + 1))
          as (extra & ex' & Hrun & Hin & Hout & Hall).
        { unfold Auto.existing_of in *. rewrite map_app, list_to_set_app.
          apply union_least; [|set_solver].
          unfold Auto._read_metadata. destruct (tags p) as [[[ti ar] al] d].
          cbn [map path list_to_set]. rewrite Hstr. set_solver. }
        exists (Auto._read_metadata p :: extra), ex'.
        rewrite Hrun, <- app_assoc. split_and!.
        -- f_equal. unfold Py.len. cbn [length]. lia.
        -- set_solver.
        -- rewrite <- app_assoc in Hout. exact Hout.
        -- intros q [->|Hq]%elem_of_cons Hqd; [set_solver | by apply Hall].
    + destruct (IH ts existing added Hsub)
        as (extra & ex' & Hrun & Hin & Hout & Hall).
      exists extra, ex'. split_and!; [done..|].
      intros q [->|Hq]%elem_of_cons Hqd; [congruence | by apply Hall].
Qed.

Lemma auto_add_loop_nothing_new (paths : list PurePath) (ts : list Track)
      (existing : gset string) (added : Z) :
  (forall p, p ∈ paths -> on_disk p = true -> str p ∈ existing) ->
  Auto.add_loop paths ts existing added = (ts, existing, added).
Proof.
  induction paths as [|p paths IH]; intros Hkn; [done|].
  cbn [Auto.add_loop]. destruct (on_disk p) eqn:Hd; cbn [negb].
  - rewrite bool_decide_eq_true_2 by (apply Hkn; [by left | done]).
    apply IH. intros q Hq. apply Hkn. by right.
  - apply IH. intros q Hq. apply Hkn. by right.
Qed.

Lemma auto_path_of_read_metadata (p : PurePath) :
  path (Auto._read_metadata p) = str p.
Proof.
  unfold Auto._read_metadata. by destruct (tags p) as [[[ti ar] al] d].
Qed.

Lemma auto_add_loop_fresh (paths : list PurePath) (ts : list Track)
      (existing : gset string) (added : Z) :
  exists extra existing',
    Auto.add_loop paths ts existing added
    = (ts ++ extra, existing', added + Py.len extra)
    /\ NoDup (map path extra)
    /\ Forall (fun t => path t ∉ existing) extra.
Proof.
  revert ts existing added.
  induction paths as [|p paths IH]; intros ts existing added.
  - exists [], existing. rewrite app_nil_r. unfold Py.len. cbn.
    split_and!; [f_equal; lia | constructor | constructor].
  - cbn [Auto.add_loop]. destruct (on_disk p) eqn:Hd; cbn [negb];
      [|apply IH].
    destruct (bool_decide (str p ∈ existing)) eqn:Hk; [apply IH|].
    apply bool_decide_eq_false in Hk.
    destruct (IH (ts ++ [Auto._read_metadata p])
                 ({[str p]} ∪ existing) (added + 1))
      as (extra & ex' & Hrun & Hnd & Hfresh).
    exists (Auto._read_metadata p :: extra), ex'.
    rewrite Hrun, <- app_assoc. split_and!.
    + f_equal. unfold Py.len. cbn [length]. lia.
    + cbn [map]. rewrite auto_path_of_read_metadata. constructor; [|done].
      intros Hin%list_elem_of_In. apply in_map_iff in Hin as (t & Ht & Hin).
      apply list_elem_of_In in Hin.
      rewrite Forall_forall in Hfresh. specialize (Hfresh t Hin).
      set_solver.
    + constructor; [by rewrite auto_path_of_read_metadata|].
      eapply Forall_impl; [exact Hfresh|]. intros t Ht. set_solver.
Qed.

(** X21.  On a host where a path built from the text of a path
    prints as the same text, importing the same list of paths twice
    in a row into the autoplay variant registers every existing file
    once: after the first import every listed file that exists has
    its location in the registry, the records the import appended
    carry pairwise different locations none of which was registered
    before, and the second import plays nothing and leaves the
    session exactly as the first one left it. *)
Theorem auto_import_twice_is_import_once (paths : list PurePath)
        (st : state) :
  (forall p, str (Path (str p)) = str p) ->
  exists extra sig st1,
    Auto._add_paths paths st = Ok (sig, st1)
    /\ tracks st1 = tracks st ++ extra
    /\ NoDup (map path extra)
    /\ Forall (fun t => path t ∉ Auto.existing_of (tracks st)) extra
    /\ (forall p, p ∈ paths -> on_disk p = true ->
                  str p ∈ Auto.existing_of (tracks st1))
    /\ Auto._add_paths paths st1 = Ok (Idle, st1).
Proof.
  intros Hstr.
  destruct (auto_add_paths_run paths st) as (extra & ex' & Hloop & _ & Hrun).
  destruct (auto_add_loop_covers paths (tracks st)
              (Auto.existing_of (tracks st)) 0 Hstr)
    as (extra' & ex'' & Hloop' & _ & Hout & Hall); [done|].
  rewrite Hloop in Hloop'. injection Hloop' as Hex <- _.
  apply app_inv_head in Hex. subst extra'.
  destruct (auto_add_loop_fresh paths (tracks st)
              (Auto.existing_of (tracks st)) 0)
    as (extra' & ex'' & Hloop' & Hnd & Hfresh).
  rewrite Hloop in Hloop'. injection Hloop' as Hex _ _.
  apply app_inv_head in Hex. subst extra'.
  assert (Hsecond : forall st1,
             tracks st1 = tracks st ++ extra ->
             Auto._add_paths paths st1 = Ok (Idle, st1)).
  { intros st1 Ht1. unfold Auto._add_paths, bind at 1, get at 1.
    rewrite auto_add_loop_nothing_new.
    - unfold bind, modify, ret. cbn [Z.eqb]. by rewrite set_tracks_same.
    - intros p Hp Hd. rewrite Ht1. apply Hout. by apply Hall. }
  assert (Hcover : forall st1,
             tracks st1 = tracks st ++ extra ->
             forall p, p ∈ paths -> on_disk p = true ->
                       str p ∈ Auto.existing_of (tracks st1)).
  { intros st1 Ht1 p Hp Hd. rewrite Ht1. apply Hout. by apply Hall. }
  exists extra. destruct extra as [|t extra].
  - exists Idle, st.
    assert (Ht : tracks st = tracks st ++ []) by (by rewrite app_nil_r).
    split_and!; [done|done|done|done|by apply Hcover|by apply Hsecond].
  - cbv zeta in Hrun.
    match type of Hrun with
    | context [if ?c then (?a, ?s) else (Idle, ?s)] =>
        exists (if c then a else Idle), s;
          split_and!;
          [by destruct c | done | done | done
           | by apply Hcover | by apply Hsecond]
    end.
Qed.
End AutoImport.

Section AutoLoad.
Context `{Host}.
Import Sequencer.


End AutoLoad.

Section AutoSamples.

Lemma auto_import_twice_is_import_once_witness :
  exists extra sig st1,
    @Auto._add_paths plain_host ["/m/a.mp3"; "/m/a.mp3"; "/m/b.mp3"]%string
      (initial [])
    = Ok (sig, st1)
    /\ tracks st1 = tracks (initial []) ++ extra
    /\ NoDup (map path extra)
    /\ Forall (fun t => path t ∉ @Auto.existing_of plain_host
                                   (tracks (initial []))) extra
    /\ (forall p, p ∈ ["/m/a.mp3"; "/m/a.mp3"; "/m/b.mp3"]%string ->
                  @on_disk plain_host p = true ->
                  @str plain_host p ∈ @Auto.existing_of plain_host
                                        (tracks st1))
    /\ @Auto._add_paths plain_host
         ["/m/a.mp3"; "/m/a.mp3"; "/m/b.mp3"]%string st1
       = Ok (Idle, st1).
Proof.
  apply (@auto_import_twice_is_import_once plain_host). reflexivity.
Defined.

End AutoSamples.

(** ** The slick variant *)

Section SlickFacts.
Import Sequencer.

Lemma slick_play_at (s : Slick.state) (idx : Z) :
  slick_registered s ->
  Py.getitem (Slick.order s) (Slick.pos s) = Ok idx ->
  idx ∈ Slick.order s ->
  exists loc, Slick._play s = Ok (Playing idx loc, s).
Proof.
  intros Hreg Hget Hin. unfold Slick._play, bind, get, lift, ret.
  rewrite Hget.
  assert (Hr : 0 <= idx < Py.len (Slick.tracks s)).
  { unfold slick_registered, registered in Hreg.
    rewrite Forall_forall in Hreg. by apply Hreg. }
  destruct (getitem_in_range _ _ Hr) as (t & Ht & ->). by exists (path t).
Qed.

Lemma slick_play_at_offset (s : Slick.state) (p idx : Z) :
  slick_registered s ->
  0 <= p < Py.len (Slick.order s) ->
  Slick.order s !! Z.to_nat p = Some idx ->
  exists loc,
    Slick._play (Slick.set_pos p s) = Ok (Playing idx loc, Slick.set_pos p s).
Proof.
  intros Hreg Hp Hidx. apply slick_play_at; [done| |].
  - cbn [Slick.order Slick.pos Slick.set_pos].
    destruct (getitem_in_range _ _ Hp) as (a & Ha & ->). congruence.
  - cbn [Slick.order Slick.set_pos]. by apply list_elem_of_lookup_2 in Hidx.
Qed.

Lemma getitem_minus_one {A} (l : list A) (a : A) :
  last l = Some a -> Py.getitem l (-1) = Ok a.
Proof.
  intros Hl. rewrite last_lookup in Hl. unfold Py.getitem.
  change (-1 <? 0) with true. cbv iota.
  assert (Hlen : (0 < length l)%nat).
  { apply lookup_lt_Some in Hl. lia. }
  destruct (Z.ltb_spec (-1 + Py.len l) 0) as [Hneg|_].
  { unfold Py.len in Hneg. lia. }
  replace (Z.to_nat (-1 + Py.len l)) with (pred (length l))
    by (unfold Py.len; lia).
  by rewrite Hl.
Qed.

(** X23.  The slick variant with repeat-one ticked before anything
    has been played: the cursor is still [-1], and [next] plays the
    LAST entry of the order, because [self.order[-1]] counts from the
    end; the cursor stays at [-1]. *)
Theorem slick_repeat_one_before_first_play (s : Slick.state)
        (final : Z) :
  slick_registered s ->
  Slick.repeat_one s = true ->
  Slick.pos s = -1 ->
  last (Slick.order s) = Some final ->
  exists loc, Slick.next s = Ok (Playing final loc, s).
Proof.
  intros Hreg Hone Hpos Hlast.
  destruct (slick_play_at s final Hreg) as (loc & Hplay).
  { rewrite Hpos. by apply getitem_minus_one. }
  { rewrite last_lookup in Hlast. by apply list_elem_of_lookup_2 in Hlast. }
  exists loc. unfold Slick.next, bind at 1, get at 1.
  destruct (Slick.order s) as [|b o] eqn:Ho; [done|].
  unfold bind, get. by rewrite Hone.
Qed.

Lemma slick_repeat_one_before_first_play_witness :
  exists loc,
    Slick.next slick_unstarted_repeat_one
    = Ok (Playing 2 loc, slick_unstarted_repeat_one).
Proof.
  apply (slick_repeat_one_before_first_play slick_unstarted_repeat_one 2);
    [solve_registered | reflexivity | reflexivity | reflexivity].
Defined.

(** X24.  [next] of the slick variant with repeat-one off, over a
    non-empty order of registry indices: when the offset after the
    cursor is inside the order its entry is played and becomes
    current; when it is not and repeat-all is on, the first entry is
    played and the cursor is at offset 0, however far beyond the end
    the cursor was. *)
Theorem slick_next_advances_or_wraps (s : Slick.state) (first : Z)
        (rest : list Z) :
  slick_registered s ->
  Slick.order s = first :: rest ->
  Slick.repeat_one s = false ->
  (forall idx,
      0 <= Slick.pos s + 1 < Py.len (Slick.order s) ->
      Slick.order s !! Z.to_nat (Slick.pos s + 1) = Some idx ->
      exists loc,
        Slick.next s
        = Ok (Playing idx loc, Slick.set_pos (Slick.pos s + 1) s))
  /\ (Py.len (Slick.order s) <= Slick.pos s + 1 ->
      Slick.repeat_all s = true ->
      exists loc,
        Slick.next s = Ok (Playing first loc, Slick.set_pos 0 s)).
Proof.
  intros Hreg Ho Hone. split.
  - intros idx Hp Hidx.
    destruct (slick_play_at_offset s _ idx Hreg Hp Hidx) as (loc & Hplay).
    exists loc. unfold Slick.next, bind at 1, get at 1.
    rewrite Ho. unfold bind at 1, get at 1. rewrite Hone.
    unfold bind at 1, get at 1. unfold bind at 1, modify at 1.
    unfold bind at 1, get at 1. cbn [Slick.pos Slick.set_pos].
    rewrite <- Ho.
    destruct (Z.geb_spec (Slick.pos s + 1) (Py.len (Slick.order s)));
      [lia | done].
  - intros Hp Hall.
    destruct (slick_play_at_offset s 0 first Hreg) as (loc & Hplay).
    { rewrite Ho. unfold Py.len. cbn [length]. lia. }
    { by rewrite Ho. }
    exists loc. unfold Slick.next, bind at 1, get at 1.
    rewrite Ho. unfold bind at 1, get at 1. rewrite Hone.
    unfold bind at 1, get at 1. unfold bind at 1, modify at 1.
    unfold bind at 1, get at 1. cbn [Slick.pos Slick.set_pos].
    rewrite <- Ho.
    destruct (Z.geb_spec (Slick.pos s + 1) (Py.len (Slick.order s)));
      [|lia].
    unfold bind at 1, get at 1. cbn [Slick.repeat_all Slick.set_pos].
    rewrite Hall. cbn [negb]. unfold bind, modify.
    exact Hplay.
Qed.

Lemma slick_next_advances_or_wraps_witness :
  (exists loc,
      Slick.next slick_unstarted
      = Ok (Playing 0 loc, Slick.set_pos 0 slick_unstarted))
  /\ (exists loc,
         Slick.next slick_wrapping
         = Ok (Playing 0 loc, Slick.set_pos 0 slick_wrapping)).
Proof.
  split.
  - destruct (slick_next_advances_or_wraps slick_unstarted 0 [1; 2])
      as [Hforward _]; [solve_registered | reflexivity | reflexivity |].
    apply (Hforward 0); [unfold Py.len; cbn; lia | reflexivity].
  - destruct (slick_next_advances_or_wraps slick_wrapping 0 [1; 2])
      as [_ Hwrap]; [solve_registered | reflexivity | reflexivity |].
    apply Hwrap; [unfold Py.len; cbn; lia | reflexivity].
Defined.

(** X25.  Play/Pause of the slick variant over a non-empty order of
    registry indices: a playing engine is paused; a silent engine and
    a negative cursor start the first entry of the order at offset 0;
    a silent engine and any other cursor, one beyond the end of the
    order included, only resume the engine. *)
Theorem slick_toggle_starts_first_track (s : Slick.state) (first : Z)
        (rest : list Z) :
  slick_registered s ->
  Slick.order s = first :: rest ->
  Slick.toggle true s = Ok (Paused, s)
  /\ (Slick.pos s < 0 ->
      exists loc,
        Slick.toggle false s = Ok (Playing first loc, Slick.set_pos 0 s))
  /\ (0 <= Slick.pos s -> Slick.toggle false s = Ok (Resumed, s)).
Proof.
  intros Hreg Ho. split_and!; [done| |].
  - intros Hneg.
    destruct (slick_play_at_offset s 0 first Hreg) as (loc & Hplay).
    { rewrite Ho. unfold Py.len. cbn [length]. lia. }
    { by rewrite Ho. }
    exists loc. unfold Slick.toggle, bind at 1, get at 1.
    unfold bind at 1, get at 1. rewrite Ho.
    destruct (Z.ltb_spec (Slick.pos s) 0); [|lia]. cbn [andb].
    unfold bind, modify. exact Hplay.
  - intros Hpos. unfold Slick.toggle, bind, get, ret.
    by destruct (Z.ltb_spec (Slick.pos s) 0); [lia|].
Qed.

Lemma slick_toggle_starts_first_track_witness :
  Slick.toggle true slick_unstarted = Ok (Paused, slick_unstarted)
  /\ (exists loc,
         Slick.toggle false slick_unstarted
         = Ok (Playing 0 loc, Slick.set_pos 0 slick_unstarted))
  /\ Slick.toggle false slick_first_track = Ok (Resumed, slick_first_track).
Proof.
  destruct (slick_toggle_starts_first_track slick_unstarted 0 [1; 2])
    as (Hpause & Hstart & _); [solve_registered | reflexivity |].
  destruct (slick_toggle_starts_first_track slick_first_track 0 [1; 2])
    as (_ & _ & Hresume); [solve_registered | reflexivity |].
  split_and!; [exact Hpause | apply Hstart; cbn; lia | apply Hresume; cbn; lia].
Defined.

(** X26.  [refresh] of the slick variant never fails and touches
    neither the registry nor the cursor.  The order it leaves holds,
    without repetition, exactly the registry indices of the tracks
    whose title, artist and album line contains the lower-cased
    search text, and lists them in increasing order when shuffle is
    off. *)
Theorem slick_refresh_keeps_cursor (s : Slick.state) :
  exists s',
    Slick.refresh s = Ok (tt, s')
    /\ Slick.tracks s' = Slick.tracks s
    /\ Slick.pos s' = Slick.pos s
    /\ NoDup (Slick.order s')
    /\ (Slick.shuffle s = false -> StronglySorted Z.lt (Slick.order s'))
    /\ forall i,
        i ∈ Slick.order s' <->
        0 <= i
        /\ exists t, Slick.tracks s !! Z.to_nat i = Some t
                     /\ Py.substring_of (Py.lower (Slick.search s)) (hay t)
                        = true.
Proof.
  destruct (collect_loop_spec
              (fun t => Py.substring_of (Py.lower (Slick.search s)) (hay t))
              (Slick.tracks s) 0 [])
    as (l & Hl & Hsorted & Hmem).
  cbn [app] in Hl.
  assert (Hnodup : NoDup l).
  { clear -Hsorted. induction Hsorted as [|a l Hs IH Ha]; constructor.
    - intros Hin. rewrite Forall_forall in Ha. specialize (Ha _ Hin). lia.
    - done. }
  assert (Hmem' : forall i,
             i ∈ l <->
             0 <= i
             /\ exists t, Slick.tracks s !! Z.to_nat i = Some t
                          /\ Py.substring_of (Py.lower (Slick.search s))
                                             (hay t) = true).
  { intros i. rewrite Hmem. by rewrite Z.sub_0_r. }
  unfold Slick.refresh, bind at 1, get at 1. unfold bind at 1, get at 1.
  unfold Py.enumerate. rewrite Hl.
  unfold bind at 1, get at 1. destruct (Slick.shuffle s) eqn:Hsh.
  - unfold bind, Slick.random_shuffle, modify.
    destruct (Py.shuffle l (Slick.rng s)) as [b g] eqn:Hs.
    assert (Hperm : b ≡ₚ l).
    { pose proof (shuffle_perm l (Slick.rng s)) as Hp. by rewrite Hs in Hp. }
    eexists. split; [reflexivity|].
    cbn [Slick.tracks Slick.pos Slick.order Slick.set_order Slick.set_rng].
    split_and!; [done|done| |done|].
    + by rewrite Hperm.
    + intros i. by rewrite Hperm.
  - unfold bind, ret, modify. eexists. split; [reflexivity|].
    cbn [Slick.tracks Slick.pos Slick.order Slick.set_order].
    split_and!; done.
Qed.
End SlickFacts.

(** ** Sessions of the autoplay variant *)

Section AutoSessions.
Context `{Host}.
Import Sequencer.

Lemma returns_loading (m : M state signal) (P : state -> Prop)
      (w : Auto.timer) :
  returns m (fun _ st' => P st') (Auto.session w) ->
  returns (loading m) (fun _ w' => P (Auto.session w')) w.
Proof.
  intros (sig & st' & Hrun & HP).
  unfold loading, returns, bind at 1, Auto.on_session. rewrite Hrun.
  destruct sig; unfold bind, modify, ret; eexists _, _; (split; [done|]);
    exact HP.
Qed.

Lemma auto_add_paths_ok (paths : list PurePath) (st : state) :
  session_ok st ->
  returns (Auto._add_paths paths) (fun _ st' => session_ok st') st.
Proof.
  intros Hok.
  destruct (auto_add_paths_run paths st) as (extra & ex' & _ & _ & Hrun).
  unfold returns. rewrite Hrun. destruct extra as [|t extra].
  - by eexists _, _.
  - cbv zeta.
    match goal with
    | |- context [play_order ?s] => set (s1 := s)
    end.
    assert (Hok1 : session_ok s1).
    { apply rebuilt_ok. apply collect_visible_registered. }
    destruct (_ && _); by eexists _, _.
Qed.

Lemma auto_go_ok (w : Auto.timer) :
  session_ok (Auto.session w) ->
  returns Auto._go (fun _ w' => session_ok (Auto.session w')) w.
Proof.
  intros Hok. unfold Auto._go. steps.
  destruct (repeat_one (Auto.session w)).
  - unfold returns. rewrite timer_load_run by apply Hok.
    eexists _, _. split; [done|]. by destruct (_ =? -1).
  - apply (returns_loading Auto.play_next). by apply auto_play_next_ok.
Qed.

Lemma auto_handle_ok (e : auto_event) (w : Auto.timer) :
  session_ok (Auto.session w) ->
  returns (auto_handle e) (fun _ w' => session_ok (Auto.session w')) w.
Proof.
  intros Hok. destruct e as [| |row|paths|pos length|]; cbn [auto_handle].
  - step. eapply returns_mono.
    { apply (returns_loading Auto.play_next). by apply auto_play_next_ok. }
    intros u w' Hok'. by steps.
  - step. eapply returns_mono.
    { apply returns_loading. by apply auto_play_prev_ok. }
    intros u w' Hok'. by steps.
  - step. eapply returns_mono.
    { apply returns_loading. by apply auto_double_click_ok. }
    intros u w' Hok'. by steps.
  - step. eapply returns_mono.
    { apply returns_loading. by apply auto_add_paths_ok. }
    intros u w' Hok'. by steps.
  - unfold returns, bind. rewrite maybe_autoplay_next_run.
    eexists _, _. split; [done|]. by destruct (due pos length w).
  - step. eapply returns_mono; [by apply auto_go_ok|].
    intros u w' Hok'. by steps.
Qed.

(** X27.  The autoplay variant never raises and keeps its cursor in
    range: from a state where the cursor is [-1] or an offset into the
    play order (and [-1] when the play order is empty) and where the
    filter view and the play order hold registry indices, every
    sequence of Next and Previous presses, double clicks on any row,
    imports, timer ticks and end-of-track callbacks returns and ends
    in such a state. *)
Theorem auto_session_stays_in_order (l : list auto_event)
        (w : Auto.timer) :
  session_ok (Auto.session w) ->
  returns (auto_handle_all l)
          (fun _ w' => session_ok (Auto.session w')) w.
Proof.
  revert w. induction l as [|e l IH]; intros w Hok; cbn [auto_handle_all].
  - by step.
  - step. eapply returns_mono; [by apply auto_handle_ok|].
    intros u w' Hok'. by apply IH.
Qed.
End AutoSessions.

Section SessionSamples.

Lemma auto_session_stays_in_order_witness :
  returns (@auto_handle_all plain_host
             [@Drop plain_host ["/m/a.mp3"; "/m/b.mp3"]%string;
              Tick 1500 2000; Callback; PressNext; DoubleClick 7;
              PressPrevious])
          (fun _ w' => session_ok (Auto.session w')) fresh_timer.
Proof.
  apply (@auto_session_stays_in_order plain_host).
  apply initial_ok.
Defined.

Lemma full_cursor_stays_in_range_witness :
  returns (@perform_all plain_host
             [@Import plain_host ["/m/a.mp3"; "/m/b.mp3"]%string;
              Next; Next; SetShuffle true; Search "b"; JumpTo 0; Previous;
              TrackEnd])
          (fun _ st' => cursor_ok (play_order st') (play_pos st')
                        /\ session_ok st') (initial []).
Proof.
  apply (@full_cursor_stays_in_range plain_host).
  apply initial_ok.
Defined.
End SessionSamples.

(** ** Time labels *)

Section TimeLabels.

Lemma format_ms_below_one_second (ms : Z) :
  ms < 1000 -> Full._format_ms ms = "00:00"%string.
Proof.
  intros Hms. unfold Full._format_ms.
  destruct (Z.ltb_spec ms 0); [reflexivity|].
  by rewrite (Z.div_small ms 1000) by lia.
Qed.

(** X29.  The three variants print the same time label for every
    number of milliseconds, and a negative number, a number below one
    second and, in the autoplay variant, a missing one all print as
    00:00. *)
Theorem time_labels_agree (ms : Z) :
  Slick.fmt ms = Full._format_ms ms
  /\ Auto._format_ms (Some ms) = Full._format_ms ms
  /\ Auto._format_ms None = "00:00"%string
  /\ (ms < 1000 -> Full._format_ms ms = "00:00"%string).
Proof.
  split_and!; [| |reflexivity|apply format_ms_below_one_second].
  - unfold Slick.fmt. destruct (Z.ltb_spec ms 0) as [Hneg|Hpos].
    + symmetry. apply format_ms_below_one_second. lia.
    + unfold Full._format_ms. by destruct (Z.ltb_spec ms 0); [lia|].
  - reflexivity.
Qed.
End TimeLabels.
